(** * MR: narration-to-video pipeline

    A shallow embedding of the synthesis-and-timing core of the repository:
    [tts_pipeline.py] (chunking of the marked script, per-chunk synthesis,
    accumulation of the chapter timeline, batch driver) and [video_maker.py]
    (loading of the stored timeline and derivation of the image display
    intervals).

    Python strings are lists of characters, a raised exception is the left
    summand of a sum type, and Python's numbers are an interface [Number]
    whose instance [binary64] is IEEE-754 double precision as specified by
    the Standard Library's [SpecFloat]; every concrete run of the code in
    this file is evaluated at that instance, and the statements that need a
    law of the order, the addition or the subtraction of numbers are proved
    of it.

    Part I holds the model, Part II the lemmas and theorems. *)

From Stdlib Require Import Ascii String.
From Stdlib Require Import List Bool Arith ZArith Lia Permutation.
From Stdlib Require Import Floats.SpecFloat.
Import ListNotations.
Open Scope list_scope.
Open Scope nat_scope.

Set Implicit Arguments.

(** * Part I: the model *)

(** ** Numbers *)

(** The arithmetic the two modules perform on time stamps and durations:
    [0.0], [+], [-], [/], conversion from [int] (which raises
    [OverflowError] when the result is no finite number), [<] (the
    comparison [list.sort] uses) and [<=]. *)
Class Number (T : Type) : Type := {
  zero : T;
  add : T -> T -> T;
  sub : T -> T -> T;
  div : T -> T -> T;
  of_int : Z -> T;
  isfinite : T -> bool;
  ltb : T -> T -> bool;
  leb : T -> T -> bool
}.

(** Python's [float]: binary64, rounding to nearest even. *)
Module Float.

Definition prec : Z := 53.
Definition emax : Z := 1024.
Definition float : Type := spec_float.

(** [dyadic m e] is the double nearest to [m * 2^e]. *)
Definition dyadic (m e : Z) : float := binary_normalize prec emax m e false.

Definition of_Z (n : Z) : float := dyadic n 0.

Definition is_nan (x : float) : bool :=
  match x with S754_nan => true | _ => false end.

(** [math.isfinite] *)
Definition is_finite (x : float) : bool :=
  match x with S754_zero _ | S754_finite _ _ _ => true | _ => false end.

(** The values of [spec_float] that are doubles: a finite one has its
    mantissa and exponent in the canonical form of binary64.  Every Python
    float is such a value; [spec_float] also holds finite values with a
    longer mantissa or an exponent out of range, which no float is. *)
Definition valid (x : float) : bool := valid_binary prec emax x.

(** A double that is neither NaN nor below zero. *)
Definition nonneg (x : float) : bool :=
  valid x && SFleb (S754_zero false) x.

(** The value of a double that is not negative, counted in units of
    [2^-1074], the smallest positive double; infinity counts as [2^2098],
    the first power of two above every double. *)
Definition scaled (x : float) : Z :=
  match x with
  | S754_finite false m e => Z.pos m * 2 ^ (e + 1074)
  | S754_infinity false => 2 ^ 2098
  | _ => 0
  end.

(** [M / 2^n] rounded to the nearest integer, a tie going to the even
    one. *)
Definition rne (M n : Z) : Z :=
  let q := (M / 2 ^ n)%Z in
  let r := (M mod 2 ^ n)%Z in
  if (2 * r <? 2 ^ n)%Z then q
  else if (2 * r =? 2 ^ n)%Z then (if Z.even q then q else q + 1)%Z
  else (q + 1)%Z.

(** A count of units rounded to 53 significant bits. *)
Definition round_scaled (k : Z) : Z :=
  let n := (Z.log2 k - 52)%Z in
  if (n <=? 0)%Z then k else (rne k n * 2 ^ n)%Z.

(** What [n] steps of [shr_1] keep of [M]: the quotient by [2^n], the bit
    below it, and whether anything lies below that bit. *)
Definition shr_inv (M n : Z) (mrs : shr_record) : Prop :=
  exists t : Z,
    (M = shr_m mrs * 2 ^ n + (if shr_r mrs then 2 ^ (n - 1) else 0) + t
     /\ 0 <= t < 2 ^ (n - 1)
     /\ (shr_s mrs = true <-> 0 < t)
     /\ 0 <= shr_m mrs)%Z.

End Float.

#[export] Instance binary64 : Number Float.float := {
  zero := S754_zero false;
  add := SFadd Float.prec Float.emax;
  sub := SFsub Float.prec Float.emax;
  div := SFdiv Float.prec Float.emax;
  of_int := Float.of_Z;
  isfinite := Float.is_finite;
  ltb := SFltb;
  leb := SFleb
}.

(** Every element is at most its successor. *)
Fixpoint nondecreasing {T} `{Number T} (l : list T) : bool :=
  match l with
  | [] => true
  | a :: l' =>
      match l' with
      | [] => true
      | b :: _ => leb a b && nondecreasing l'
      end
  end.

(** [a == b] on numbers. *)
Definition equal {T} `{Number T} (a b : T) : bool := leb a b && leb b a.

(** [lower o l]: no element of [l] is below [o]; [upper l o]: none is
    above. *)
Definition lower {T} `{Number T} (o : T) (l : list T) : Prop :=
  Forall (fun x => leb o x = true) l.

Definition upper {T} `{Number T} (l : list T) (o : T) : Prop :=
  Forall (fun x => leb x o = true) l.

(** ** Strings *)

Definition str : Type := list ascii.

Definition lit (s : string) : str := list_ascii_of_string s.

Definition len (s : str) : Z := Z.of_nat (length s).

Definition dquote : ascii := ascii_of_nat 34.

(** [str.isspace] on the code points below 256. *)
Definition isspace (c : ascii) : bool :=
  let n := nat_of_ascii c in
  ((9 <=? n) && (n <=? 13)) || ((28 <=? n) && (n <=? 32))
  || (n =? 133) || (n =? 160).

(** [str.isdigit] on the code points below 256 that [\d] matches. *)
Definition isdigit (c : ascii) : bool :=
  let n := nat_of_ascii c in (48 <=? n) && (n <=? 57).

Fixpoint lstrip (s : str) : str :=
  match s with
  | c :: s' => if isspace c then lstrip s' else s
  | [] => []
  end.

Definition rstrip (s : str) : str := rev (lstrip (rev s)).

(** [s.strip()] *)
Definition strip (s : str) : str := rstrip (lstrip s).

(** [strip_prefix p s] is [Some r] when [s = p ++ r]. *)
Fixpoint strip_prefix (p s : str) : option str :=
  match p, s with
  | [], _ => Some s
  | a :: p', b :: s' => if Ascii.eqb a b then strip_prefix p' s' else None
  | _ :: _, [] => None
  end.

(** [s.startswith(p)] and [s.endswith(p)] *)
Definition startswith (s p : str) : bool :=
  match strip_prefix p s with Some _ => true | None => false end.

Definition endswith (s p : str) : bool := startswith (rev s) (rev p).

(** ** Exceptions *)

Inductive Exn : Type :=
| ConnectionError
| HTTPError (status : Z)
| JSONDecodeError
| RuntimeError (msg : string)
| CouldntDecodeError
| FileNotFoundError
| AttributeError
| IndexError
| TypeError
| KeyError (key : string)
| OverflowError
| OSError.

Definition Result (A : Type) : Type := (Exn + A)%type.

Definition bind {A B : Type} (m : Result A) (k : A -> Result B) : Result B :=
  match m with
  | inl e => inl e
  | inr a => k a
  end.

Notation "x <- m ;; k" := (bind m (fun x => k))
  (at level 61, m at next level, right associativity).
Notation "' p <- m ;; k" := (bind m (fun x => let 'p := x in k))
  (at level 61, p pattern, m at next level, right associativity).

(** ** tts_pipeline.py: [_split_ssml] *)

Definition speak_open : str := lit "<speak>".
Definition speak_close : str := lit "</speak>".

(** [f"<speak>{s}</speak>"] *)
Definition wrap (s : str) : str := speak_open ++ s ++ speak_close.

(** The text between the two wrappers of a chunk. *)
Definition dewrap (chunk : str) : str :=
  firstn (length chunk - 15) (skipn 7 chunk).

Definition mark_open : str := lit "<mark name=" ++ [dquote].
Definition mark_close : str := dquote :: lit "/>".

(** The marker tag of a name, as [text_cleanup.py] writes it for the names
    [p1], [p2], ... *)
Definition mark_tag (name : str) : str := mark_open ++ name ++ mark_close.

(** A name that is not empty, holds no double quote and does not start
    with a slash; [p1], [p2], ... are such names. *)
Definition marker_name (name : str) : bool :=
  match name with
  | c :: _ =>
      negb (Ascii.eqb c "/")
      && forallb (fun c => negb (Ascii.eqb c dquote)) name
  | [] => false
  end.

(** The longest run of characters other than the double quote: what the
    greedy negated class of the pattern consumes. *)
Fixpoint span_name (s : str) : str * str :=
  match s with
  | c :: s' =>
      if Ascii.eqb c dquote then ([], s)
      else let (name, rest) := span_name s' in (c :: name, rest)
  | [] => ([], [])
  end.

(** A match at the head of [s] of the pattern of [_split_ssml]: the
    opening of a mark tag up to the quote, one or more characters other than
    a quote, then the closing quote and slash.  The result is the matched
    tag and what follows it.  The name cannot give characters back, since a
    closing quote must follow it. *)
Definition match_mark (s : str) : option (str * str) :=
  match strip_prefix mark_open s with
  | None => None
  | Some s1 =>
      match span_name s1 with
      | ([], _) => None
      | (name, s2) =>
          match strip_prefix mark_close s2 with
          | None => None
          | Some rest => Some (mark_open ++ name ++ mark_close, rest)
          end
      end
  end.

(** The scan of [re.split] with one capturing group: [text] is the plain
    text read since the last match, most recent character first.  The scan
    advances by at least one character per step, so [S (length s)] steps
    are enough. *)
Fixpoint re_split_from (fuel : nat) (text : str) (s : str) : list str :=
  match fuel with
  | O => []
  | S fuel' =>
      match match_mark s with
      | Some (tag, rest) => rev text :: tag :: re_split_from fuel' [] rest
      | None =>
          match s with
          | [] => [rev text]
          | c :: s' => re_split_from fuel' (c :: text) s'
          end
      end
  end.

(** [re.split] on the mark pattern, in one capturing group: plain text at
    the even indices, marker tags at the odd ones. *)
Definition re_split (s : str) : list str :=
  re_split_from (S (length s)) [] s.

(** The body of the loop over [parts], on the state [(chunks, current)]. *)
Definition chunk_step (max_ssml_length : Z) (st : list str * str)
    (part : str) : list str * str :=
  let '(chunks, current) := st in
  let '(chunks, current) :=
    if (len current + len part >? max_ssml_length)%Z
    then (chunks ++ [wrap current], [])
    else (chunks, current) in
  (chunks, current ++ part).

Definition _split_ssml (max_ssml_length : Z) (ssml : str) : list str :=
  let ssml := strip ssml in
  let ssml := if startswith ssml speak_open then skipn 7 ssml else ssml in
  let ssml :=
    if endswith ssml speak_close then firstn (length ssml - 8) ssml
    else ssml in
  if (len ssml <=? max_ssml_length)%Z then [wrap ssml]
  else
    let '(chunks, current) :=
      fold_left (chunk_step max_ssml_length) (re_split ssml) ([], []) in
    match current with
    | [] => chunks
    | _ :: _ => chunks ++ [wrap current]
    end.

(** ** The temporary folder *)

(** The audio of chunk [i] of chapter [n] is written to
    [temp_dir / f"chapter{n}_chunk{i}.mp3"], here the pair [(n, i)]; the
    state of a run is the list of the chunk files that [output/temp]
    holds. *)
Definition ChunkFile : Type := (Z * nat)%type.

Definition Temp : Type := list ChunkFile.

Definition same_file (f g : ChunkFile) : bool :=
  (fst f =? fst g)%Z && (snd f =? snd g).

(** [mp3_out.write_bytes(audio_data)]: the file is made, or overwritten. *)
Definition write_bytes (f : ChunkFile) (temp : Temp) : Temp :=
  if existsb (same_file f) temp then temp else temp ++ [f].

(** [f.unlink(missing_ok=True)] *)
Definition unlink (f : ChunkFile) (temp : Temp) : Temp :=
  filter (fun g => negb (same_file f g)) temp.

(** A computation on the folder that may raise: its result or its
    exception, and the folder as it leaves it. *)
Definition Run (A : Type) : Type := Temp -> Result A * Temp.

Definition ret {A : Type} (a : A) : Run A := fun temp => (inr a, temp).

Definition raise {A : Type} (e : Exn) : Run A := fun temp => (inl e, temp).

Definition lift {A : Type} (r : Result A) : Run A := fun temp => (r, temp).

Definition update (f : Temp -> Temp) : Run unit :=
  fun temp => (inr tt, f temp).

Definition bind_run {A B : Type} (m : Run A) (k : A -> Run B) : Run B :=
  fun temp =>
    match m temp with
    | (inl e, temp') => (inl e, temp')
    | (inr a, temp') => k a temp'
    end.

Notation "x <~ m ;; k" := (bind_run m (fun x => k))
  (at level 61, m at next level, right associativity).
Notation "' p <~ m ;; k" := (bind_run m (fun x => let 'p := x in k))
  (at level 61, p pattern, m at next level, right associativity).

(** [temp_dir.rmdir()]: a folder that holds a file is not removed. *)
Definition rmdir : Run unit :=
  fun temp =>
    match temp with
    | [] => (inr tt, [])
    | _ :: _ => (inl OSError, temp)
    end.

(** ** tts_pipeline.py: synthesis and the chapter timeline *)

Section Pipeline.
Context {T : Type} `{Number T}.

(** A JSON value as [json] reads it: [None], [True] or [False], an [int],
    a [float] (NaN and the infinities are read too), a [str], a [list], or
    a [dict], whose members come in order, each name once. *)
#[warnings="-register-all"] Inductive Json : Type :=
| JNull
| JBool (b : bool)
| JInt (n : Z)
| JFloat (x : T)
| JString (s : string)
| JArray (items : list Json)
| JObject (members : list (string * Json)).

(** One entry of a chapter's timeline,
    [{"markName": ..., "timeSeconds": ...}]: the name is the value the reply
    gave, copied as it is, and the time is a float. *)
Record Timepoint : Type := mkTimepoint {
  markName : Json;
  timeSeconds : T
}.

(** What [_synthesize_chunk] returns,
    [{"duration": ..., "timepoints": ...}]: the timepoints are the value of
    the reply, whatever it is. *)
Record ChunkResult : Type := mkChunkResult {
  chunk_duration : T;
  chunk_timepoints : Json
}.

(** A result whose timepoints are a list of entries with a name and a
    time: the SynthesisResult of the specification. *)
Record SynthesisResult : Type := mkResult {
  duration : T;
  timepoints : list Timepoint
}.

(** The JSON object of a reply, as far as the code looks into it: the
    member [audioContent], a string when it is there, and the member
    [timepoints], any value when it is there. *)
Record Body : Type := mkBody {
  audioContent : option str;
  body_timepoints : option Json
}.

(** What [requests.post] gives: an exception, or a response with a status
    code whose text is, or is not, a JSON object. *)
Inductive Reply : Type :=
| NoReply
| Response (status_code : Z) (json : option Body).

(** The world outside the process: the script files, the synthesis service
    and the audio decoder (the length in milliseconds of the decoded audio,
    when it decodes). *)
Record World : Type := mkWorld {
  read_text : str -> option str;
  post : str -> Reply;
  decode_ms : str -> option Z
}.

(** [_synthesize_chunk]: the audio is written to [mp3_out] before it is
    decoded. *)
Definition _synthesize_chunk (w : World) (ssml_chunk : str)
    (mp3_out : ChunkFile) : Run ChunkResult :=
  match post w ssml_chunk with
  | NoReply => raise ConnectionError
  | Response status_code json =>
      (* response.raise_for_status() *)
      if ((400 <=? status_code) && (status_code <? 600))%Z
      then raise (HTTPError status_code)
      else
        match json with
        | None => raise JSONDecodeError
        | Some data =>
            match audioContent data with
            | None => raise (RuntimeError "No audio content in TTS response")
            | Some audio_data =>
                _ <~ update (write_bytes mp3_out) ;;
                match decode_ms w audio_data with
                | None => raise CouldntDecodeError
                | Some ms =>
                    ret {| chunk_duration := div (of_int ms) (of_int 1000);
                           chunk_timepoints :=
                             match body_timepoints data with
                             | Some tps => tps
                             | None => JArray []
                             end |}
                end
            end
        end
  end.

(** [for tp in v]: the items of a list, the names of a dict, the
    characters of a string; nothing else is iterable. *)
Definition iterate (v : Json) : Result (list Json) :=
  match v with
  | JArray items => inr items
  | JObject members => inr (map (fun member => JString (fst member)) members)
  | JString s =>
      inr (map (fun c => JString (String c EmptyString))
               (list_ascii_of_string s))
  | JNull | JBool _ | JInt _ | JFloat _ => inl TypeError
  end.

(** [tp[key]] for a string [key]: only a dict is subscripted by a
    string. *)
Definition subscript (tp : Json) (key : string) : Result Json :=
  match tp with
  | JObject members =>
      match find (fun member => String.eqb (fst member) key) members with
      | Some (_, v) => inr v
      | None => inl (KeyError key)
      end
  | _ => inl TypeError
  end.

(** The float that [offset + v] adds to [offset]: [v] itself, or the
    conversion of an [int] or [bool]. *)
Definition seconds (v : Json) : Result T :=
  match v with
  | JFloat x => inr x
  | JInt n => if isfinite (of_int n) then inr (of_int n) else inl OverflowError
  | JBool b => inr (of_int (if b then 1 else 0))
  | _ => inl TypeError
  end.

(** The loop state that the timeline depends on: [global_timepoints] and
    [offset]. *)
Definition Acc : Type := (list Timepoint * T)%type.

(** [for tp in result["timepoints"]: global_timepoints.append({...})], on
    the items of the iteration: the name is read first, then the time. *)
Fixpoint append_items (offset : T) (items : list Json)
    (global_timepoints : list Timepoint) : Result (list Timepoint) :=
  match items with
  | [] => inr global_timepoints
  | tp :: rest =>
      name <- subscript tp "markName" ;;
      time <- subscript tp "timeSeconds" ;;
      t <- seconds time ;;
      append_items offset rest
        (global_timepoints
         ++ [ {| markName := name; timeSeconds := add offset t |} ])
  end.

(** The part of the loop body that follows the synthesis call: the inner
    [for], then [offset += result["duration"]]. *)
Definition accumulate_chunk (st : Acc) (result : ChunkResult) : Result Acc :=
  let '(global_timepoints, offset) := st in
  items <- iterate (chunk_timepoints result) ;;
  global_timepoints <- append_items offset items global_timepoints ;;
  inr (global_timepoints, add offset (chunk_duration result)).

(** [for i, chunk in enumerate(chunks, 1)]: the state is [chunk_files]
    (the indices of the chunk files written) with the accumulator. *)
Fixpoint chapter_loop (w : World) (chapter_number : Z)
    (chunks : list (nat * str)) (st : list nat * Acc)
    : Run (list nat * Acc) :=
  match chunks with
  | [] => ret st
  | (i, chunk) :: rest =>
      result <~ _synthesize_chunk w chunk (chapter_number, i) ;;
      acc <~ lift (accumulate_chunk (snd st) result) ;;
      chapter_loop w chapter_number rest (fst st ++ [i], acc)
  end.

(** [process_chapter]: the returned pair is the chapter whose audio file was
    written and [global_timepoints].  [temp_dir.mkdir(exist_ok=True)] leaves
    the files of the folder as they are.  Joining the chunk files and
    writing the two outputs are outside the model. *)
Definition process_chapter (w : World) (max_ssml_length : Z)
    (txt_file : str) (chapter_number : Z) : Run (Z * list Timepoint) :=
  match read_text w txt_file with
  | None => raise FileNotFoundError
  | Some content =>
      let raw_text := strip content in
      let ssml := wrap raw_text in
      let chunks := _split_ssml max_ssml_length ssml in
      '(chunk_files, (global_timepoints, offset)) <~
        chapter_loop w chapter_number
                     (combine (seq 1 (length chunks)) chunks)
                     ([], ([], zero)) ;;
      _ <~ update (fun temp =>
                     fold_left (fun temp i => unlink (chapter_number, i) temp)
                               chunk_files temp) ;;
      _ <~ rmdir ;;
      ret (chapter_number, global_timepoints)
  end.

(** One item of the list [process_all] returns. *)
Record Summary : Type := mkSummary {
  chapter : Z;
  audio : Z;
  n_timepoints : nat
}.

(** [re.search] for a run of digits in the stem: the first maximal one. *)
Fixpoint take_digits (s : str) : str :=
  match s with
  | c :: s' => if isdigit c then c :: take_digits s' else []
  | [] => []
  end.

Fixpoint search_digits (s : str) : option str :=
  match s with
  | c :: s' => if isdigit c then Some (take_digits s) else search_digits s'
  | [] => None
  end.

(** [int(digits)] *)
Definition int_of_digits (digits : str) : Z :=
  fold_left (fun n c => (10 * n + (Z.of_nat (nat_of_ascii c) - 48))%Z)
            digits 0%Z.

(** The loop of [process_all] over the sorted script files, each named by
    its stem.  The state is [results] and the lines given to
    [logging.error].  The chapter number is computed outside the [try];
    every exception of [process_chapter] is caught. *)
Fixpoint process_all_loop (w : World) (max_ssml_length : Z)
    (txt_files : list str) (st : list Summary * list (Z * Exn))
    : Run (list Summary * list (Z * Exn)) :=
  match txt_files with
  | [] => ret st
  | path :: rest =>
      match search_digits path with
      | None => raise AttributeError
      | Some digits =>
          let chap_num := int_of_digits digits in
          let '(results, log) := st in
          fun temp =>
            match process_chapter w max_ssml_length path chap_num temp with
            | (inr (mp3, tps), temp') =>
                process_all_loop w max_ssml_length rest
                  (results ++ [ {| chapter := chap_num; audio := mp3;
                                   n_timepoints := length tps |} ], log)
                  temp'
            | (inl exc, temp') =>
                process_all_loop w max_ssml_length rest
                  (results, log ++ [(chap_num, exc)]) temp'
            end
      end
  end.

Definition process_all (w : World) (max_ssml_length : Z)
    (txt_files : list str) : Run (list Summary * list (Z * Exn)) :=
  process_all_loop w max_ssml_length txt_files ([], []).

(** *** The batch in the specification's words *)

(** The name of the script holds a digit. *)
Definition numbered (path : str) : bool :=
  match search_digits path with Some _ => true | None => false end.

(** The chapter number of a script. *)
Definition chapter_of (path : str) : Z :=
  match search_digits path with
  | Some digits => int_of_digits digits
  | None => 0%Z
  end.

(** Every chapter is run once, in the order of the scripts, in the folder
    as the chapters before it left it: the list of the chapters' numbers
    with what their runs gave. *)
Fixpoint attempts (w : World) (max_ssml_length : Z) (txt_files : list str)
    (temp : Temp) : list (Z * Result (Z * list Timepoint)) :=
  match txt_files with
  | [] => []
  | path :: rest =>
      let (outcome, temp') :=
        process_chapter w max_ssml_length path (chapter_of path) temp in
      (chapter_of path, outcome) :: attempts w max_ssml_length rest temp'
  end.

(** The item that a run adds to the summary: one when the chapter is
    processed, none when it fails. *)
Definition summary_of (attempt : Z * Result (Z * list Timepoint))
    : list Summary :=
  match attempt with
  | (chap_num, inr (mp3, tps)) =>
      [ {| chapter := chap_num; audio := mp3; n_timepoints := length tps |} ]
  | (_, inl _) => []
  end.

(** The line that a run adds to the log: one when the chapter fails. *)
Definition failure_of (attempt : Z * Result (Z * list Timepoint))
    : list (Z * Exn) :=
  match attempt with
  | (_, inr _) => []
  | (chap_num, inl exc) => [ (chap_num, exc) ]
  end.

(** *** The accumulator in the specification's words *)

(** [for tp in result["timepoints"]: global_timepoints.append({...})], on
    a result whose entries have been read. *)
Definition append_timepoints (offset : T) (tps : list Timepoint)
    (global_timepoints : list Timepoint) : list Timepoint :=
  fold_left
    (fun g tp =>
       g ++ [ {| markName := markName tp;
                 timeSeconds := add offset (timeSeconds tp) |} ])
    tps global_timepoints.

(** The loop body after the synthesis call, on such a result. *)
Definition accumulate (st : Acc) (result : SynthesisResult) : Acc :=
  let '(global_timepoints, offset) := st in
  (append_timepoints offset (timepoints result) global_timepoints,
   add offset (duration result)).


(** The JSON value of a list of entries, as the service sends it. *)
Definition entry_json (tp : Timepoint) : Json :=
  JObject [ ("markName"%string, markName tp);
            ("timeSeconds"%string, JFloat (timeSeconds tp)) ].

Definition timepoints_json (tps : list Timepoint) : Json :=
  JArray (map entry_json tps).

(** The entries that the loop reads in a value of [timepoints], with their
    local times: what [tp["markName"]] and [tp["timeSeconds"]] give for
    every item, or the exception of the first item that has none. *)
Fixpoint entries (items : list Json) : Result (list Timepoint) :=
  match items with
  | [] => inr []
  | tp :: rest =>
      name <- subscript tp "markName" ;;
      time <- subscript tp "timeSeconds" ;;
      t <- seconds time ;;
      tps <- entries rest ;;
      inr ({| markName := name; timeSeconds := t |} :: tps)
  end.

(** The result of a chunk as the loop of [process_chapter] reads it. *)
Definition read_result (result : ChunkResult) : Result SynthesisResult :=
  items <- iterate (chunk_timepoints result) ;;
  tps <- entries items ;;
  inr {| duration := chunk_duration result; timepoints := tps |}.

(** What the service's answer to a chunk comes to, wherever its audio is
    written: the result read, or the exception of the call or of the
    reading. *)
Definition chunk_result (w : World) (chunk : str) : Result SynthesisResult :=
  result <- fst (_synthesize_chunk w chunk (0%Z, 0) []) ;;
  read_result result.

(** Each local time stamp is shifted by the offset reached so far, chunk
    after chunk. *)
Definition rebase (offset : T) (tp : Timepoint) : Timepoint :=
  {| markName := markName tp; timeSeconds := add offset (timeSeconds tp) |}.

Fixpoint rebased_from (offset : T) (results : list SynthesisResult)
    : list Timepoint :=
  match results with
  | [] => []
  | r :: rs => map (rebase offset) (timepoints r)
               ++ rebased_from (add offset (duration r)) rs
  end.

Fixpoint offset_after (offset : T) (results : list SynthesisResult) : T :=
  match results with
  | [] => offset
  | r :: rs => offset_after (add offset (duration r)) rs
  end.


End Pipeline.

Arguments Json T : clear implicits.
Arguments Timepoint T : clear implicits.
Arguments ChunkResult T : clear implicits.
Arguments SynthesisResult T : clear implicits.
Arguments Body T : clear implicits.
Arguments Reply T : clear implicits.
Arguments World T : clear implicits.
Arguments Acc T : clear implicits.

(** ** video_maker.py *)

Section Video.
Context {T : Type} `{Number T}.

(** [points.sort(key=lambda x: x["timeSeconds"])] compares keys with [<]
    only.  CPython sorts a list of fewer than 64 items in two steps, which
    the three definitions below follow: it finds the run that starts the
    list, turning it round when it descends, and then inserts the items that
    follow it one by one, each at the place a binary search finds.  (A
    longer list is cut into such runs, which are merged; where [<] orders
    the keys, the result is the same stable sort.) *)

(** [count_run], after the first two items: how far the run goes on.  A
    descending run is strictly descending, an ascending one may repeat a
    key. *)
Fixpoint run_on (descending : bool) (previous : T)
    (rest : list (Timepoint T)) : nat :=
  match rest with
  | [] => 0
  | p :: rest' =>
      if Bool.eqb (ltb (timeSeconds p) previous) descending
      then S (run_on descending (timeSeconds p) rest')
      else 0
  end.

(** [count_run]: the length of the run that starts the list, and whether
    it descends. *)
Definition count_run (points : list (Timepoint T)) : nat * bool :=
  match points with
  | [] => (0, false)
  | [_] => (1, false)
  | p :: q :: rest =>
      let descending := ltb (timeSeconds q) (timeSeconds p) in
      (2 + run_on descending (timeSeconds q) rest, descending)
  end.

(** The search of [binarysort] for the place of [pivot] among the sorted
    items, between [l] and [r]; the distance between the two shrinks at
    every step, so [r - l] steps are enough. *)
Fixpoint bisect (fuel : nat) (pivot : T) (sorted : list (Timepoint T))
    (l r : nat) : nat :=
  match fuel with
  | O => l
  | S fuel' =>
      if l <? r then
        let p := l + (r - l) / 2 in
        match nth_error sorted p with
        | Some q =>
            if ltb pivot (timeSeconds q)
            then bisect fuel' pivot sorted l p
            else bisect fuel' pivot sorted (S p) r
        | None => l
        end
      else l
  end.

(** One step of [binarysort]: the next item goes to its place. *)
Definition insert_by_time (sorted : list (Timepoint T)) (pivot : Timepoint T)
    : list (Timepoint T) :=
  let l := bisect (length sorted) (timeSeconds pivot) sorted
                  0 (length sorted) in
  firstn l sorted ++ pivot :: skipn l sorted.

Definition sort_by_time (points : list (Timepoint T)) : list (Timepoint T) :=
  match points with
  | [] | [_] => points
  | _ :: _ :: _ =>
      let '(n, descending) := count_run points in
      let run := firstn n points in
      let run := if descending then rev run else run in
      fold_left insert_by_time (skipn n points) run
  end.

(** [_load_timepoints], applied to the list read from the JSON file. *)
Definition _load_timepoints (points : list (Timepoint T)) : list T :=
  map timeSeconds (sort_by_time points).

(** [ImageClip(str(images[idx])).set_start(start).set_duration(dur)],
    together with the loop's [idx] and [end]: the display interval
    [(start, end, idx)] of the clip. *)
Record Clip : Type := mkClip {
  clip_index : nat;
  clip_image : str;
  clip_start : T;
  clip_end : T;
  clip_duration : T
}.

(** [for idx in range(len(transitions) - 1)], with its [break] and
    [continue]; subscripting out of range raises [IndexError]. *)
Fixpoint clip_loop (idxs : list nat) (transitions : list T)
    (images : list str) (clips : list Clip) : Result (list Clip) :=
  match idxs with
  | [] => inr clips
  | idx :: rest =>
      if length images <=? idx then inr clips
      else
        match nth_error transitions idx, nth_error transitions (idx + 1),
              nth_error images idx with
        | Some start, Some end_, Some image =>
            let dur := sub end_ start in
            if leb dur zero
            then clip_loop rest transitions images clips
            else clip_loop rest transitions images
                   (clips ++ [ {| clip_index := idx; clip_image := image;
                                  clip_start := start; clip_end := end_;
                                  clip_duration := dur |} ])
        | _, _, _ => inl IndexError
        end
  end.

(** How [create_chapter_video] ends, up to the hand-over to the encoder:
    with one of its two early returns, or with the clips given to
    [CompositeVideoClip] and the duration set on the video. *)
Inductive Outcome : Type :=
| MissingFiles
| NoImages
| Video (clips : list Clip) (duration_total : T).

(** [create_chapter_video]: [audio] is the duration of the chapter's audio
    file and [stored] the content of its timepoints file, when the file
    exists; [images] is the sorted list of the chapter's image files. *)
Definition create_chapter_video (audio : option T)
    (stored : option (list (Timepoint T))) (images : list str)
    : Result Outcome :=
  match audio, stored with
  | Some duration_total, Some points =>
      let transitions := _load_timepoints points in
      match images with
      | [] => inr NoImages
      | _ :: _ =>
          let transitions :=
            if length images <? length transitions
            then firstn (length images) transitions
            else transitions in
          let transitions := zero :: transitions in
          let transitions := transitions ++ [duration_total] in
          clips <- clip_loop (seq 0 (length transitions - 1))
                             transitions images [] ;;
          match clips with
          | [] => inl IndexError (* clips[0].size *)
          | _ :: _ => inr (Video clips duration_total)
          end
      end
  | _, _ => inr MissingFiles
  end.

(** *** The intervals in the specification's words *)

(** The boundary list: 0, the interior boundaries, the total duration. *)
Definition interior (points : list (Timepoint T)) (images : list str)
    : list T :=
  firstn (length images) (_load_timepoints points).

Definition boundaries (duration_total : T) (points : list (Timepoint T))
    (images : list str) : list T :=
  zero :: interior points images ++ [duration_total].

(** Consecutive boundaries paired, from index [idx] on, one pair per
    image. *)
Fixpoint pair_up (idx : nat) (bounds : list T) (images : list str)
    : list Clip :=
  match bounds, images with
  | start :: ((end_ :: _) as bounds'), image :: images' =>
      {| clip_index := idx; clip_image := image; clip_start := start;
         clip_end := end_; clip_duration := sub end_ start |}
      :: pair_up (S idx) bounds' images'
  | _, _ => []
  end.

Definition candidates (duration_total : T) (points : list (Timepoint T))
    (images : list str) : list Clip :=
  pair_up 0 (boundaries duration_total points images) images.

Definition positive (c : Clip) : bool := negb (leb (clip_duration c) zero).

(** The end of each interval is the start of the next. *)
Fixpoint contiguous (clips : list Clip) : Prop :=
  match clips with
  | [] => True
  | c :: rest =>
      match rest with
      | [] => True
      | c' :: _ => clip_end c = clip_start c' /\ contiguous rest
      end
  end.

(** The same for intervals whose boundaries are compared with [==]: each
    interval ends when the next starts. *)
Fixpoint seamless (clips : list Clip) : bool :=
  match clips with
  | [] => true
  | c :: rest =>
      match rest with
      | [] => true
      | c' :: _ => equal (clip_end c) (clip_start c') && seamless rest
      end
  end.

(** The intervals lead from [start] to [stop] without a gap: the first
    starts at [start], each next one when the one before it ends, and the
    last ends at [stop]. *)
Fixpoint covers (start : T) (clips : list Clip) (stop : T) : bool :=
  match clips with
  | [] => equal start stop
  | c :: rest => equal start (clip_start c) && covers (clip_end c) rest stop
  end.

End Video.

Arguments Clip T : clear implicits.
Arguments Outcome T : clear implicits.

(** ** Concrete runs *)

Module Scenario.
Import Float.

Definition half : float := dyadic 1 (-1).



(** A script with two marks, short enough for one chunk. *)
Definition mark_p1 : str := mark_tag (lit "p1").
Definition mark_p2 : str := mark_tag (lit "p2").

Definition script : str :=
  lit "Hello" ++ mark_p1 ++ lit "World!!" ++ mark_p2.



(** A service whose reply carries audio and no timepoints. *)
Definition world_untimed : World float :=
  {| read_text := fun _ => Some script;
     post := fun _ =>
       Response 200 (Some {| audioContent := Some (lit "QUJD");
                             body_timepoints := None |});
     decode_ms := fun _ => Some 4000%Z |}.

(** The timeline of the specification's scenario, with total duration
    7.0 s, and image lists for it. *)
Definition two_and_a_half : float := dyadic 5 (-1).

Definition timeline : list (Timepoint float) :=
  [ mkTimepoint (JString "p1") (of_Z 1);
    mkTimepoint (JString "p2") two_and_a_half ].

(** The same records stored in the opposite order. *)
Definition shuffled : list (Timepoint float) :=
  [ mkTimepoint (JString "p2") two_and_a_half;
    mkTimepoint (JString "p1") (of_Z 1) ].

(** A timepoints file with the literal [NaN], which [json.load] reads, for
    the third of four marks. *)
Definition with_nan : list (Timepoint float) :=
  [ mkTimepoint (JString "p1") (of_Z 2);
    mkTimepoint (JString "p2") (of_Z 1);
    mkTimepoint (JString "p3") S754_nan;
    mkTimepoint (JString "p4") half ].

Definition four_images : list str :=
  [ lit "1-a.jpg"; lit "2-b.jpg"; lit "3-c.jpg"; lit "4-d.jpg" ].

Definition one_image : list str := [ lit "1-a.jpg" ].
Definition two_images : list str := [ lit "1-a.jpg"; lit "2-b.jpg" ].
Definition three_images : list str :=
  [ lit "1-a.jpg"; lit "2-b.jpg"; lit "3-c.jpg" ].

(** A chapter whose script starts with its only mark. *)
Definition mark_at_start : list (Timepoint float) :=
  [ mkTimepoint (JString "p1") (of_Z 0) ].

(** A batch of two chapters: the service refuses the chunk of the first
    and answers the chunk of the second. *)
Definition world_mixed : World float :=
  {| read_text := fun path =>
       if startswith path (lit "chapter1") then Some (lit "Hello")
       else Some (lit "Bye");
     post := fun chunk =>
       if startswith chunk (lit "<speak>Hello") then Response 500 None
       else Response 200 (Some {| audioContent := Some (lit "QUJD");
                                  body_timepoints := None |});
     decode_ms := fun _ => Some 4000%Z |}.

(** A batch of two chapters with a maximum of 10 characters: the script
    of the first makes three chunks, and the service answers the first of
    them and refuses the second, which holds the mark; the chunk of the
    second chapter is answered. *)
Definition world_interrupted : World float :=
  {| read_text := fun path =>
       if startswith path (lit "chapter1")
       then Some (lit "Hello" ++ mark_p1 ++ lit "World")
       else Some (lit "Bye");
     post := fun chunk =>
       if startswith chunk (lit "<speak><mark") then Response 429 None
       else Response 200 (Some {| audioContent := Some (lit "QUJD");
                                  body_timepoints := None |});
     decode_ms := fun _ => Some 4000%Z |}.

(** A service that sends [null] for the timepoints. *)
Definition world_null : World float :=
  {| read_text := fun _ => Some (lit "Hello");
     post := fun _ =>
       Response 200 (Some {| audioContent := Some (lit "QUJD");
                             body_timepoints := Some JNull |});
     decode_ms := fun _ => Some 4000%Z |}.

End Scenario.

(** ** Auxiliary notions of the statements *)

(** The greedy packing of [_split_ssml] in the specification's words:
    tokens are added to the current chunk, and a token that would take it
    over the budget closes it and starts the next.  The result lists the
    bodies of the closed chunks, then the last accumulation. *)
Fixpoint pack (max_ssml_length : Z) (current : str) (parts : list str)
    : list str :=
  match parts with
  | [] => [current]
  | part :: rest =>
      if (len current + len part >? max_ssml_length)%Z
      then current :: pack max_ssml_length part rest
      else pack max_ssml_length (current ++ part) rest
  end.

(** An empty last accumulation makes no chunk. *)
Definition drop_empty_last (bodies : list str) : list str :=
  match last bodies [] with
  | [] => removelast bodies
  | _ :: _ => bodies
  end.

(** The parts of a document at the even indices: its marker-free text
    segments. *)
Fixpoint text_segments_of (parts : list str) : list str :=
  match parts with
  | [] => []
  | text :: rest =>
      text :: match rest with
              | [] => []
              | _ :: rest' => text_segments_of rest'
              end
  end.

Definition text_segments (doc : str) : list str :=
  text_segments_of (re_split doc).

(** The length contract as the specification states it: a chunk, rendered
    with its wrapper, is within the maximum unless a text segment alone
    exceeds it. *)
Definition rendered_within (max_ssml_length : Z) (doc : str) : Prop :=
  forall chunk : str,
    In chunk (_split_ssml max_ssml_length (wrap doc)) ->
    (len chunk <= max_ssml_length)%Z
    \/ exists text,
         In text (text_segments doc) /\ (max_ssml_length < len text)%Z.

(** No time stamp of a stored timeline is NaN. *)
Definition no_nan (points : list (Timepoint Float.float)) : bool :=
  forallb (fun p => negb (Float.is_nan (timeSeconds p))) points.



(** A time stamp of a stored timeline is a double between 0 and the
    duration of the chapter's audio. *)
Definition within (duration_total : Float.float)
    (p : Timepoint Float.float) : bool :=
  Float.nonneg (timeSeconds p) && SFleb (timeSeconds p) duration_total.

(** * The rest of the code *)

From Stdlib Require DecimalString DecimalPos.
From Stdlib Require Import Sorted.

(** ** Decimal numerals *)

(** [str(n)], which is also how an f-string and [str.format] render an
    integer. *)
Definition str_of_int (n : Z) : str :=
  lit (DecimalString.NilZero.string_of_int (Z.to_int n)).

(** The characters of a decimal numeral: the digits and the minus sign. *)
Definition numeral_char (c : ascii) : bool :=
  isdigit c || Ascii.eqb c "-".

(** ** text_cleanup.py *)

(** [_marker_tpl.format(counter)] *)
Definition _marker_tpl (counter : Z) : str :=
  lit "<mark name=" ++ dquote :: lit "p" ++ str_of_int counter
  ++ dquote :: lit "/>".

(** [re.sub(r"\*", _sub, content)], together with the value of [counter]
    once every asterisk is replaced: from left to right, an asterisk becomes
    the marker of the counter, which then moves on by one. *)
Fixpoint sub_asterisks (content : str) (counter : Z) : str * Z :=
  match content with
  | [] => ([], counter)
  | c :: rest =>
      if Ascii.eqb c "*"
      then let '(updated, counter') := sub_asterisks rest (counter + 1)%Z in
           (_marker_tpl counter ++ updated, counter')
      else let '(updated, counter') := sub_asterisks rest counter in
           (c :: updated, counter')
  end.

(** [replace_asterisks_with_marks], on the content of the file: the text
    written back to the file and the number of marks printed. *)
Definition replace_asterisks_with_marks (content : str) : str * Z :=
  let '(updated, counter) := sub_asterisks content 1%Z in
  (updated, (counter - 1)%Z).

(** The number of asterisks of a text. *)
Definition count_asterisks (s : str) : nat :=
  length (filter (fun c => Ascii.eqb c "*") s).

(** The markers numbered from [counter] on, each followed by a text
    segment. *)
Fixpoint marked_from (counter : Z) (segments : list str) : list str :=
  match segments with
  | [] => []
  | text :: rest =>
      _marker_tpl counter :: text :: marked_from (counter + 1)%Z rest
  end.

(** A text that holds neither an asterisk nor an opening angle bracket. *)
Definition plain (s : str) : bool :=
  forallb (fun c => negb (Ascii.eqb c "*") && negb (Ascii.eqb c "<")) s.

(** ** manhwa_script_generator.py *)

(** What the generator raises: [ValueError] with its message, or the
    exception of a library call (the client, the image encoder). *)
Inductive Raised : Type :=
| ValueError (msg : str)
| External (what : string).

(** [resp.split("*")] *)
Fixpoint split_asterisk (s : str) : list str :=
  match s with
  | [] => [[]]
  | c :: rest =>
      if Ascii.eqb c "*" then [] :: split_asterisk rest
      else match split_asterisk rest with
           | segment :: segments => (c :: segment) :: segments
           | [] => [[c]]
           end
  end.

(** [bool(ln.strip())] *)
Definition nonblank (ln : str) : bool :=
  match strip ln with [] => false | _ :: _ => true end.

(** [[ln.strip() for ln in resp.split("*") if ln.strip()]] *)
Definition response_lines (resp : str) : list str :=
  map strip (filter nonblank (split_asterisk resp)).

Definition validate_response (resp : str) (expected : Z) : Raised + str :=
  let lines := response_lines resp in
  if negb (Z.of_nat (length lines) =? expected)%Z
  then inl (ValueError
              (lit "Expected " ++ str_of_int expected
               ++ lit " lines but received "
               ++ str_of_int (Z.of_nat (length lines))
               ++ lit " from Anthropic."))
  else inr resp.

(** [sep.join(items)] *)
Fixpoint join (sep : str) (items : list str) : str :=
  match items with
  | [] => []
  | item :: rest =>
      match rest with
      | [] => item
      | _ :: _ => item ++ sep ++ join sep rest
      end
  end.

Definition newline : ascii := ascii_of_nat 10.

Section Generator.

(** The content block that [encode_image] makes of an image file. *)
Variable Payload : Type.

(** A message of the conversation, by role and content. *)
Inductive Message : Type :=
| UserText (text : str)
| AssistantText (text : str)
| UserImages (content : list Payload).

(** The two calls that leave the process: [encode_image] on the path of an
    image (the chapter's folder and the file name), and
    [messages.create] with the text of its reply. *)
Record Client : Type := mkClient {
  encode_image : str -> str -> Raised + Payload;
  create : list Message -> Raised + str
}.

(** The ellipsis of the last seed message, as its three UTF-8 bytes. *)
Definition ellipsis : str := map ascii_of_nat [226; 128; 166].

Definition initial_messages (manhwa_name : str) : list Message :=
  [ UserText manhwa_name;
    AssistantText (lit "Chain of Thought Summary:" ++ [newline]);
    UserText (lit "intro");
    AssistantText
      (lit "In a world where power knows no bounds, "
       ++ lit "imagine being the strongest martial artist alive "
       ++ ellipsis) ].

(** [range(0, len(img_files), 5)] and [img_files[i : i + 5]] *)
Definition batches (img_files : list str) : list (list str) :=
  map (fun k => firstn 5 (skipn (5 * k) img_files))
      (seq 0 ((length img_files + 4) / 5)).

(** [[self.encode_image(os.path.join(chapter_path, img)) for img in batch]] *)
Fixpoint encode_batch (client : Client) (chapter_path : str)
    (batch : list str) : Raised + list Payload :=
  match batch with
  | [] => inr []
  | img :: rest =>
      match encode_image client chapter_path img with
      | inl e => inl e
      | inr payload =>
          match encode_batch client chapter_path rest with
          | inl e => inl e
          | inr payloads => inr (payload :: payloads)
          end
      end
  end.

(** The loop over the batches of a chapter.  The state is [responses] and
    [messages]; [requests] lists the [messages] argument of every call of
    [messages.create] made so far.  The result is the requests made and
    either the exception that ended the loop or the responses. *)
Fixpoint batch_loop (client : Client) (chapter_path : str)
    (base_messages : list Message) (todo : list (list str))
    (responses : list str) (messages : list Message)
    (requests : list (list Message))
    : list (list Message) * (Raised + list str) :=
  match todo with
  | [] => (requests, inr responses)
  | batch :: rest =>
      match encode_batch client chapter_path batch with
      | inl e => (requests, inl e)
      | inr batch_payload =>
          let messages := messages ++ [UserImages batch_payload] in
          let requests := requests ++ [messages] in
          match create client messages with
          | inl e => (requests, inl e)
          | inr content_text =>
              match validate_response content_text 5 with
              | inl e => (requests, inl e)
              | inr _ =>
                  let messages := messages ++ [AssistantText content_text] in
                  let responses := responses ++ [content_text] in
                  let messages :=
                    if length base_messages + 20 <? length messages
                    then base_messages
                         ++ skipn (length messages - 20) messages
                    else messages in
                  batch_loop client chapter_path base_messages rest
                             responses messages requests
              end
          end
      end
  end.

(** The body of the loop of [process_chapters] for one chapter, from its
    sorted image files on: the requests made, and the text written to the
    chapter's script unless an exception ends the run. *)
Definition chapter_script (client : Client) (manhwa_name chapter_path : str)
    (img_files : list str) : list (list Message) * (Raised + str) :=
  let base_messages := initial_messages manhwa_name in
  match batch_loop client chapter_path base_messages (batches img_files)
                   [] base_messages [] with
  | (requests, inl e) => (requests, inl e)
  | (requests, inr responses) =>
      (requests, inr (join [newline; newline] responses))
  end.

End Generator.

(** A service that answers every request with the same five lines, and an
    encoder that keeps the path of the image. *)
Definition five_lines : str := lit "a*b*c*d*e*".

Definition steady_client : Client str :=
  {| encode_image := fun chapter_path img => inr (chapter_path ++ img);
     create := fun _ => inr five_lines |}.

Definition six_images : list str :=
  [ lit "1-a.jpg"; lit "2-b.jpg"; lit "3-c.jpg"; lit "4-d.jpg";
    lit "5-e.jpg"; lit "6-f.jpg" ].

(** ** Integers read from names *)

(** The digits of [int(s)] after the first: decimal digits, with single
    underscores between them. *)
Fixpoint int_digits (s : str) (acc : Z) : option Z :=
  match s with
  | [] => Some acc
  | c :: s' =>
      if isdigit c
      then int_digits s' (10 * acc + (Z.of_nat (nat_of_ascii c) - 48))%Z
      else if Ascii.eqb c "_"
      then match s' with
           | d :: s'' =>
               if isdigit d
               then int_digits s''
                      (10 * acc + (Z.of_nat (nat_of_ascii d) - 48))%Z
               else None
           | [] => None
           end
      else None
  end.

Definition int_unsigned (s : str) : option Z :=
  match s with
  | d :: s' =>
      if isdigit d
      then int_digits s' (Z.of_nat (nat_of_ascii d) - 48)%Z
      else None
  | [] => None
  end.

(** The white space that [int] drops around a number, on the code points
    below 256: the ASCII white space of C, and the next-line and no-break
    space characters.  The separators 28 to 31, which [str.strip] drops, are
    not among them. *)
Definition int_space (c : ascii) : bool :=
  let n := nat_of_ascii c in
  ((9 <=? n) && (n <=? 13)) || (n =? 32) || (n =? 133) || (n =? 160).

Fixpoint int_lstrip (s : str) : str :=
  match s with
  | c :: s' => if int_space c then int_lstrip s' else s
  | [] => []
  end.

Definition int_strip (s : str) : str :=
  rev (int_lstrip (rev (int_lstrip s))).

(** [int(s)] on a string: the white space around it is dropped, a sign may
    come first, and decimal digits follow.  [None] stands for the
    [ValueError] that [int] raises. *)
Definition py_int (s : str) : option Z :=
  match int_strip s with
  | c :: s' =>
      if Ascii.eqb c "-" then option_map Z.opp (int_unsigned s')
      else if Ascii.eqb c "+" then int_unsigned s'
      else int_unsigned (c :: s')
  | [] => None
  end.

(** [x.split("-")[0]] *)
Fixpoint before_hyphen (s : str) : str :=
  match s with
  | [] => []
  | c :: s' => if Ascii.eqb c "-" then [] else c :: before_hyphen s'
  end.

(** [sorted(items, key=key)]: the keys are computed first, in order, and an
    exception of [key] ends the call; the sort is stable and compares the
    keys with [<]. *)
Section SortedByKey.
Variable A : Type.

Fixpoint insert_by_key (x : Z * A) (sorted : list (Z * A))
    : list (Z * A) :=
  match sorted with
  | [] => [x]
  | y :: rest =>
      if (fst y <? fst x)%Z then y :: insert_by_key x rest else x :: sorted
  end.

Definition sort_by_key (items : list (Z * A)) : list (Z * A) :=
  fold_right insert_by_key [] items.

Fixpoint keyed (key : A -> option Z) (items : list A)
    : option (list (Z * A)) :=
  match items with
  | [] => Some []
  | item :: rest =>
      match key item with
      | None => None
      | Some k =>
          match keyed key rest with
          | None => None
          | Some pairs => Some ((k, item) :: pairs)
          end
      end
  end.

Definition sorted_by (key : A -> option Z) (items : list A)
    : option (list A) :=
  match keyed key items with
  | None => None
  | Some pairs => Some (map snd (sort_by_key pairs))
  end.

End SortedByKey.

(** ** tts_pipeline.py and video_maker.py: the names of the audio files *)

(** [f"chapter{chapter_number}.mp3"]: the name of the audio file that
    [process_chapter] writes for a chapter, and that [create_chapter_video]
    reads for it. *)
Definition audio_name (chapter_number : Z) : str :=
  lit "chapter" ++ str_of_int chapter_number ++ lit ".mp3".

(** [PurePath.stem] of a file name: the name without its last suffix, a
    suffix being what follows the last dot when that dot is neither the
    first nor the last character. *)
Fixpoint rfind_dot (s : str) (i : nat) (found : option nat) : option nat :=
  match s with
  | [] => found
  | c :: s' =>
      rfind_dot s' (S i) (if Ascii.eqb c "." then Some i else found)
  end.

Definition stem (name : str) : str :=
  match rfind_dot name 0 None with
  | Some i =>
      if (0 <? i) && (i <? length name - 1) then firstn i name else name
  | None => name
  end.

(** [process_all_chapters]:
    [chapters = [int(p.stem[7:]) for p in sorted(audio_dir.glob(...))]], on
    the names of the files that match [chapter*.mp3]. *)
Fixpoint chapters (names : list str) : option (list Z) :=
  match names with
  | [] => Some []
  | name :: rest =>
      match py_int (skipn 7 (stem name)) with
      | None => None
      | Some ch =>
          match chapters rest with
          | None => None
          | Some chs => Some (ch :: chs)
          end
      end
  end.

(** ** video_maker.py and manhwa_script_generator.py: the image files *)

(** [str.isdigit] on the code points below 256: the decimal digits and the
    superscripts one, two and three. *)
Definition str_isdigit (c : ascii) : bool :=
  isdigit c
  || (let n := nat_of_ascii c in (n =? 178) || (n =? 179) || (n =? 185)).

(** [create_chapter_video]:
    [sorted([img for img in img_folder.iterdir() if img.name[0].isdigit()],
            key=lambda p: int(p.stem.split("-")[0]))],
    on the names of the folder's entries. *)
Definition digit_first (name : str) : bool :=
  match name with c :: _ => str_isdigit c | [] => false end.

Definition video_image_key (name : str) : option Z :=
  py_int (before_hyphen (stem name)).

Definition video_images (names : list str) : option (list str) :=
  sorted_by video_image_key (filter digit_first names).

(** [str.lower] on the code points below 256. *)
Definition lower_char (c : ascii) : ascii :=
  let n := nat_of_ascii c in
  if ((65 <=? n) && (n <=? 90))
     || ((192 <=? n) && (n <=? 222) && negb (n =? 215))
  then ascii_of_nat (n + 32) else c.

Definition str_lower (s : str) : str := map lower_char s.

(** [process_chapters] of the generator:
    [sorted([f for f in os.listdir(chapter_path)
             if f.lower().endswith((".jpg", ".jpeg", ".png"))],
            key=lambda x: int(x.split("-")[0]))]. *)
Definition image_file (name : str) : bool :=
  endswith (str_lower name) (lit ".jpg")
  || endswith (str_lower name) (lit ".jpeg")
  || endswith (str_lower name) (lit ".png").

Definition script_image_key (name : str) : option Z :=
  py_int (before_hyphen name).

Definition script_images (names : list str) : option (list str) :=
  sorted_by script_image_key (filter image_file names).

(** ** image_processing.py *)

(** The key of the sort of [process_chapters]: [int(digits) or 0], where
    [digits] joins the characters of the name that [str.isdigit] accepts. *)
Definition chapter_key (name : str) : option Z :=
  match py_int (filter str_isdigit name) with
  | None => None
  | Some n => Some (if (n =? 0)%Z then 0%Z else n)
  end.

(** [process_chapters] of the image clean-up: the chapter folders in the
    order in which they are converted and checked, from the entries of the
    base folder, each with whether it is a directory. *)
Definition chapter_folders (entries : list (str * bool)) : option (list str) :=
  sorted_by chapter_key
    (map fst
       (filter (fun entry =>
                  snd entry && startswith (str_lower (fst entry))
                                          (lit "chapter"))
               entries)).

(** [needle in haystack] *)
Fixpoint contains (needle haystack : str) {struct haystack} : bool :=
  startswith haystack needle
  || match haystack with
     | [] => false
     | _ :: rest => contains needle rest
     end.

(** [os.path.join(folder_path, filename)] *)
Definition path_join (folder_path filename : str) : str :=
  if startswith filename (lit "/") then filename
  else match folder_path with
       | [] => filename
       | _ :: _ =>
           if endswith folder_path (lit "/") then folder_path ++ filename
           else folder_path ++ "/"%char :: filename
       end.

Section LowVariation.

(** What [cv2.imread] and [np.std] give for a path: nothing when the image
    cannot be read, else the standard deviation of its grey levels. *)
Variable grey_std : str -> option Float.float.

Definition _has_low_variation (image_path : str) (threshold : Float.float)
    : bool * Float.float :=
  match grey_std image_path with
  | None => (true, Float.of_Z 0)
  | Some std_dev => (SFltb std_dev threshold, std_dev)
  end.

Definition image_exts : list str :=
  [ lit ".png"; lit ".jpg"; lit ".jpeg"; lit ".bmp"; lit ".gif";
    lit ".tiff" ].

(** The loop of [check_low_variation_images] over [image_files]; the state
    is [low_variation].  With [move_blanks], the files listed there are the
    files moved to [bad_images]. *)
Fixpoint low_variation_loop (folder_path : str)
    (std_threshold : Float.float) (image_files : list str)
    (low_variation : list (str * Float.float)) : list (str * Float.float) :=
  match image_files with
  | [] => low_variation
  | filename :: rest =>
      let full_path := path_join folder_path filename in
      if contains (lit "bad_images") full_path
      then low_variation_loop folder_path std_threshold rest low_variation
      else
        let '(is_low_var, std_dev) :=
          _has_low_variation full_path std_threshold in
        if is_low_var
        then low_variation_loop folder_path std_threshold rest
               (low_variation ++ [(filename, std_dev)])
        else low_variation_loop folder_path std_threshold rest low_variation
  end.

(** [check_low_variation_images], on the entries of the folder. *)
Definition check_low_variation_images (folder_path : str)
    (std_threshold : Float.float) (entries : list str)
    : list (str * Float.float) :=
  let image_files :=
    filter (fun f => existsb (endswith (str_lower f)) image_exts) entries in
  low_variation_loop folder_path std_threshold image_files [].

End LowVariation.
(** * Part II: lemmas and theorems *)

Unset Implicit Arguments.

(** ** Numbers *)

Section OrderFacts.
Context {T : Type} `{Number T}.

Lemma nondecreasing_cons a l :
  nondecreasing (a :: l) = true ->
  nondecreasing l = true.
Proof.
  destruct l as [|b l]; simpl; [reflexivity|].
  intros Hab. apply andb_prop in Hab. tauto.
Qed.

Lemma nondecreasing_app l1 l2 m :
  nondecreasing l1 = true -> nondecreasing l2 = true ->
  upper l1 m -> lower m l2 ->
  (forall a c : T, In a l1 -> In c l2 ->
     leb a m = true -> leb m c = true -> leb a c = true) ->
  nondecreasing (l1 ++ l2) = true.
Proof.
  intros H1 H2 Hup Hlo Htrans.
  induction l1 as [|a l1 IH]; simpl; [exact H2|].
  assert (Hrest : nondecreasing (l1 ++ l2) = true).
  { apply IH; [eapply nondecreasing_cons; eassumption| |].
    - now inversion Hup.
    - intros a' c Ha' Hc. apply Htrans; [now right | exact Hc]. }
  destruct l1 as [|b l1]; simpl.
  - destruct l2 as [|c l2]; [reflexivity|].
    apply andb_true_intro; split; [|exact H2].
    inversion Hup; inversion Hlo; subst.
    apply Htrans; [now left | now left | assumption | assumption].
  - simpl in H1. apply andb_prop in H1. destruct H1 as [Hab _].
    simpl in Hrest. now rewrite Hab.
Qed.

Lemma nondecreasing_nth (l : list T) :
  forall (k : nat) (a b : T),
    nondecreasing l = true ->
    nth_error l k = Some a -> nth_error l (S k) = Some b ->
    leb a b = true.
Proof.
  induction l as [|x l IH]; intros k a b Hnd Ha Hb;
    [destruct k; discriminate|].
  destruct k as [|k].
  - destruct l as [|y l]; [discriminate|].
    simpl in Ha, Hb. injection Ha as <-. injection Hb as <-.
    simpl in Hnd. apply andb_prop in Hnd. tauto.
  - simpl in Ha. change (nth_error l (S k) = Some b) in Hb.
    exact (IH k a b (nondecreasing_cons _ _ Hnd) Ha Hb).
Qed.

Lemma equal_sym (a b : T) : equal a b = equal b a.
Proof. unfold equal. apply andb_comm. Qed.

End OrderFacts.

(** ** Doubles *)

(** The rounding of [SpecFloat], followed through its shifts: a sum of
    doubles that are not negative is the sum of their values, counted in
    units of [2^-1074], rounded to 53 bits, and the order of such doubles is
    the order of their values. *)

Section Rounding64.
Local Open Scope Z_scope.

Lemma digits2_log2 (p : BinNums.positive) :
  Z.pos (digits2_pos p) = Z.log2 (Z.pos p) + 1.
Proof.
  assert (H : digits2_pos p = Pos.size p)
    by (induction p; simpl; congruence).
  rewrite H. destruct p; simpl; lia.
Qed.

Lemma iter_pos_nat {A : Type} (f : A -> A) (p : BinNums.positive) (x : A) :
  iter_pos f p x = Nat.iter (Pos.to_nat p) f x.
Proof.
  revert x. induction p as [p IH|p IH|]; intros x; simpl iter_pos.
  - rewrite !IH, Pos2Nat.inj_xI.
    replace (S (2 * Pos.to_nat p))%nat
      with (Pos.to_nat p + (Pos.to_nat p + 1))%nat by lia.
    rewrite !Nat.iter_add. reflexivity.
  - rewrite !IH, Pos2Nat.inj_xO.
    replace (2 * Pos.to_nat p)%nat
      with (Pos.to_nat p + Pos.to_nat p)%nat by lia.
    rewrite Nat.iter_add. reflexivity.
  - reflexivity.
Qed.

Lemma shr_1_first (M : Z) :
  0 <= M ->
  Float.shr_inv M 1 (shr_1 {| shr_m := M; shr_r := false; shr_s := false |}).
Proof.
  intros HM. exists 0.
  change (2 ^ 1) with 2. change (2 ^ (1 - 1)) with 1.
  destruct M as [|[p|p|]|p]; cbn [shr_1 shr_m shr_r shr_s orb]; try lia;
    (split; [lia|]; split; [lia|]; split; [split; [discriminate | lia] | lia]).
Qed.

Lemma shr_1_next (M n : Z) (mrs : shr_record) :
  1 <= n -> Float.shr_inv M n mrs -> Float.shr_inv M (n + 1) (shr_1 mrs).
Proof.
  intros Hn (t & HM & Ht & Hs & Hm).
  destruct mrs as [m r s]. simpl in *.
  assert (Hpow : 2 ^ n = 2 * 2 ^ (n - 1)).
  { replace n with (1 + (n - 1)) at 1 by lia.
    rewrite Z.pow_add_r by lia. reflexivity. }
  assert (Hpow' : 2 ^ (n + 1) = 2 * 2 ^ n).
  { rewrite Z.pow_add_r by lia. change (2 ^ 1) with 2. lia. }
  exists ((if r then 2 ^ (n - 1) else 0) + t).
  assert (Hs' : (r || s = true) <-> 0 < (if r then 2 ^ (n - 1) else 0) + t).
  { destruct r; simpl; [split; [lia | reflexivity]|].
    rewrite Hs. lia. }
  destruct m as [|[p|p|]|p]; simpl shr_m; simpl shr_r; simpl shr_s;
    try lia; replace (n + 1 - 1) with n by lia; rewrite ?Hpow';
    (split; [destruct r; lia|]); (split; [destruct r; lia|]);
    (split; [exact Hs' | lia]).
Qed.

Lemma shr_iter (M : Z) (n : nat) :
  0 <= M ->
  Float.shr_inv M (Z.of_nat (S n))
    (Nat.iter (S n) shr_1 {| shr_m := M; shr_r := false; shr_s := false |}).
Proof.
  intros HM. induction n as [|n IH].
  - apply shr_1_first, HM.
  - rewrite Nat.iter_succ.
    replace (Z.of_nat (S (S n))) with (Z.of_nat (S n) + 1) by lia.
    apply shr_1_next; [lia | exact IH].
Qed.

Lemma shr_spec (M : Z) (p : BinNums.positive) :
  0 <= M ->
  Float.shr_inv M (Z.pos p)
    (iter_pos shr_1 p {| shr_m := M; shr_r := false; shr_s := false |}).
Proof.
  intros HM. rewrite iter_pos_nat.
  destruct (Pos.to_nat p) as [|n] eqn:Hp; [lia|].
  replace (Z.pos p) with (Z.of_nat (S n)) by lia.
  apply shr_iter, HM.
Qed.

(** The mantissa after the shift, rounded by its location, is the nearest
    integer to [M / 2^n], ties going to the even one. *)
Lemma round_shr (M n : Z) (mrs : shr_record) :
  1 <= n -> Float.shr_inv M n mrs ->
  round_nearest_even (shr_m mrs) (loc_of_shr_record mrs) = Float.rne M n.
Proof.
  intros Hn (t & HM & Ht & Hs & Hm).
  destruct mrs as [m r s]. simpl in *.
  assert (Hpow : 2 ^ n = 2 * 2 ^ (n - 1)).
  { replace n with (1 + (n - 1)) at 1 by lia.
    rewrite Z.pow_add_r by lia. reflexivity. }
  assert (Hhalf : 0 < 2 ^ (n - 1)) by (apply Z.pow_pos_nonneg; lia).
  set (rem := (if r then 2 ^ (n - 1) else 0) + t) in *.
  assert (Hrem : 0 <= rem < 2 ^ n) by (unfold rem; destruct r; lia).
  assert (Hq : M / 2 ^ n = m).
  { symmetry. apply (Z.div_unique M (2 ^ n) m rem); lia. }
  assert (Hr : M mod 2 ^ n = rem).
  { symmetry. apply (Z.mod_unique M (2 ^ n) m rem); lia. }
  unfold Float.rne. rewrite Hq, Hr.
  destruct r, s; cbn [round_nearest_even loc_of_shr_record]; unfold rem.
  - assert (0 < t) by (apply Hs; reflexivity).
    destruct (Z.ltb_spec (2 * (2 ^ (n - 1) + t)) (2 ^ n)); [lia|].
    destruct (Z.eqb_spec (2 * (2 ^ (n - 1) + t)) (2 ^ n)); [lia|].
    reflexivity.
  - assert (t = 0).
    { destruct (Z.eq_dec t 0) as [|Hne]; [assumption|].
      assert (false = true) by (apply Hs; lia). discriminate. }
    subst t.
    destruct (Z.ltb_spec (2 * (2 ^ (n - 1) + 0)) (2 ^ n)); [lia|].
    destruct (Z.eqb_spec (2 * (2 ^ (n - 1) + 0)) (2 ^ n)); [|lia].
    reflexivity.
  - destruct (Z.ltb_spec (2 * (0 + t)) (2 ^ n)); [reflexivity | lia].
  - destruct (Z.ltb_spec (2 * (0 + t)) (2 ^ n)); [reflexivity | lia].
Qed.

Lemma shr_quotient (M n : Z) (mrs : shr_record) :
  1 <= n -> Float.shr_inv M n mrs -> shr_m mrs = M / 2 ^ n.
Proof.
  intros Hn (t & HM & Ht & Hs & Hm).
  assert (Hpow : 2 ^ n = 2 * 2 ^ (n - 1)).
  { replace n with (1 + (n - 1)) at 1 by lia.
    rewrite Z.pow_add_r by lia. reflexivity. }
  apply (Z.div_unique M (2 ^ n) (shr_m mrs)
           ((if shr_r mrs then 2 ^ (n - 1) else 0) + t));
    destruct (shr_r mrs); lia.
Qed.


(** *** Rounding to the nearest integer *)

Lemma pow2_pos (n : Z) : 0 <= n -> 0 < 2 ^ n.
Proof. intros Hn. apply Z.pow_pos_nonneg; lia. Qed.

Lemma pow2_succ (n : Z) : 0 <= n -> 2 ^ (n + 1) = 2 * 2 ^ n.
Proof.
  intros Hn. rewrite Z.pow_add_r by lia. change (2 ^ 1) with 2. lia.
Qed.

Lemma pow2_le (a b : Z) : 0 <= a <= b -> 2 ^ a <= 2 ^ b.
Proof. intros H. apply Z.pow_le_mono_r; lia. Qed.

Lemma rne_cases (M n : Z) :
  1 <= n ->
  exists q r : Z,
    M = q * 2 ^ n + r /\ 0 <= r < 2 ^ n
    /\ ((2 * r < 2 ^ n /\ Float.rne M n = q)
        \/ (2 * r = 2 ^ n /\ Z.even q = true /\ Float.rne M n = q)
        \/ (2 * r = 2 ^ n /\ Z.even q = false /\ Float.rne M n = q + 1)
        \/ (2 ^ n < 2 * r /\ Float.rne M n = q + 1)).
Proof.
  intros Hn. pose proof (pow2_pos n ltac:(lia)) as HP.
  pose proof (Z.div_mod M (2 ^ n) ltac:(lia)) as Hdm.
  pose proof (Z.mod_pos_bound M (2 ^ n) HP) as Hr.
  exists (M / 2 ^ n), (M mod 2 ^ n). split; [lia|]. split; [exact Hr|].
  unfold Float.rne.
  destruct (Z.ltb_spec (2 * (M mod 2 ^ n)) (2 ^ n)); [left; split; [lia | reflexivity]|].
  right.
  destruct (Z.eqb_spec (2 * (M mod 2 ^ n)) (2 ^ n)).
  - destruct (Z.even (M / 2 ^ n)); [left | right; left]; auto.
  - right; right. split; [lia | reflexivity].
Qed.

Lemma rne_upper (M n c : Z) :
  1 <= n -> M <= c * 2 ^ n -> Float.rne M n <= c.
Proof.
  intros Hn HM. pose proof (pow2_pos n ltac:(lia)) as HP.
  destruct (rne_cases M n Hn) as (q & r & Hqr & Hr & Hc).
  assert (Hq : q < c \/ (q = c /\ r = 0)) by nia.
  destruct Hc as [(? & ->)|[(? & ? & ->)|[(? & ? & ->)|(? & ->)]]]; nia.
Qed.

Lemma rne_lower (M n c : Z) :
  1 <= n -> c * 2 ^ n <= M -> c <= Float.rne M n.
Proof.
  intros Hn HM. pose proof (pow2_pos n ltac:(lia)) as HP.
  destruct (rne_cases M n Hn) as (q & r & Hqr & Hr & Hc).
  assert (Hq : c <= q) by nia.
  destruct Hc as [(? & ->)|[(? & ? & ->)|[(? & ? & ->)|(? & ->)]]]; lia.
Qed.

Lemma rne_exact (n q : Z) : 1 <= n -> Float.rne (q * 2 ^ n) n = q.
Proof.
  intros Hn. apply Z.le_antisymm; [apply rne_upper | apply rne_lower]; lia.
Qed.


(** *** Rounding to 53 bits *)

Lemma round_scaled_bounds (k : Z) :
  0 < k ->
  2 ^ Z.log2 k <= Float.round_scaled k <= 2 ^ (Z.log2 k + 1).
Proof.
  intros Hk. pose proof (Z.log2_spec k Hk) as Hlog.
  pose proof (Z.log2_nonneg k) as Hl.
  unfold Float.round_scaled.
  destruct (Z.leb_spec (Z.log2 k - 52) 0) as [Hn|Hn].
  - unfold Z.succ in Hlog. lia.
  - set (n := Z.log2 k - 52) in *.
    pose proof (pow2_pos n ltac:(lia)) as HP.
    assert (H52 : 2 ^ Z.log2 k = 2 ^ 52 * 2 ^ n).
    { rewrite <- Z.pow_add_r by lia. f_equal. unfold n. lia. }
    assert (H53 : 2 ^ (Z.log2 k + 1) = 2 ^ 53 * 2 ^ n).
    { rewrite <- Z.pow_add_r by lia. f_equal. unfold n. lia. }
    rewrite H52, H53. unfold Z.succ in Hlog. split.
    + apply Z.mul_le_mono_nonneg_r; [lia|].
      apply rne_lower; lia.
    + apply Z.mul_le_mono_nonneg_r; [lia|].
      apply rne_upper; lia.
Qed.


Lemma round_scaled_exact (m s : Z) :
  0 < m < 2 ^ 53 -> 0 <= s ->
  Float.round_scaled (m * 2 ^ s) = m * 2 ^ s.
Proof.
  intros Hm Hs. unfold Float.round_scaled.
  rewrite Z.log2_mul_pow2 by lia.
  assert (Hlog : Z.log2 m < 53) by (apply Z.log2_lt_pow2; lia).
  pose proof (Z.log2_nonneg m) as Hl.
  destruct (Z.leb_spec (s + Z.log2 m - 52) 0) as [Hn|Hn]; [reflexivity|].
  set (n := s + Z.log2 m - 52) in *.
  assert (Hsplit : 2 ^ s = 2 ^ (s - n) * 2 ^ n).
  { rewrite <- Z.pow_add_r by lia. f_equal. lia. }
  rewrite Hsplit, Z.mul_assoc, rne_exact by lia. reflexivity.
Qed.


Lemma rne_scale (M n s : Z) :
  1 <= n -> 0 <= s -> Float.rne (M * 2 ^ s) (n + s) = Float.rne M n.
Proof.
  intros Hn Hs. pose proof (pow2_pos n ltac:(lia)) as HPn.
  pose proof (pow2_pos s Hs) as HPs.
  unfold Float.rne. rewrite Z.pow_add_r by lia.
  rewrite Z.div_mul_cancel_r, Z.mul_mod_distr_r by lia.
  replace (2 * (M mod 2 ^ n * 2 ^ s)) with (2 * (M mod 2 ^ n) * 2 ^ s) by ring.
  assert (Hlt : (2 * (M mod 2 ^ n) * 2 ^ s <? 2 ^ n * 2 ^ s)
                = (2 * (M mod 2 ^ n) <? 2 ^ n)).
  { destruct (Z.ltb_spec (2 * (M mod 2 ^ n)) (2 ^ n));
      [apply Z.ltb_lt | apply Z.ltb_ge]; nia. }
  assert (Heq : (2 * (M mod 2 ^ n) * 2 ^ s =? 2 ^ n * 2 ^ s)
                = (2 * (M mod 2 ^ n) =? 2 ^ n)).
  { destruct (Z.eqb_spec (2 * (M mod 2 ^ n)) (2 ^ n));
      [apply Z.eqb_eq | apply Z.eqb_neq]; nia. }
  rewrite Hlt, Heq. reflexivity.
Qed.

Lemma below_top (q s : Z) :
  0 <= q < 2 ^ 53 -> 0 <= s <= 2045 -> q * 2 ^ s < 2 ^ 2098.
Proof.
  intros Hq Hs. pose proof (pow2_pos s ltac:(lia)) as HP.
  assert (H : 2 ^ 53 * 2 ^ s <= 2 ^ 2098).
  { rewrite <- Z.pow_add_r by lia. apply pow2_le. lia. }
  nia.
Qed.

Lemma above_top (q s : Z) :
  2 ^ 52 <= q -> 2046 <= s -> 2 ^ 2098 <= q * 2 ^ s.
Proof.
  intros Hq Hs. pose proof (pow2_pos s ltac:(lia)) as HP.
  assert (H : 2 ^ 2098 <= 2 ^ 52 * 2 ^ s).
  { rewrite <- Z.pow_add_r by lia. apply pow2_le. lia. }
  nia.
Qed.

Lemma shift_pos_pow (m p : BinNums.positive) :
  Z.pos (Pos.iter xO m p) = Z.pos m * 2 ^ Z.pos p.
Proof.
  change (Pos.iter xO m p) with (shift_pos p m).
  rewrite shift_pos_correct. change (Z.pow_pos 2 p) with (2 ^ Z.pos p). lia.
Qed.

Lemma log2_bounds (m : BinNums.positive) (d : Z) :
  2 ^ (d - 1) <= Z.pos m < 2 ^ d -> 1 <= d -> Z.log2 (Z.pos m) = d - 1.
Proof.
  intros H Hd. apply Z.log2_unique; [lia|].
  replace (Z.succ (d - 1)) with d by lia. exact H.
Qed.


Lemma no_shift_scaled (m : BinNums.positive) (e : Z) :
  -1074 <= e ->
  fexp Float.prec Float.emax (Z.pos (digits2_pos m) + e) = e ->
  let x := if e <=? Float.emax - Float.prec
           then S754_finite false m e else S754_infinity false in
  Float.nonneg x = true
  /\ Float.scaled x
     = Z.min (Float.round_scaled (Z.pos m * 2 ^ (e + 1074))) (2 ^ 2098).
Proof.
  intros He Hfexp x.
  pose proof Hfexp as Hd. rewrite digits2_log2 in Hd.
  unfold fexp, emin, Float.prec, Float.emax in Hd.
  pose proof (Z.log2_nonneg (Z.pos m)) as Hl.
  assert (Hm : 0 < Z.pos m < 2 ^ 53).
  { split; [lia|]. apply Z.log2_lt_pow2; lia. }
  rewrite round_scaled_exact by lia.
  unfold x, Float.prec, Float.emax.
  destruct (Z.leb_spec e (1024 - 53)) as [Hle|Hgt].
  - split.
    + unfold Float.nonneg, Float.valid, valid_binary, bounded,
        canonical_mantissa.
      rewrite Hfexp, Z.eqb_refl.
      replace (e <=? Float.emax - Float.prec) with true
        by (symmetry; apply Z.leb_le; unfold Float.emax, Float.prec; lia).
      reflexivity.
    + cbn [Float.scaled].
      pose proof (below_top (Z.pos m) (e + 1074) ltac:(lia) ltac:(lia)).
      lia.
  - split; [reflexivity|].
    cbn [Float.scaled].
    assert (Hlog : Z.log2 (Z.pos m) = 52) by lia.
    assert (H52 : 2 ^ 52 <= Z.pos m).
    { rewrite <- Hlog. apply Z.log2_spec. lia. }
    pose proof (above_top (Z.pos m) (e + 1074) H52 ltac:(lia)).
    lia.
Qed.

Lemma shr_fexp_none (m : BinNums.positive) (e : Z) :
  fexp Float.prec Float.emax (Z.pos (digits2_pos m) + e) = e ->
  shr_fexp Float.prec Float.emax (Z.pos m) e loc_Exact
  = ({| shr_m := Z.pos m; shr_r := false; shr_s := false |}, e).
Proof.
  intros H. unfold shr_fexp. cbn [Zdigits2]. rewrite H, Z.sub_diag.
  reflexivity.
Qed.

Lemma binary_round_aux_none (m : BinNums.positive) (e : Z) :
  fexp Float.prec Float.emax (Z.pos (digits2_pos m) + e) = e ->
  binary_round_aux Float.prec Float.emax false (Z.pos m) e loc_Exact
  = if e <=? Float.emax - Float.prec
    then S754_finite false m e else S754_infinity false.
Proof.
  intros H. unfold binary_round_aux. rewrite (shr_fexp_none m e H).
  cbn [shr_m loc_of_shr_record round_nearest_even].
  rewrite (shr_fexp_none m e H). reflexivity.
Qed.

Lemma binary_round_aux_first (m : BinNums.positive) (e : Z) :
  53 < Z.pos (digits2_pos m) ->
  -1074 <= e ->
  let n := Z.pos (digits2_pos m) - 53 in
  binary_round_aux Float.prec Float.emax false (Z.pos m) e loc_Exact
  = let '(mrs, e') :=
      shr_fexp Float.prec Float.emax (Float.rne (Z.pos m) n) (e + n)
               loc_Exact in
    match shr_m mrs with
    | 0 => S754_zero false
    | Z.pos m' =>
        if e' <=? Float.emax - Float.prec
        then S754_finite false m' e' else S754_infinity false
    | Z.neg _ => S754_nan
    end.
Proof.
  intros Hd He n.
  assert (Hshift : fexp Float.prec Float.emax (Zdigits2 (Z.pos m) + e) - e
                   = n).
  { cbn [Zdigits2]. unfold fexp, emin, Float.prec, Float.emax, n. lia. }
  unfold binary_round_aux. unfold shr_fexp at 1. rewrite Hshift.
  cbn [shr_record_of_loc].
  destruct n as [|p|p] eqn:Hp; try lia.
  cbn [shr].
  pose proof (shr_spec (Z.pos m) p ltac:(lia)) as Hinv.
  rewrite (round_shr (Z.pos m) (Z.pos p) _ ltac:(lia) Hinv).
  reflexivity.
Qed.

Lemma binary_round_aux_shift (m : BinNums.positive) (e : Z) :
  -1074 <= e ->
  53 < Z.pos (digits2_pos m) ->
  let x := binary_round_aux Float.prec Float.emax false (Z.pos m) e
             loc_Exact in
  Float.nonneg x = true
  /\ Float.scaled x
     = Z.min (Float.round_scaled (Z.pos m * 2 ^ (e + 1074))) (2 ^ 2098).
Proof.
  intros He Hd x. unfold x.
  rewrite (binary_round_aux_first m e Hd He). cbv zeta.
  rewrite digits2_log2 in *.
  replace (Z.log2 (Z.pos m) + 1 - 53) with (Z.log2 (Z.pos m) - 52) by lia.
  set (n := Z.log2 (Z.pos m) - 52).
  assert (Hn : 1 <= n) by (unfold n; lia).
  pose proof (pow2_pos n ltac:(lia)) as HPn.
  remember (Float.rne (Z.pos m) n) as q eqn:Hqdef.
  assert (Hq : 2 ^ 52 <= q <= 2 ^ 53).
  { pose proof (Z.log2_spec (Z.pos m) ltac:(lia)) as Hlog.
    unfold Z.succ in Hlog.
    replace (Z.log2 (Z.pos m)) with (52 + n) in Hlog at 1 by (unfold n; lia).
    replace (Z.log2 (Z.pos m) + 1) with (53 + n) in Hlog by (unfold n; lia).
    rewrite !Z.pow_add_r in Hlog by lia.
    subst q. split; [apply rne_lower | apply rne_upper]; lia. }
  assert (Hround : Float.round_scaled (Z.pos m * 2 ^ (e + 1074))
                   = q * 2 ^ (e + n + 1074)).
  { unfold Float.round_scaled.
    rewrite Z.log2_mul_pow2 by lia.
    replace (e + 1074 + Z.log2 (Z.pos m) - 52) with (n + (e + 1074))
      by (unfold n; lia).
    destruct (Z.leb_spec (n + (e + 1074)) 0); [lia|].
    rewrite rne_scale by lia. rewrite <- Hqdef. f_equal. f_equal. lia. }
  rewrite Hround. clear Hround Hqdef.
  destruct (Z.ltb_spec q (2 ^ 53)) as [Hlt|Hge].
  - destruct q as [|q|q]; try lia.
    assert (Hlog : Z.log2 (Z.pos q) = 52).
    { apply Z.log2_unique; [lia|]. change (Z.succ 52) with 53. lia. }
    assert (Hcan : fexp Float.prec Float.emax
                     (Z.pos (digits2_pos q) + (e + n)) = e + n).
    { rewrite digits2_log2, Hlog.
      unfold fexp, emin, Float.prec, Float.emax. lia. }
    rewrite (shr_fexp_none q (e + n) Hcan). cbn [shr_m].
    pose proof (no_shift_scaled q (e + n) ltac:(lia) Hcan) as Hns.
    cbv zeta in Hns. rewrite round_scaled_exact in Hns by lia.
    exact Hns.
  - assert (Hq53 : q = 2 ^ 53) by lia. subst q.
    assert (Hsh : shr_fexp Float.prec Float.emax (2 ^ 53) (e + n) loc_Exact
                  = ({| shr_m := 2 ^ 52; shr_r := false; shr_s := false |},
                     e + n + 1)).
    { unfold shr_fexp.
      change (Zdigits2 (2 ^ 53)) with 54.
      replace (fexp Float.prec Float.emax (54 + (e + n)) - (e + n)) with 1
        by (unfold fexp, emin, Float.prec, Float.emax; lia).
      reflexivity. }
    rewrite Hsh. cbn [shr_m]. change (2 ^ 52) with (Z.pos (2 ^ 52)%positive).
    assert (Hcan : fexp Float.prec Float.emax
                     (Z.pos (digits2_pos (2 ^ 52)) + (e + n + 1))
                   = e + n + 1).
    { change (Z.pos (digits2_pos (2 ^ 52))) with 53.
      unfold fexp, emin, Float.prec, Float.emax. lia. }
    pose proof (no_shift_scaled (2 ^ 52) (e + n + 1) ltac:(lia) Hcan) as Hns.
    cbv zeta in Hns. rewrite round_scaled_exact in Hns.
    + replace (2 ^ 53 * 2 ^ (e + n + 1074))
        with (Z.pos (2 ^ 52) * 2 ^ (e + n + 1 + 1074)).
      * exact Hns.
      * replace (e + n + 1 + 1074) with (e + n + 1074 + 1) by lia.
        rewrite pow2_succ by lia.
        change (Z.pos (2 ^ 52)) with (2 ^ 52).
        change (2 ^ 53) with (2 * 2 ^ 52). ring.
    + split; [lia|]. reflexivity.
    + lia.
Qed.

Lemma binary_round_aux_scaled (m : BinNums.positive) (e : Z) :
  -1074 <= e ->
  e <= fexp Float.prec Float.emax (Z.pos (digits2_pos m) + e) ->
  let x := binary_round_aux Float.prec Float.emax false (Z.pos m) e
             loc_Exact in
  Float.nonneg x = true
  /\ Float.scaled x
     = Z.min (Float.round_scaled (Z.pos m * 2 ^ (e + 1074))) (2 ^ 2098).
Proof.
  intros He Hfexp.
  destruct (Z.lt_ge_cases 53 (Z.pos (digits2_pos m))) as [Hd|Hd].
  - apply binary_round_aux_shift; assumption.
  - assert (Hcan : fexp Float.prec Float.emax (Z.pos (digits2_pos m) + e)
                   = e)
      by (revert Hfexp; unfold fexp, emin, Float.prec, Float.emax; lia).
    cbv zeta. rewrite (binary_round_aux_none m e Hcan).
    apply no_shift_scaled; assumption.
Qed.

Lemma binary_round_scaled (m : BinNums.positive) (e : Z) :
  -1074 <= e ->
  let x := binary_round Float.prec Float.emax false m e in
  Float.nonneg x = true
  /\ Float.scaled x
     = Z.min (Float.round_scaled (Z.pos m * 2 ^ (e + 1074))) (2 ^ 2098).
Proof.
  intros He. unfold binary_round, shl_align.
  set (e0 := fexp Float.prec Float.emax (Z.pos (digits2_pos m) + e)).
  assert (He0 : e0 = Z.max (Z.log2 (Z.pos m) + 1 + e - 53) (-1074)).
  { unfold e0. rewrite digits2_log2. reflexivity. }
  pose proof (Z.log2_nonneg (Z.pos m)) as Hl.
  destruct (e0 - e) as [|p|p] eqn:Hp.
  - apply binary_round_aux_scaled; [exact He | fold e0; lia].
  - apply binary_round_aux_scaled; [exact He | fold e0; lia].
  - assert (Hval : Z.pos m * 2 ^ (e + 1074)
                   = Z.pos (Pos.iter xO m p) * 2 ^ (e0 + 1074)).
    { rewrite shift_pos_pow, <- Z.mul_assoc, <- Z.pow_add_r by lia.
      f_equal. f_equal. lia. }
    rewrite Hval.
    apply binary_round_aux_scaled; [lia|].
    rewrite digits2_log2, shift_pos_pow, Z.log2_mul_pow2 by lia.
    unfold fexp, emin, Float.prec, Float.emax. lia.
Qed.

(** *** Doubles that are not negative *)

Lemma bounded_facts (m : BinNums.positive) (e : Z) :
  bounded Float.prec Float.emax m e = true ->
  -1074 <= e <= 971
  /\ 0 < Z.pos m < 2 ^ 53
  /\ (-1074 < e -> 2 ^ 52 <= Z.pos m).
Proof.
  unfold bounded, canonical_mantissa. intros H.
  apply andb_prop in H. destruct H as [Hcan He].
  apply Z.eqb_eq in Hcan. apply Z.leb_le in He.
  rewrite digits2_log2 in Hcan.
  unfold fexp, emin, Float.prec, Float.emax in Hcan, He.
  pose proof (Z.log2_nonneg (Z.pos m)) as Hl.
  pose proof (Z.log2_spec (Z.pos m) ltac:(lia)) as Hlog.
  unfold Z.succ in Hlog.
  split; [lia|]. split.
  - split; [lia|]. apply Z.log2_lt_pow2; lia.
  - intros Hnormal.
    assert (Hl52 : Z.log2 (Z.pos m) = 52) by lia.
    rewrite Hl52 in Hlog. lia.
Qed.

Lemma nonneg_cases (x : Float.float) :
  Float.nonneg x = true ->
  (exists s, x = S754_zero s)
  \/ x = S754_infinity false
  \/ exists m e, x = S754_finite false m e
                 /\ bounded Float.prec Float.emax m e = true.
Proof.
  unfold Float.nonneg, Float.valid. intros H.
  apply andb_prop in H. destruct H as [Hv Hle].
  destruct x as [s|[|]| |[|] m e]; try discriminate.
  - left. now exists s.
  - right; left. reflexivity.
  - right; right. exists m, e. split; [reflexivity | exact Hv].
Qed.

Lemma scaled_finite (m : BinNums.positive) (e : Z) :
  bounded Float.prec Float.emax m e = true ->
  0 < Float.scaled (S754_finite false m e) < 2 ^ 2098.
Proof.
  intros Hb. destruct (bounded_facts m e Hb) as (He & Hm & _).
  cbn [Float.scaled].
  pose proof (pow2_pos (e + 1074) ltac:(lia)).
  pose proof (below_top (Z.pos m) (e + 1074) ltac:(lia) ltac:(lia)).
  nia.
Qed.




(** The order of such doubles is the order of their values. *)
Lemma SFleb_scaled (x y : Float.float) :
  Float.nonneg x = true -> Float.nonneg y = true ->
  SFleb x y = (Float.scaled x <=? Float.scaled y).
Proof.
  intros Hx Hy.
  destruct (nonneg_cases x Hx) as [[sx ->]|[->|(mx & ex & -> & Hbx)]];
    destruct (nonneg_cases y Hy) as [[sy ->]|[->|(my & ey & -> & Hby)]].
  - reflexivity.
  - reflexivity.
  - pose proof (scaled_finite my ey Hby) as Hs.
    change (SFleb (S754_zero sx) (S754_finite false my ey)) with true.
    symmetry. apply Z.leb_le. cbn [Float.scaled] in *. lia.
  - reflexivity.
  - reflexivity.
  - pose proof (scaled_finite my ey Hby) as Hs.
    change (SFleb (S754_infinity false) (S754_finite false my ey))
      with false.
    symmetry. apply Z.leb_gt. cbn [Float.scaled] in *. lia.
  - pose proof (scaled_finite mx ex Hbx) as Hs.
    change (SFleb (S754_finite false mx ex) (S754_zero sy)) with false.
    symmetry. apply Z.leb_gt. cbn [Float.scaled] in *. lia.
  - pose proof (scaled_finite mx ex Hbx) as Hs.
    change (SFleb (S754_finite false mx ex) (S754_infinity false))
      with true.
    symmetry. apply Z.leb_le. cbn [Float.scaled] in *. lia.
  - destruct (bounded_facts mx ex Hbx) as (Hex & Hmx & Hnx).
    destruct (bounded_facts my ey Hby) as (Hey & Hmy & Hny).
    unfold SFleb, SFcompare. cbn [Float.scaled].
    pose proof (pow2_pos (ex + 1074) ltac:(lia)) as HPx.
    pose proof (pow2_pos (ey + 1074) ltac:(lia)) as HPy.
    destruct (Z.compare_spec ex ey) as [Heq|Hlt|Hgt].
    + subst ey. rewrite Pos.compare_cont_spec. cbn [Pos.switch_Eq].
      destruct (Pos.compare_spec mx my) as [Hm|Hm|Hm]; symmetry;
        [apply Z.leb_le | apply Z.leb_le | apply Z.leb_gt]; nia.
    + symmetry. apply Z.leb_le.
      assert (Hstep : 2 * 2 ^ (ex + 1074) <= 2 ^ (ey + 1074)).
      { rewrite <- pow2_succ by lia. apply pow2_le. lia. }
      specialize (Hny ltac:(lia)).
      change (2 ^ 53) with (2 * 2 ^ 52) in Hmx. nia.
    + symmetry. apply Z.leb_gt.
      assert (Hstep : 2 * 2 ^ (ey + 1074) <= 2 ^ (ex + 1074)).
      { rewrite <- pow2_succ by lia. apply pow2_le. lia. }
      specialize (Hnx ltac:(lia)).
      change (2 ^ 53) with (2 * 2 ^ 52) in Hmy. nia.
Qed.

Lemma shl_align_scaled (m : BinNums.positive) (e e' : Z) :
  -1074 <= e' <= e ->
  Z.pos (fst (shl_align m e e')) * 2 ^ (e' + 1074)
  = Z.pos m * 2 ^ (e + 1074).
Proof.
  intros He. unfold shl_align.
  destruct (e' - e) as [|p|p] eqn:Hp; cbn [fst].
  - f_equal. f_equal. lia.
  - lia.
  - rewrite shift_pos_pow, <- Z.mul_assoc, <- Z.pow_add_r by lia.
    f_equal. f_equal. lia.
Qed.


(** A difference of such doubles that is not positive: the minuend is not
    the larger. *)
Lemma SFsub_dropped (x y : Float.float) :
  Float.nonneg x = true -> Float.nonneg y = true ->
  Float.scaled y <= Float.scaled x ->
  SFleb (SFsub Float.prec Float.emax x y) (S754_zero false) = true ->
  Float.scaled x = Float.scaled y.
Proof.
  intros Hx Hy Hle.
  destruct (nonneg_cases x Hx) as [[sx ->]|[->|(mx & ex & -> & Hbx)]];
    destruct (nonneg_cases y Hy) as [[sy ->]|[->|(my & ey & -> & Hby)]];
    try (intros _; reflexivity); try discriminate.
  - cbn [Float.scaled] in Hle. pose proof (pow2_pos 2098). lia.
  - pose proof (scaled_finite my ey Hby) as Hs.
    cbn [Float.scaled] in *. lia.
  - pose proof (scaled_finite mx ex Hbx) as Hs.
    cbn [Float.scaled] in *. lia.
  - destruct (bounded_facts mx ex Hbx) as (Hex & _).
    destruct (bounded_facts my ey Hby) as (Hey & _).
    cbn [SFsub cond_Zopp]. cbn [Float.scaled] in *.
    rewrite <- (shl_align_scaled mx ex (Z.min ex ey)) in * by lia.
    rewrite <- (shl_align_scaled my ey (Z.min ex ey)) in * by lia.
    set (a := fst (shl_align mx ex (Z.min ex ey))) in *.
    set (b := fst (shl_align my ey (Z.min ex ey))) in *.
    pose proof (pow2_pos (Z.min ex ey + 1074) ltac:(lia)) as HP.
    destruct (Z.pos a - Z.pos b) as [|p|p] eqn:Hd.
    + intros _. f_equal. lia.
    + cbn [binary_normalize].
      destruct (binary_round_scaled p (Z.min ex ey) ltac:(lia))
        as [Hn Hs].
      cbv zeta in Hn, Hs.
      pose proof (round_scaled_bounds (Z.pos p * 2 ^ (Z.min ex ey + 1074))
                    ltac:(nia)) as [Hlo _].
      pose proof (pow2_pos (Z.log2 (Z.pos p * 2 ^ (Z.min ex ey + 1074)))
                    (Z.log2_nonneg _)) as Hpos.
      pose proof (pow2_pos 2098 ltac:(lia)) as Htop.
      destruct (nonneg_cases _ Hn) as [[s Hz]|[Hi|(m & e & Hf & Hb)]].
      * rewrite Hz in Hs. cbn [Float.scaled] in Hs. lia.
      * rewrite Hi. discriminate.
      * rewrite Hf. discriminate.
    + nia.
Qed.

Lemma SFeqb_scaled (x y : Float.float) :
  Float.nonneg x = true -> Float.nonneg y = true ->
  equal x y = (Float.scaled x =? Float.scaled y).
Proof.
  intros Hx Hy. unfold equal. cbn [leb binary64].
  rewrite (SFleb_scaled x y Hx Hy), (SFleb_scaled y x Hy Hx).
  destruct (Z.leb_spec (Float.scaled x) (Float.scaled y)),
           (Z.leb_spec (Float.scaled y) (Float.scaled x)),
           (Z.eqb_spec (Float.scaled x) (Float.scaled y));
    simpl; try reflexivity; lia.
Qed.

End Rounding64.

(** The laws of order and addition on doubles that are not negative. *)







(** ** The timeline accumulator *)

Section TimelineFacts.
Context {T : Type} `{Number T}.

Lemma append_timepoints_map offset (tps g : list (Timepoint T)) :
  append_timepoints offset tps g = g ++ map (rebase offset) tps.
Proof.
  unfold append_timepoints. revert g.
  induction tps as [|tp tps IH]; intros g; simpl.
  - now rewrite app_nil_r.
  - rewrite IH, <- app_assoc. reflexivity.
Qed.

Lemma fold_accumulate (results : list (SynthesisResult T)) g offset :
  fold_left accumulate results (g, offset)
  = (g ++ rebased_from offset results, offset_after offset results).
Proof.
  revert g offset.
  induction results as [|r rs IH]; intros g offset; simpl.
  - now rewrite app_nil_r.
  - rewrite IH, append_timepoints_map, <- app_assoc. reflexivity.
Qed.



End TimelineFacts.

(** The order of the rebased time stamps, for numbers [ok] on which order
    and addition keep their laws. *)
Section Monotone.
Context {T : Type} `{Number T}.
Variable ok : T -> bool.
Hypothesis ok_add : forall a b : T,
  ok a = true -> ok b = true -> ok (add a b) = true.
Hypothesis leb_trans : forall a b c : T,
  ok a = true -> ok b = true -> ok c = true ->
  leb a b = true -> leb b c = true -> leb a c = true.
Hypothesis add_leb_mono : forall o a b : T,
  ok o = true -> ok a = true -> ok b = true ->
  leb a b = true -> leb (add o a) (add o b) = true.
Hypothesis add_leb_incr : forall o t : T,
  ok o = true -> ok t = true -> leb o (add o t) = true.



End Monotone.







(** ** The chunk synthesizer *)

(** C3, as the code has it.  [_synthesize_chunk] returns a result exactly
    when the call is answered with a status that is no error, the body is a
    JSON object with audio content, and the audio decodes; in every other
    case it raises.  The time stamps returned are those of the reply, and
    the empty list when the reply has none: they are not compared with the
    marks of the chunk. *)
Theorem synthesize_chunk_succeeds_iff :
  forall (T : Type) (N : Number T) (w : World T) (ssml_chunk : str)
         (mp3_out : ChunkFile) (temp : Temp) (result : ChunkResult T),
    fst (_synthesize_chunk w ssml_chunk mp3_out temp) = inr result
    <->
    exists status_code data audio_data ms,
      post w ssml_chunk = Response status_code (Some data)
      /\ ((400 <=? status_code) && (status_code <? 600))%Z = false
      /\ audioContent data = Some audio_data
      /\ decode_ms w audio_data = Some ms
      /\ chunk_duration result = div (of_int ms) (of_int 1000)
      /\ chunk_timepoints result
         = match body_timepoints data with
           | Some tps => tps
           | None => JArray []
           end.
Proof.
  intros T N w ssml_chunk mp3_out temp result.
  unfold _synthesize_chunk. split.
  - destruct (post w ssml_chunk) as [|status_code json]; [discriminate|].
    destruct ((400 <=? status_code) && (status_code <? 600))%Z eqn:Hs;
      [discriminate|].
    destruct json as [data|]; [|discriminate].
    destruct (audioContent data) as [audio_data|] eqn:Ha; [|discriminate].
    unfold bind_run, update.
    destruct (decode_ms w audio_data) as [ms|] eqn:Hd; [|discriminate].
    cbn [ret fst]. intros [= <-]. exists status_code, data, audio_data, ms.
    repeat split; assumption.
  - intros (status_code & data & audio_data & ms
            & -> & -> & -> & Hd & Hdur & Htps).
    unfold bind_run, update. rewrite Hd. cbn [ret fst].
    destruct result as [d tps]. simpl in Hdur, Htps. now subst.
Qed.

(** C3 fails as stated: the chunk of the scenario script holds the marks
    [p1] and [p2], the reply has no timepoints, and the call returns a
    result with an empty list of time stamps. *)
Lemma synthesize_chunk_accepts_missing_timepoints :
  re_split (dewrap (wrap Scenario.script))
  = [ lit "Hello"; Scenario.mark_p1; lit "World!!"; Scenario.mark_p2; [] ]
  /\ fst (_synthesize_chunk Scenario.world_untimed (wrap Scenario.script)
                            (1%Z, 1) [])
     = inr {| chunk_duration := Float.of_Z 4; chunk_timepoints := JArray [] |}.
Proof. split; vm_compute; reflexivity. Qed.

(** ** Strings *)

Lemma strip_prefix_app (p r : str) : strip_prefix p (p ++ r) = Some r.
Proof.
  induction p as [|a p IH]; simpl; [reflexivity|].
  now rewrite Ascii.eqb_refl.
Qed.

Lemma strip_prefix_Some (p s r : str) :
  strip_prefix p s = Some r -> s = p ++ r.
Proof.
  revert s. induction p as [|a p IH]; intros [|b s]; simpl;
    try discriminate; try (now intros [= ->]).
  destruct (Ascii.eqb a b) eqn:Hab; [|discriminate].
  apply Ascii.eqb_eq in Hab. subst b. intros Hs. now rewrite (IH _ Hs).
Qed.

Lemma firstn_length_app {A} (l r : list A) :
  firstn (length (l ++ r) - length r) (l ++ r) = l.
Proof.
  rewrite length_app, Nat.add_sub, firstn_app, Nat.sub_diag, firstn_all.
  simpl. apply app_nil_r.
Qed.

Lemma dewrap_wrap (body : str) : dewrap (wrap body) = body.
Proof.
  unfold dewrap, wrap.
  change (skipn 7 (speak_open ++ body ++ speak_close))
    with (body ++ speak_close).
  rewrite !length_app.
  change (length speak_open) with 7. change (length speak_close) with 8.
  replace (7 + (length body + 8) - 15) with (length body) by lia.
  rewrite firstn_app, Nat.sub_diag, firstn_all. simpl. apply app_nil_r.
Qed.

Lemma strip_wrap (body : str) : strip (wrap body) = wrap body.
Proof.
  unfold strip, rstrip.
  assert (Hl : lstrip (wrap body) = wrap body) by reflexivity.
  rewrite Hl. unfold wrap. rewrite !rev_app_distr, <- app_assoc.
  assert (Hr : forall t : str, lstrip (rev speak_close ++ t)
                               = rev speak_close ++ t) by reflexivity.
  rewrite Hr, app_assoc, <- rev_app_distr, <- rev_app_distr, rev_involutive.
  reflexivity.
Qed.

(** What [_split_ssml] cuts into chunks when given a wrapped document is
    the document. *)
Lemma split_ssml_wrap (max_ssml_length : Z) (doc : str) :
  _split_ssml max_ssml_length (wrap doc)
  = if (len doc <=? max_ssml_length)%Z then [wrap doc]
    else
      let '(chunks, current) :=
        fold_left (chunk_step max_ssml_length) (re_split doc) ([], []) in
      match current with
      | [] => chunks
      | _ :: _ => chunks ++ [wrap current]
      end.
Proof.
  unfold _split_ssml. rewrite strip_wrap.
  assert (Hstart : startswith (wrap doc) speak_open = true).
  { unfold startswith, wrap. now rewrite strip_prefix_app. }
  rewrite Hstart.
  change (skipn 7 (wrap doc)) with (doc ++ speak_close).
  assert (Hend : endswith (doc ++ speak_close) speak_close = true).
  { unfold endswith, startswith. rewrite rev_app_distr.
    now rewrite strip_prefix_app. }
  rewrite Hend.
  change 8 with (length speak_close). rewrite firstn_length_app.
  reflexivity.
Qed.

(** ** The tokens of [re.split] *)

Lemma span_name_eq (s name rest : str) :
  span_name s = (name, rest) -> s = name ++ rest.
Proof.
  revert name rest. induction s as [|c s IH]; intros name rest; simpl.
  - now intros [= <- <-].
  - destruct (Ascii.eqb c dquote); [now intros [= <- <-]|].
    destruct (span_name s) as [name' rest'].
    intros [= <- <-]. simpl. now rewrite (IH _ _ eq_refl).
Qed.

Lemma span_name_clean (s name rest : str) :
  span_name s = (name, rest) ->
  Forall (fun c => Ascii.eqb c dquote = false) name.
Proof.
  revert name rest. induction s as [|c s IH]; intros name rest; simpl.
  - intros [= <- <-]. constructor.
  - destruct (Ascii.eqb c dquote) eqn:Hc; [intros [= <- <-]; constructor|].
    destruct (span_name s) as [name' rest'].
    intros [= <- <-]. constructor; [exact Hc | eapply IH; reflexivity].
Qed.

Lemma span_name_app (name rest : str) :
  Forall (fun c => Ascii.eqb c dquote = false) name ->
  span_name (name ++ dquote :: rest) = (name, dquote :: rest).
Proof.
  induction 1 as [|c name Hc _ IH]; simpl.
  - reflexivity.
  - now rewrite Hc, IH.
Qed.

(** A match is a prefix of the text, is not empty, and matches itself in
    full. *)
Lemma match_mark_Some (s tag rest : str) :
  match_mark s = Some (tag, rest) ->
  s = tag ++ rest /\ tag <> [] /\ match_mark tag = Some (tag, []).
Proof.
  unfold match_mark.
  destruct (strip_prefix mark_open s) as [s1|] eqn:Hopen; [|discriminate].
  destruct (span_name s1) as [name s2] eqn:Hname.
  destruct name as [|c name]; [discriminate|].
  destruct (strip_prefix mark_close s2) as [rest'|] eqn:Hclose;
    [|discriminate].
  intros Heq.
  assert (Htag : tag = mark_open ++ (c :: name) ++ mark_close)
    by congruence.
  assert (Hrest : rest = rest') by congruence.
  clear Heq.
  apply strip_prefix_Some in Hopen, Hclose.
  pose proof (span_name_eq _ _ _ Hname) as Hs1.
  pose proof (span_name_clean _ _ _ Hname) as Hclean.
  subst s s1 s2 tag rest. repeat split.
  - now rewrite <- !app_assoc.
  - discriminate.
  - rewrite strip_prefix_app.
    change ((c :: name) ++ mark_close)
      with ((c :: name) ++ dquote :: lit "/>").
    rewrite (span_name_app _ _ Hclean).
    change (dquote :: lit "/>") with (mark_close ++ []).
    now rewrite strip_prefix_app, app_nil_r.
Qed.

Lemma re_split_from_concat (fuel : nat) :
  forall text s : str,
    length s < fuel ->
    concat (re_split_from fuel text s) = rev text ++ s.
Proof.
  induction fuel as [|fuel IH]; intros text s Hfuel; [lia|]. simpl.
  destruct (match_mark s) as [[tag rest]|] eqn:Hm.
  - destruct (match_mark_Some _ _ _ Hm) as (-> & Htag & _).
    simpl. rewrite IH.
    + reflexivity.
    + rewrite length_app in Hfuel. destruct tag; [congruence|].
      simpl in Hfuel. lia.
  - destruct s as [|c s]; simpl.
    + now rewrite app_nil_r.
    + rewrite IH by (simpl in Hfuel; lia). simpl.
      now rewrite <- app_assoc.
Qed.

Lemma re_split_concat (s : str) : concat (re_split s) = s.
Proof. unfold re_split. rewrite re_split_from_concat; [reflexivity | lia]. Qed.

(** The parts at the odd indices are marker tags. *)
Lemma re_split_from_odd (fuel : nat) :
  forall (text s : str) (pre : list str) (tag : str) (post : list str),
    re_split_from fuel text s = pre ++ tag :: post ->
    Nat.odd (length pre) = true ->
    match_mark tag = Some (tag, []).
Proof.
  induction fuel as [|fuel IH]; intros text s pre tag post; simpl.
  - destruct pre; discriminate.
  - destruct (match_mark s) as [[tag0 rest]|] eqn:Hm.
    + destruct pre as [|x [|y pre]]; simpl.
      * discriminate.
      * intros [= _ <- _] _. now destruct (match_mark_Some _ _ _ Hm) as (_ & _ & ?).
      * intros [= _ _ Hrest] Hodd. eapply IH; eassumption.
    + destruct s as [|c s].
      * destruct pre as [|x [|y pre]]; simpl; discriminate.
      * apply IH.
Qed.

(** *** Marker tags in the text *)

Lemma match_mark_shape (s tag rest : str) :
  match_mark s = Some (tag, rest) ->
  exists name,
    tag = mark_tag name /\ name <> []
    /\ Forall (fun c => Ascii.eqb c dquote = false) name
    /\ s = tag ++ rest.
Proof.
  intros Hm. pose proof (match_mark_Some _ _ _ Hm) as (Hs & _ & _).
  unfold match_mark in Hm.
  destruct (strip_prefix mark_open s) as [s1|] eqn:Hopen; [|discriminate].
  destruct (span_name s1) as [name s2] eqn:Hname.
  destruct name as [|c name]; [discriminate|].
  destruct (strip_prefix mark_close s2) as [rest'|] eqn:Hclose;
    [|discriminate].
  exists (c :: name). repeat split.
  - unfold mark_tag. congruence.
  - discriminate.
  - exact (span_name_clean _ _ _ Hname).
  - exact Hs.
Qed.

Lemma marker_name_clean (name : str) :
  marker_name name = true ->
  name <> [] /\ Forall (fun c => Ascii.eqb c dquote = false) name
  /\ forall rest, hd_error (name ++ rest) <> Some "/"%char.
Proof.
  destruct name as [|c name]; [discriminate|]. unfold marker_name.
  intros H. apply andb_prop in H. destruct H as [Hslash Hclean].
  split; [discriminate|]. split.
  - rewrite forallb_forall in Hclean. apply Forall_forall.
    intros x Hx. specialize (Hclean x Hx).
    now destruct (Ascii.eqb x dquote).
  - intros rest. simpl. intros [= ->]. discriminate.
Qed.

Lemma match_mark_tag (name b : str) :
  marker_name name = true ->
  match_mark (mark_tag name ++ b) = Some (mark_tag name, b).
Proof.
  intros Hname. destruct (marker_name_clean _ Hname) as (Hne & Hclean & _).
  unfold match_mark, mark_tag. rewrite <- !app_assoc, strip_prefix_app.
  change (name ++ mark_close ++ b) with (name ++ dquote :: lit "/>" ++ b).
  rewrite (span_name_app _ _ Hclean).
  destruct name as [|c name]; [congruence|].
  change (dquote :: lit "/>" ++ b) with (mark_close ++ b).
  now rewrite strip_prefix_app.
Qed.

Lemma app_three_last (x y : str) (c1 c2 c3 : ascii) (z : str) :
  x ++ y = z ++ [c1; c2; c3] ->
  3 <= length y ->
  exists y0, y = y0 ++ [c1; c2; c3] /\ x ++ y0 = z.
Proof.
  intros Heq Hlen.
  destruct (app_eq_app _ _ _ _ Heq) as [l [[-> Hl]|[-> Hl]]].
  - assert (length [c1; c2; c3] = length (l ++ y)) by now rewrite Hl.
    rewrite length_app in H. simpl in H.
    assert (l = []) by (destruct l; [reflexivity | simpl in H; lia]).
    subst l. simpl in Hl. exists []. subst y. now rewrite !app_nil_r.
  - exists l. split; [exact Hl | reflexivity].
Qed.

Lemma mark_open_has_quote (k m : str) :
  ~ Forall (fun c => Ascii.eqb c dquote = false) (k ++ mark_open ++ m).
Proof.
  intros Hall. rewrite Forall_forall in Hall.
  specialize (Hall dquote).
  rewrite Ascii.eqb_refl in Hall. enough (true = false) by discriminate.
  apply Hall. apply in_or_app. right. apply in_or_app. left.
  unfold mark_open. apply in_or_app. right. now left.
Qed.

(** A match that starts before a marker tag ends before it. *)
Lemma no_overlap (a name b t r : str) :
  a <> [] ->
  marker_name name = true ->
  match_mark (a ++ mark_tag name ++ b) = Some (t, r) ->
  length t <= length a.
Proof.
  intros Ha Hname Hm.
  destruct (marker_name_clean _ Hname) as (Hne & Hclean & Hslash).
  destruct (match_mark_shape _ _ _ Hm) as (name' & -> & Hne' & Hclean' & Hs).
  destruct (le_lt_dec (length (mark_tag name')) (length a)) as [|Hlong];
    [assumption | exfalso].
  destruct (app_eq_app _ _ _ _ Hs) as [l [[Ha2 _]|[Ht Hl]]].
  { rewrite Ha2, length_app in Hlong. lia. }
  assert (Hl3 : 3 <= length l).
  { destruct l as [|x1 [|x2 [|x3 l]]]; simpl; try lia; exfalso.
    - rewrite app_nil_r in Ht. rewrite Ht in Hlong. lia.
    - assert (Hrev : rev (mark_tag name') = rev (a ++ [x1]))
        by now rewrite Ht.
      unfold mark_tag in Hrev. rewrite !rev_app_distr in Hrev.
      simpl in Hrev. injection Hrev as Hx _. subst x1. discriminate Hl.
    - assert (Hrev : rev (mark_tag name') = rev (a ++ [x1; x2]))
        by now rewrite Ht.
      unfold mark_tag in Hrev. rewrite !rev_app_distr in Hrev.
      simpl in Hrev. injection Hrev as Hx2 Hx1 _. subst x1 x2.
      discriminate Hl. }
  unfold mark_tag in Ht.
  replace (mark_open ++ name' ++ mark_close)
    with ((mark_open ++ name') ++ [dquote; "/"; ">"]%char) in Ht
    by (now rewrite <- app_assoc).
  symmetry in Ht.
  destruct (app_three_last _ _ _ _ _ _ Ht Hl3) as (l0 & -> & Hl0).
  unfold mark_tag in Hl. rewrite <- !app_assoc in Hl.
  destruct (app_eq_app _ _ _ _ Hl) as [m [[Hopen Hm2]|[Hopen Hm2]]].
  - (* the closing quote of the match lies in the opening of the tag *)
    clear - Hopen Hm2 Hclean Hslash Hne.
    unfold mark_open in Hopen. simpl in Hopen.
    repeat (destruct l0 as [|? l0];
            [ simpl in Hopen; subst m; simpl in Hm2; try discriminate Hm2
            | simpl in Hopen; try discriminate Hopen;
              injection Hopen as ? Hopen; subst ]).
    + injection Hm2 as Hm2.
      destruct name as [|c name]; [congruence|].
      simpl in Hm2. injection Hm2 as Hc _. subst c.
      specialize (Hslash []). simpl in Hslash. congruence.
    + destruct name as [|c name]; [congruence|].
      simpl in Hm2. injection Hm2 as Hc _. subst c.
      inversion Hclean as [|? ? Hc _]. discriminate Hc.
  - (* the opening of the tag lies in the name of the match *)
    subst l0.
    destruct (app_eq_app _ _ _ _ Hl0) as [k [[Hk1 Hk2]|[Hk1 Hk2]]].
    + subst name'. exact (mark_open_has_quote _ _ Hclean').
    + clear - Hk1 Hk2 Ha Hclean'.
      unfold mark_open in Hk1. simpl in Hk1.
      repeat (destruct a as [|? a];
              [ simpl in Hk1; subst k; simpl in Hk2; try discriminate Hk2;
                try congruence
              | simpl in Hk1; try discriminate Hk1;
                injection Hk1 as ? Hk1; subst ]).
      simpl in Hk2. subst name'.
      exact (mark_open_has_quote [] _ Hclean').
Qed.

(** The scan stops at every marker tag: the tag is a part at an odd index,
    after the text before it. *)
Lemma re_split_from_occurrence (name b : str) :
  marker_name name = true ->
  forall (fuel : nat) (a text : str),
    length (a ++ mark_tag name ++ b) < fuel ->
    exists pre post,
      re_split_from fuel text (a ++ mark_tag name ++ b)
      = pre ++ mark_tag name :: post
      /\ Nat.odd (length pre) = true
      /\ concat pre = rev text ++ a
      /\ concat post = b.
Proof.
  intros Hname. induction fuel as [|fuel IH]; intros a text Hfuel; [lia|].
  destruct a as [|c a].
  - cbn [app re_split_from]. rewrite (match_mark_tag _ _ Hname).
    exists [rev text], (re_split_from fuel [] b). repeat split.
    + rewrite re_split_from_concat; [reflexivity|].
      cbn [app] in Hfuel. unfold mark_tag in Hfuel.
      rewrite !length_app in Hfuel. simpl in Hfuel. lia.
  - cbn [re_split_from].
    destruct (match_mark ((c :: a) ++ mark_tag name ++ b))
      as [[t r]|] eqn:Hm.
    + assert (Hshort : length t <= length (c :: a)).
      { apply (no_overlap (c :: a) name b t r); [discriminate | | ]; assumption. }
      destruct (match_mark_Some _ _ _ Hm) as (Hs & Ht & _).
      assert (Hl : exists l, c :: a = t ++ l /\ r = l ++ mark_tag name ++ b).
      { destruct (app_eq_app _ _ _ _ Hs) as [l [[H1 H2]|[H1 H2]]].
        - exists l. auto.
        - assert (l = []).
          { rewrite H1, length_app in Hshort.
            destruct l; [reflexivity | simpl in Hshort; lia]. }
          subst l. rewrite app_nil_r in H1. simpl in H2.
          exists []. rewrite app_nil_r. auto. }
      destruct Hl as (l & Hca & ->).
      destruct (IH l []) as (pre & post & Hsplit & Hodd & Hpre & Hpost).
      { rewrite Hca, <- app_assoc, length_app in Hfuel.
        assert (0 < length t) by (destruct t; [congruence | simpl; lia]).
        lia. }
      exists (rev text :: t :: pre), post. rewrite Hsplit. repeat split.
      * exact Hodd.
      * simpl. rewrite Hpre, Hca. simpl. reflexivity.
      * exact Hpost.
    + cbn [app].
      destruct (IH a (c :: text)) as (pre & post & Hsplit & Hodd & Hpre & Hpost).
      { cbn [app length] in Hfuel. lia. }
      exists pre, post. rewrite Hsplit. repeat split; try assumption.
      rewrite Hpre. simpl. now rewrite <- app_assoc.
Qed.

Lemma re_split_occurrence (a name b : str) :
  marker_name name = true ->
  exists pre post,
    re_split (a ++ mark_tag name ++ b) = pre ++ mark_tag name :: post
    /\ Nat.odd (length pre) = true
    /\ concat pre = a
    /\ concat post = b.
Proof.
  intros Hname. unfold re_split.
  apply (re_split_from_occurrence name b Hname); lia.
Qed.

(** ** The greedy packing *)

Lemma pack_nonempty (max_ssml_length : Z) (parts : list str) :
  forall current : str, pack max_ssml_length current parts <> [].
Proof.
  induction parts as [|part rest IH]; intros current; simpl.
  - discriminate.
  - destruct (_ >? _)%Z; [discriminate | apply IH].
Qed.

Lemma fold_chunk_step (max_ssml_length : Z) (parts : list str) :
  forall (chunks : list str) (current : str),
    fold_left (chunk_step max_ssml_length) parts (chunks, current)
    = (chunks
       ++ map wrap (removelast (pack max_ssml_length current parts)),
       last (pack max_ssml_length current parts) []).
Proof.
  induction parts as [|part rest IH]; intros chunks current.
  - simpl. now rewrite app_nil_r.
  - cbn [fold_left pack]. unfold chunk_step at 2.
    destruct (len current + len part >? max_ssml_length)%Z.
    + rewrite IH. simpl app.
      pose proof (pack_nonempty max_ssml_length rest part) as Hne.
      destruct (pack max_ssml_length part rest) as [|b bs] eqn:Hp;
        [congruence|].
      cbn [removelast last map]. now rewrite <- app_assoc.
    + now rewrite IH.
Qed.

Lemma pack_concat (max_ssml_length : Z) (parts : list str) :
  forall current : str,
    concat (pack max_ssml_length current parts) = current ++ concat parts.
Proof.
  induction parts as [|part rest IH]; intros current; simpl.
  - reflexivity.
  - destruct (_ >? _)%Z; simpl; rewrite IH; [reflexivity|].
    now rewrite <- app_assoc.
Qed.

(** The current accumulation stays at the head of what the packing
    returns, extended by the parts that still fit. *)
Lemma pack_head (max_ssml_length : Z) (parts : list str) :
  forall current : str,
  exists v after,
    pack max_ssml_length current parts = (current ++ v) :: after
    /\ v ++ concat after = concat parts.
Proof.
  induction parts as [|part rest IH]; intros current; simpl.
  - exists [], []. now rewrite app_nil_r.
  - destruct (_ >? _)%Z.
    + exists [], (pack max_ssml_length part rest).
      rewrite app_nil_r, pack_concat. auto.
    + destruct (IH (current ++ part)) as (v & after & -> & Hv).
      exists (part ++ v), after. rewrite <- !app_assoc, Hv. auto.
Qed.

(** Every part lies whole in one body of the packing, at its place in the
    text. *)
Lemma pack_whole (max_ssml_length : Z) (pre : list str) :
  forall (current tag : str) (post : list str),
  exists before u v after,
    pack max_ssml_length current (pre ++ tag :: post)
    = before ++ (u ++ tag ++ v) :: after
    /\ concat before ++ u = current ++ concat pre
    /\ v ++ concat after = concat post.
Proof.
  induction pre as [|part pre IH]; intros current tag post; simpl.
  - destruct (_ >? _)%Z.
    + destruct (pack_head max_ssml_length post tag)
        as (v & after & -> & Hv).
      exists [current], [], v, after. simpl.
      now rewrite !app_nil_r.
    + destruct (pack_head max_ssml_length post (current ++ tag))
        as (v & after & -> & Hv).
      exists [], current, v, after. simpl.
      now rewrite <- app_assoc, app_nil_r.
  - destruct (_ >? _)%Z.
    + destruct (IH part tag post) as (before & u & v & after & -> & Hu & Hv).
      exists (current :: before), u, v, after. simpl.
      now rewrite <- app_assoc, Hu.
    + destruct (IH (current ++ part) tag post)
        as (before & u & v & after & -> & Hu & Hv).
      exists before, u, v, after. now rewrite Hu, <- app_assoc.
Qed.

(** A body of the packing is within the budget, or is the initial
    accumulation, or is a single part. *)
Lemma pack_size (max_ssml_length : Z) (parts : list str) :
  forall current : str,
    Forall (fun body => (len body <= max_ssml_length)%Z
                        \/ In body (current :: parts))
           (pack max_ssml_length current parts).
Proof.
  induction parts as [|part rest IH]; intros current; simpl.
  - constructor; [right; left; reflexivity | constructor].
  - destruct (len current + len part >? max_ssml_length)%Z eqn:Hover.
    + constructor; [right; left; reflexivity|].
      eapply Forall_impl; [|apply IH].
      simpl. intros body [Hle|Hin]; [left; exact Hle | right; right; exact Hin].
    + eapply Forall_impl; [|apply IH].
      simpl. intros body [Hle|[<-|Hin]].
      * left. exact Hle.
      * left. unfold len in *. rewrite length_app. lia.
      * right. right. right. exact Hin.
Qed.

Lemma drop_empty_last_concat (bodies : list str) :
  concat (drop_empty_last bodies) = concat bodies.
Proof.
  unfold drop_empty_last. destruct bodies as [|b bs]; [reflexivity|].
  destruct (last (b :: bs) []) eqn:Hlast; [|reflexivity].
  rewrite (app_removelast_last (l := b :: bs) []) at 2 by discriminate.
  rewrite Hlast, concat_app. simpl. now rewrite app_nil_r.
Qed.

Lemma drop_empty_last_incl (bodies : list str) (body : str) :
  In body (drop_empty_last bodies) -> In body bodies.
Proof.
  unfold drop_empty_last. destruct (last bodies []); [|trivial].
  destruct bodies as [|b bs]; [trivial|].
  intros Hin. rewrite (app_removelast_last (l := b :: bs) [])
    by discriminate.
  apply in_or_app. now left.
Qed.

(** Dropping an empty last body keeps every body that is not empty where
    it is. *)
Lemma drop_empty_last_keeps (before after : list str) (body : str) :
  body <> [] ->
  exists after',
    drop_empty_last (before ++ body :: after) = before ++ body :: after'
    /\ concat after' = concat after.
Proof.
  intros Hbody. unfold drop_empty_last.
  destruct (last (before ++ body :: after) []) eqn:Hlast;
    [|exists after; auto].
  destruct after as [|a after'] using rev_ind.
  - rewrite last_last in Hlast. congruence.
  - clear IHafter'.
    replace (before ++ body :: after' ++ [a])
      with ((before ++ body :: after') ++ [a]) in *
      by now rewrite <- app_assoc.
    rewrite last_last in Hlast. subst a.
    rewrite removelast_last. exists after'. split; [reflexivity|].
    rewrite concat_app. simpl. now rewrite app_nil_r.
Qed.

(** [_split_ssml] on a wrapped document: one chunk when the document is
    within the budget, and otherwise the packing of its parts. *)
Lemma split_ssml_pack (max_ssml_length : Z) (doc : str) :
  _split_ssml max_ssml_length (wrap doc)
  = if (len doc <=? max_ssml_length)%Z then [wrap doc]
    else map wrap
           (drop_empty_last (pack max_ssml_length [] (re_split doc))).
Proof.
  rewrite split_ssml_wrap.
  destruct (len doc <=? max_ssml_length)%Z; [reflexivity|].
  rewrite fold_chunk_step. simpl app.
  unfold drop_empty_last.
  pose proof (pack_nonempty max_ssml_length (re_split doc) []) as Hne.
  destruct (last (pack max_ssml_length [] (re_split doc)) []) eqn:Hlast;
    [reflexivity|].
  rewrite (app_removelast_last (l := pack _ _ _) [] Hne) at 2.
  now rewrite map_app, Hlast.
Qed.

(** ** The chunker *)

(** C4.  Round trip.  Every chunk of a marked document is its body between
    the two wrappers, and the bodies of the chunks, joined in order, are the
    document.  This holds for every maximum length, in particular for one
    that is at least the length of the longest marker tag. *)
Theorem split_ssml_round_trip :
  forall (max_ssml_length : Z) (doc : str),
    concat (map dewrap (_split_ssml max_ssml_length (wrap doc))) = doc
    /\ Forall (fun chunk => chunk = wrap (dewrap chunk))
              (_split_ssml max_ssml_length (wrap doc)).
Proof.
  intros max_ssml_length doc. rewrite split_ssml_pack.
  destruct (len doc <=? max_ssml_length)%Z.
  - split.
    + simpl. now rewrite dewrap_wrap, app_nil_r.
    + constructor; [now rewrite dewrap_wrap | constructor].
  - split.
    + rewrite map_map.
      rewrite (map_ext _ (fun body => body) dewrap_wrap), map_id.
      rewrite drop_empty_last_concat, pack_concat. apply re_split_concat.
    + apply Forall_forall. intros chunk Hin. apply in_map_iff in Hin.
      destruct Hin as (body & <- & _). now rewrite dewrap_wrap.
Qed.

(** A part of the document at an odd index of [re.split] is a marker tag,
    and it lies whole in the body of one chunk: the text before it in that
    body and in the chunks before is the text before it in the document,
    and likewise after it. *)
Lemma split_ssml_parts_whole :
  forall (max_ssml_length : Z) (doc : str)
         (pre : list str) (tag : str) (post : list str),
    re_split doc = pre ++ tag :: post ->
    Nat.odd (length pre) = true ->
    match_mark tag = Some (tag, [])
    /\ exists before u v after,
         map dewrap (_split_ssml max_ssml_length (wrap doc))
         = before ++ (u ++ tag ++ v) :: after
         /\ concat before ++ u = concat pre
         /\ v ++ concat after = concat post.
Proof.
  intros max_ssml_length doc pre tag post Hparts Hodd.
  assert (Htag : match_mark tag = Some (tag, [])).
  { unfold re_split in Hparts. eapply re_split_from_odd; eassumption. }
  split; [exact Htag|].
  rewrite split_ssml_pack.
  destruct (len doc <=? max_ssml_length)%Z.
  - exists [], (concat pre), (concat post), []. simpl.
    rewrite dewrap_wrap, app_nil_r. repeat split.
    rewrite <- (re_split_concat doc), Hparts, concat_app. reflexivity.
  - rewrite map_map, (map_ext _ (fun body => body) dewrap_wrap), map_id.
    rewrite Hparts.
    destruct (pack_whole max_ssml_length pre [] tag post)
      as (before & u & v & after & -> & Hu & Hv).
    assert (Hbody : u ++ tag ++ v <> []).
    { destruct (match_mark_Some _ _ _ Htag) as (_ & Hne & _).
      destruct u; [|discriminate]. destruct tag; [congruence | discriminate]. }
    destruct (drop_empty_last_keeps before after _ Hbody)
      as (after' & Hdrop & Hafter).
    exists before, u, v, after'. rewrite Hafter. auto.
Qed.

(** C5.  No marker tag is split.  Wherever a marker tag stands in a
    document, it lies whole in the body of one chunk: the text before it in
    that body and in the chunks before is the text before it in the
    document, and likewise after it.  This holds for every maximum
    length. *)
Theorem split_ssml_keeps_marks_whole :
  forall (max_ssml_length : Z) (text_before name text_after : str),
    marker_name name = true ->
    exists before u v after,
      map dewrap
          (_split_ssml max_ssml_length
             (wrap (text_before ++ mark_tag name ++ text_after)))
      = before ++ (u ++ mark_tag name ++ v) :: after
      /\ concat before ++ u = text_before
      /\ v ++ concat after = text_after.
Proof.
  intros max_ssml_length text_before name text_after Hname.
  destruct (re_split_occurrence text_before name text_after Hname)
    as (pre & post & Hparts & Hodd & Hpre & Hpost).
  destruct (split_ssml_parts_whole max_ssml_length _ pre _ post Hparts Hodd)
    as (_ & before & u & v & after & Hchunks & Hu & Hv).
  exists before, u, v, after. rewrite Hchunks, Hu, Hv. auto.
Qed.

Lemma split_ssml_keeps_marks_whole_witness :
  marker_name (lit "p1") = true
  /\ exists before u v after,
       map dewrap
           (_split_ssml 20
              (wrap (lit "Hello" ++ mark_tag (lit "p1")
                     ++ lit "World!!" ++ Scenario.mark_p2)))
       = before ++ (u ++ mark_tag (lit "p1") ++ v) :: after
       /\ concat before ++ u = lit "Hello"
       /\ v ++ concat after = lit "World!!" ++ Scenario.mark_p2.
Proof.
  split; [reflexivity|].
  apply (split_ssml_keeps_marks_whole 20%Z (lit "Hello") (lit "p1")
           (lit "World!!" ++ Scenario.mark_p2)).
  reflexivity.
Defined.

(** C6, as the code has it.  The maximum bounds the body of a chunk, not
    the chunk rendered with its wrapper, which is 15 characters longer.  A
    body exceeds a non-negative maximum only when it is a single part of
    the document, a text segment or a marker tag, that exceeds it alone. *)
Theorem split_ssml_budget :
  forall (max_ssml_length : Z) (doc chunk : str),
    (0 <= max_ssml_length)%Z ->
    In chunk (_split_ssml max_ssml_length (wrap doc)) ->
    len chunk = (len (dewrap chunk) + 15)%Z
    /\ ((len (dewrap chunk) <= max_ssml_length)%Z
        \/ In (dewrap chunk) (re_split doc)).
Proof.
  intros max_ssml_length doc chunk Hmax. rewrite split_ssml_pack.
  assert (Hlen : forall body, len (wrap body) = (len body + 15)%Z).
  { intros body. unfold len, wrap. rewrite !length_app.
    change (length speak_open) with 7. change (length speak_close) with 8.
    lia. }
  destruct (len doc <=? max_ssml_length)%Z eqn:Hfit.
  - intros [<-|[]]. rewrite dewrap_wrap. split; [apply Hlen|].
    left. now apply Z.leb_le.
  - intros Hin. apply in_map_iff in Hin. destruct Hin as (body & <- & Hin).
    rewrite dewrap_wrap. split; [apply Hlen|].
    apply drop_empty_last_incl in Hin.
    pose proof (pack_size max_ssml_length (re_split doc) []) as Hsize.
    rewrite Forall_forall in Hsize.
    destruct (Hsize _ Hin) as [Hle|[<-|Hpart]].
    + left. exact Hle.
    + left. exact Hmax.
    + right. exact Hpart.
Qed.

Lemma split_ssml_budget_witness :
  (0 <= 6)%Z
  /\ In (wrap (lit "World!!")) (_split_ssml 6 (wrap Scenario.script))
  /\ len (wrap (lit "World!!")) = (len (dewrap (wrap (lit "World!!"))) + 15)%Z
  /\ ((len (dewrap (wrap (lit "World!!"))) <= 6)%Z
      \/ In (dewrap (wrap (lit "World!!"))) (re_split Scenario.script)).
Proof.
  assert (Hin : In (wrap (lit "World!!"))
                   (_split_ssml 6 (wrap Scenario.script))).
  { vm_compute. tauto. }
  split; [lia|]. split; [exact Hin|].
  apply (@split_ssml_budget 6%Z Scenario.script (wrap (lit "World!!")));
    [lia | exact Hin].
Defined.

(** C6 fails as stated: with a maximum of 50, the script of 46 characters
    makes one chunk of 61 characters, and its text segments have 5, 7 and 0
    characters. *)
Lemma split_ssml_rendered_over_budget :
  ~ rendered_within 50 Scenario.script.
Proof.
  intros Hcontract.
  destruct (Hcontract (wrap Scenario.script)) as [Hle|(text & Hin & Hlong)].
  - vm_compute. tauto.
  - vm_compute in Hle. apply Hle. reflexivity.
  - vm_compute in Hin.
    destruct Hin as [<-|[<-|[<-|[]]]]; vm_compute in Hlong; discriminate.
Qed.


(** ** Sorting by time *)

Section SortFacts.
Context {T : Type} `{Number T}.

Lemma insert_by_time_perm (sorted : list (Timepoint T)) (p : Timepoint T) :
  Permutation (insert_by_time sorted p) (p :: sorted).
Proof.
  unfold insert_by_time.
  set (l := bisect _ _ _ _ _).
  apply Permutation_trans with (p :: firstn l sorted ++ skipn l sorted);
    [|now rewrite firstn_skipn].
  apply Permutation_sym, Permutation_middle.
Qed.

Lemma fold_insert_perm (rest : list (Timepoint T)) :
  forall run : list (Timepoint T),
    Permutation (fold_left insert_by_time rest run) (run ++ rest).
Proof.
  induction rest as [|p rest IH]; intros run; simpl.
  - now rewrite app_nil_r.
  - eapply Permutation_trans; [apply IH|].
    eapply Permutation_trans;
      [apply Permutation_app_tail, insert_by_time_perm|].
    simpl. apply Permutation_middle.
Qed.

Lemma sort_by_time_perm (points : list (Timepoint T)) :
  Permutation (sort_by_time points) points.
Proof.
  unfold sort_by_time.
  destruct points as [|p [|q rest]]; try apply Permutation_refl.
  destruct (count_run (p :: q :: rest)) as [n descending].
  eapply Permutation_trans; [apply fold_insert_perm|].
  apply Permutation_trans
    with (firstn n (p :: q :: rest) ++ skipn n (p :: q :: rest));
    [|rewrite firstn_skipn; apply Permutation_refl].
  apply Permutation_app_tail.
  destruct descending; [|apply Permutation_refl].
  apply Permutation_sym, Permutation_rev.
Qed.

Lemma sort_by_time_length (points : list (Timepoint T)) :
  length (sort_by_time points) = length points.
Proof. apply Permutation_length, sort_by_time_perm. Qed.

Lemma nondecreasing_firstn (n : nat) :
  forall l : list T,
    nondecreasing l = true -> nondecreasing (firstn n l) = true.
Proof.
  induction n as [|n IH]; intros l Hl; [reflexivity|].
  destruct l as [|a l]; [reflexivity|].
  specialize (IH l (nondecreasing_cons _ _ Hl)).
  destruct l as [|b l]; [destruct n; reflexivity|].
  destruct n as [|n]; [reflexivity|].
  simpl in Hl. apply andb_prop in Hl. destruct Hl as [Hab _].
  change (leb a b && nondecreasing (firstn (S n) (b :: l)) = true).
  now rewrite Hab.
Qed.

Lemma nondecreasing_snoc (l : list T) (a b : T) :
  nondecreasing (l ++ [a]) = true -> leb a b = true ->
  nondecreasing ((l ++ [a]) ++ [b]) = true.
Proof.
  intros Hl Hab. induction l as [|x l IH]; simpl.
  - now rewrite Hab.
  - specialize (IH (nondecreasing_cons _ _ Hl)).
    destruct l as [|y l]; simpl in *.
    + apply andb_prop in Hl. destruct Hl as [Hxa _]. now rewrite Hxa, Hab.
    + apply andb_prop in Hl. destruct Hl as [Hxy _]. now rewrite Hxy.
Qed.

(** The search ends between an item that is not above the pivot and an
    item that is. *)
Lemma bisect_spec (pivot : T) (sorted : list (Timepoint T)) (fuel : nat) :
  forall l r : nat,
    r - l <= fuel -> l <= r <= length sorted ->
    (l = 0 \/ exists a, nth_error sorted (l - 1) = Some a
                        /\ ltb pivot (timeSeconds a) = false) ->
    (r = length sorted
     \/ exists b, nth_error sorted r = Some b
                  /\ ltb pivot (timeSeconds b) = true) ->
    let k := bisect fuel pivot sorted l r in
    k <= length sorted
    /\ (k = 0 \/ exists a, nth_error sorted (k - 1) = Some a
                           /\ ltb pivot (timeSeconds a) = false)
    /\ (k = length sorted
        \/ exists b, nth_error sorted k = Some b
                     /\ ltb pivot (timeSeconds b) = true).
Proof.
  induction fuel as [|fuel IH]; intros l r Hfuel Hlr Hleft Hright.
  - assert (l = r) by lia. subst r. simpl.
    split; [lia|]. split; assumption.
  - cbn [bisect].
    destruct (Nat.ltb_spec l r) as [Hlt|Hge].
    2:{ assert (l = r) by lia. subst r. cbv zeta.
        split; [lia|]. split; assumption. }
    pose proof (Nat.div_lt (r - l) 2 ltac:(lia) ltac:(lia)) as Hhalf.
    set (p := l + (r - l) / 2) in *.
    assert (Hp : l <= p < r) by (unfold p; lia).
    destruct (nth_error sorted p) as [q|] eqn:Hq.
    2:{ apply nth_error_None in Hq. lia. }
    destruct (ltb pivot (timeSeconds q)) eqn:Hlt'.
    + apply IH; [lia | lia | exact Hleft|].
      right. exists q. auto.
    + apply IH; [lia | lia | | exact Hright].
      right. exists q. replace (S p - 1) with p by lia. auto.
Qed.

(** On keys that [<] and [<=] order totally, sorting gives a
    non-decreasing list of keys. *)
Variable ok : T -> Prop.
Hypothesis ltb_leb : forall a b : T, ltb a b = true -> leb a b = true.
Hypothesis not_ltb_leb :
  forall a b : T, ok a -> ok b -> ltb b a = false -> leb a b = true.

Lemma nondecreasing_insert (p : Timepoint T) :
  forall (sorted : list (Timepoint T)) (k : nat),
    nondecreasing (map timeSeconds sorted) = true ->
    k <= length sorted ->
    (k = 0 \/ exists a, nth_error sorted (k - 1) = Some a
                        /\ leb (timeSeconds a) (timeSeconds p) = true) ->
    (k = length sorted
     \/ exists b, nth_error sorted k = Some b
                  /\ leb (timeSeconds p) (timeSeconds b) = true) ->
    nondecreasing
      (map timeSeconds (firstn k sorted ++ p :: skipn k sorted)) = true.
Proof.
  induction sorted as [|a sorted IH]; intros k Hnd Hk Hleft Hright.
  - simpl in Hk. assert (k = 0) by lia. subst k. reflexivity.
  - destruct k as [|k].
    + cbn [firstn skipn app map].
      destruct Hright as [Hr|(b & Hb & Hle)]; [discriminate|].
      injection Hb as <-.
      change (leb (timeSeconds p) (timeSeconds a)
              && nondecreasing (map timeSeconds (a :: sorted)) = true).
      now rewrite Hle.
    + cbn [firstn skipn app map].
      assert (IH' : nondecreasing
                      (map timeSeconds
                           (firstn k sorted ++ p :: skipn k sorted)) = true).
      { apply IH.
        - exact (nondecreasing_cons _ _ Hnd).
        - simpl in Hk. lia.
        - destruct k as [|k]; [now left|]. right.
          destruct Hleft as [Hl|(x & Hx & Hle)]; [discriminate|].
          exists x. split; [|exact Hle].
          replace (S (S k) - 1) with (S k) in Hx by lia.
          replace (S k - 1) with k by lia. exact Hx.
        - destruct Hright as [Hr|(b & Hb & Hle)].
          + left. simpl in Hr. lia.
          + right. exists b. auto. }
      destruct k as [|k].
      * cbn [firstn app map] in *.
        destruct Hleft as [Hl|(x & Hx & Hle)]; [discriminate|].
        injection Hx as <-.
        change (leb (timeSeconds a) (timeSeconds p)
                && nondecreasing
                     (map timeSeconds (p :: skipn 0 sorted)) = true).
        now rewrite Hle.
      * destruct sorted as [|b sorted]; [simpl in Hk; lia|].
        cbn [firstn app map] in *.
        simpl in Hnd. apply andb_prop in Hnd. destruct Hnd as [Hab _].
        change (leb (timeSeconds a) (timeSeconds b)
                && nondecreasing
                     (timeSeconds b
                      :: map timeSeconds
                           (firstn k sorted ++ p :: skipn (S k) (b :: sorted)))
                = true).
        now rewrite Hab.
Qed.

Lemma insert_by_time_nondecreasing (sorted : list (Timepoint T))
    (p : Timepoint T) :
  ok (timeSeconds p) ->
  Forall (fun q => ok (timeSeconds q)) sorted ->
  nondecreasing (map timeSeconds sorted) = true ->
  nondecreasing (map timeSeconds (insert_by_time sorted p)) = true.
Proof.
  intros Hp Hok Hnd. unfold insert_by_time.
  destruct (bisect_spec (timeSeconds p) sorted (length sorted)
              0 (length sorted) ltac:(lia) ltac:(lia)
              (or_introl eq_refl) (or_introl eq_refl))
    as (Hk & Hleft & Hright).
  rewrite Forall_forall in Hok.
  apply nondecreasing_insert; [exact Hnd | exact Hk | |].
  - destruct Hleft as [Hl|(a & Ha & Hlt)]; [now left|].
    right. exists a. split; [exact Ha|].
    apply not_ltb_leb; [|exact Hp | exact Hlt].
    apply Hok. eapply nth_error_In, Ha.
  - destruct Hright as [Hr|(b & Hb & Hlt)]; [now left|].
    right. exists b. split; [exact Hb | now apply ltb_leb].
Qed.

Lemma fold_insert_nondecreasing (rest : list (Timepoint T)) :
  forall run : list (Timepoint T),
    Forall (fun q => ok (timeSeconds q)) rest ->
    Forall (fun q => ok (timeSeconds q)) run ->
    nondecreasing (map timeSeconds run) = true ->
    nondecreasing (map timeSeconds (fold_left insert_by_time rest run))
    = true.
Proof.
  induction rest as [|p rest IH]; intros run Hrest Hrun Hnd; [exact Hnd|].
  inversion Hrest as [|? ? Hp Hrest']; subst. simpl.
  apply IH; [exact Hrest' | |].
  - apply Forall_forall. intros q Hq. rewrite Forall_forall in Hrun.
    apply (Permutation_in _ (insert_by_time_perm run p)) in Hq.
    destruct Hq as [<-|Hq]; auto.
  - now apply insert_by_time_nondecreasing.
Qed.

(** An ascending run is in order as it stands. *)
Lemma run_on_ascending (rest : list (Timepoint T)) :
  forall previous : Timepoint T,
    ok (timeSeconds previous) ->
    Forall (fun q => ok (timeSeconds q)) rest ->
    nondecreasing
      (map timeSeconds
           (previous
            :: firstn (run_on false (timeSeconds previous) rest) rest))
    = true.
Proof.
  induction rest as [|p rest IH]; intros previous Hprev Hok; [reflexivity|].
  inversion Hok as [|? ? Hp Hok']; subst. cbn [run_on].
  destruct (ltb (timeSeconds p) (timeSeconds previous)) eqn:Hlt;
    cbn [Bool.eqb]; [reflexivity|].
  cbn [firstn map].
  change (leb (timeSeconds previous) (timeSeconds p)
          && nondecreasing
               (map timeSeconds
                    (p :: firstn (run_on false (timeSeconds p) rest) rest))
          = true).
  rewrite (not_ltb_leb _ _ Hprev Hp Hlt). now apply IH.
Qed.

(** A descending run is in order once it is turned round. *)
Lemma run_on_descending (rest : list (Timepoint T)) :
  forall previous : Timepoint T,
    nondecreasing
      (map timeSeconds
           (rev (previous
                 :: firstn (run_on true (timeSeconds previous) rest) rest)))
    = true.
Proof.
  induction rest as [|p rest IH]; intros previous; [reflexivity|].
  cbn [run_on].
  destruct (ltb (timeSeconds p) (timeSeconds previous)) eqn:Hlt;
    cbn [Bool.eqb]; [|reflexivity].
  cbn [firstn]. specialize (IH p).
  set (run := firstn (run_on true (timeSeconds p) rest) rest) in *.
  change (rev (previous :: p :: run)) with ((rev run ++ [p]) ++ [previous]).
  change (rev (p :: run)) with (rev run ++ [p]) in IH.
  rewrite !map_app in *. cbn [map] in *.
  apply nondecreasing_snoc; [exact IH | now apply ltb_leb].
Qed.

Lemma sort_by_time_nondecreasing (points : list (Timepoint T)) :
  Forall (fun q => ok (timeSeconds q)) points ->
  nondecreasing (map timeSeconds (sort_by_time points)) = true.
Proof.
  intros Hok. unfold sort_by_time.
  destruct points as [|p [|q rest]]; try reflexivity.
  cbn [count_run].
  inversion Hok as [|? ? Hp Hok']; subst.
  inversion Hok' as [|? ? Hq Hrest]; subst.
  set (descending := ltb (timeSeconds q) (timeSeconds p)).
  set (n := run_on descending (timeSeconds q) rest).
  change (firstn (2 + n) (p :: q :: rest)) with (p :: q :: firstn n rest).
  change (skipn (2 + n) (p :: q :: rest)) with (skipn n rest).
  assert (Hrun : Forall (fun x => ok (timeSeconds x))
                        (p :: q :: firstn n rest)).
  { repeat constructor; try assumption.
    apply Forall_forall. intros x Hx. rewrite Forall_forall in Hrest.
    apply Hrest. rewrite <- (firstn_skipn n rest).
    apply in_or_app. now left. }
  apply fold_insert_nondecreasing.
  - apply Forall_forall. intros x Hx. rewrite Forall_forall in Hrest.
    apply Hrest. rewrite <- (firstn_skipn n rest).
    apply in_or_app. now right.
  - destruct descending; [|exact Hrun].
    apply Forall_forall. intros x Hx. rewrite Forall_forall in Hrun.
    apply Hrun. now apply in_rev.
  - destruct descending eqn:Hd; unfold n.
    + change (rev (p :: q :: firstn (run_on true (timeSeconds q) rest) rest))
        with (rev (q :: firstn (run_on true (timeSeconds q) rest) rest)
              ++ [p]).
      pose proof (run_on_descending rest q) as Hdesc.
      change (rev (q :: firstn (run_on true (timeSeconds q) rest) rest))
        with (rev (firstn (run_on true (timeSeconds q) rest) rest) ++ [q])
        in *.
      rewrite !map_app in *. cbn [map] in *.
      apply nondecreasing_snoc; [exact Hdesc | now apply ltb_leb].
    + cbn [map].
      change (leb (timeSeconds p) (timeSeconds q)
              && nondecreasing
                   (map timeSeconds
                        (q :: firstn (run_on false (timeSeconds q) rest)
                                     rest)) = true).
      rewrite (not_ltb_leb _ _ Hp Hq Hd). now apply run_on_ascending.
Qed.

End SortFacts.

(** A list whose keys are in order is one run, and nothing is inserted. *)
Section StoredOrder.
Context {T : Type} `{Number T}.

Hypothesis leb_not_ltb :
  forall a b : T, leb a b = true -> ltb b a = false.

Lemma run_on_ordered (rest : list (Timepoint T)) :
  forall previous : T,
    nondecreasing (previous :: map timeSeconds rest) = true ->
    run_on false previous rest = length rest.
Proof.
  induction rest as [|p rest IH]; intros previous Hnd; [reflexivity|].
  cbn [map] in Hnd. simpl in Hnd. apply andb_prop in Hnd.
  destruct Hnd as [Hle Hnd].
  cbn [run_on]. rewrite (leb_not_ltb _ _ Hle). cbn [Bool.eqb length].
  f_equal. now apply IH.
Qed.

Lemma sort_by_time_ordered (points : list (Timepoint T)) :
  nondecreasing (map timeSeconds points) = true ->
  sort_by_time points = points.
Proof.
  intros Hnd. unfold sort_by_time.
  destruct points as [|p [|q rest]]; try reflexivity.
  cbn [count_run].
  cbn [map] in Hnd. simpl in Hnd. apply andb_prop in Hnd.
  destruct Hnd as [Hpq Hnd].
  rewrite (leb_not_ltb _ _ Hpq), (run_on_ordered rest _ Hnd).
  change (2 + length rest) with (length (p :: q :: rest)).
  now rewrite firstn_all, skipn_all.
Qed.

End StoredOrder.
(** ** The video timeline builder *)

Section VideoFacts.
Context {T : Type} `{Number T}.

Lemma pair_up_cons (idx : nat) (start end_ : T) (rest : list T)
    (image : str) (images : list str) :
  pair_up idx (start :: end_ :: rest) (image :: images)
  = {| clip_index := idx; clip_image := image; clip_start := start;
       clip_end := end_; clip_duration := sub end_ start |}
    :: pair_up (S idx) (end_ :: rest) images.
Proof. reflexivity. Qed.

Lemma pair_up_single (idx : nat) (bound : T) (images : list str) :
  pair_up idx [bound] images = [].
Proof. destruct images; reflexivity. Qed.

Lemma pair_up_no_image (idx : nat) (bounds : list T) :
  pair_up idx bounds [] = [].
Proof. destruct bounds as [|b [|b' bounds]]; reflexivity. Qed.

(** The loop of [create_chapter_video], started at index [idx] with the
    boundaries and images before [idx] behind it, adds the pairs of positive
    duration, and raises nothing. *)
Lemma clip_loop_pair_up (bounds : list T) :
  forall (seen : list T) (shown images : list str) (clips : list (Clip T)),
    length shown = length seen ->
    clip_loop (seq (length seen) (length bounds - 1))
              (seen ++ bounds) (shown ++ images) clips
    = inr (clips ++ filter positive (pair_up (length seen) bounds images)).
Proof.
  induction bounds as [|start bounds IH]; intros seen shown images clips Hlen.
  - simpl. now rewrite app_nil_r.
  - destruct bounds as [|end_ rest].
    + rewrite pair_up_single. simpl. now rewrite app_nil_r.
    + replace (length (start :: end_ :: rest) - 1)
        with (S (length (end_ :: rest) - 1)) by (simpl; lia).
      cbn [seq clip_loop].
      destruct images as [|image images].
      * rewrite pair_up_no_image, !app_nil_r.
        rewrite Hlen, Nat.leb_refl. reflexivity.
      * assert (Hidx : (length (shown ++ image :: images) <=? length seen)
                       = false).
        { apply Nat.leb_gt. rewrite length_app. simpl. lia. }
        rewrite Hidx.
        assert (Hstart : nth_error (seen ++ start :: end_ :: rest)
                                   (length seen) = Some start).
        { rewrite nth_error_app2, Nat.sub_diag by lia. reflexivity. }
        assert (Hend : nth_error (seen ++ start :: end_ :: rest)
                                 (length seen + 1) = Some end_).
        { rewrite nth_error_app2 by lia.
          replace (length seen + 1 - length seen) with 1 by lia.
          reflexivity. }
        assert (Himage : nth_error (shown ++ image :: images)
                                   (length seen) = Some image).
        { rewrite <- Hlen, nth_error_app2, Nat.sub_diag by lia.
          reflexivity. }
        rewrite Hstart, Hend, Himage, pair_up_cons. cbn [filter].
        unfold positive at 1. cbn [clip_duration].
        assert (IH' : forall clips',
                   clip_loop (seq (S (length seen))
                                  (length (end_ :: rest) - 1))
                             (seen ++ start :: end_ :: rest)
                             (shown ++ image :: images) clips'
                   = inr (clips'
                          ++ filter positive
                               (pair_up (S (length seen)) (end_ :: rest)
                                        images))).
        { intros clips'.
          replace (S (length seen)) with (length (seen ++ [start]))
            by (rewrite length_app; simpl; lia).
          replace (seen ++ start :: end_ :: rest)
            with ((seen ++ [start]) ++ end_ :: rest)
            by (now rewrite <- app_assoc).
          replace (shown ++ image :: images)
            with ((shown ++ [image]) ++ images)
            by (now rewrite <- app_assoc).
          apply IH. rewrite !length_app. simpl. lia. }
        destruct (leb (sub end_ start) zero); simpl negb; cbv iota.
        -- apply IH'.
        -- rewrite IH'. now rewrite <- app_assoc.
Qed.

(** The list [transitions] that the loop runs over is [boundaries]. *)
Lemma transitions_boundaries (duration_total : T)
    (points : list (Timepoint T)) (images : list str) :
  (zero :: (if length images <? length (_load_timepoints points)
            then firstn (length images) (_load_timepoints points)
            else _load_timepoints points)) ++ [duration_total]
  = boundaries duration_total points images.
Proof.
  unfold boundaries, interior.
  destruct (length images <? length (_load_timepoints points)) eqn:Hlt.
  - reflexivity.
  - apply Nat.ltb_ge in Hlt. now rewrite firstn_all2.
Qed.

(** What [create_chapter_video] does with existing files and at least one
    image: it keeps the candidate intervals of positive duration, and
    subscripts the list of clips at 0. *)
Lemma create_chapter_video_clips (duration_total : T)
    (points : list (Timepoint T)) (images : list str) :
  images <> [] ->
  create_chapter_video (Some duration_total) (Some points) images
  = match filter positive (candidates duration_total points images) with
    | [] => inl IndexError
    | clips => inr (Video clips duration_total)
    end.
Proof.
  intros Himages. unfold create_chapter_video.
  destruct images as [|image images]; [congruence|].
  rewrite transitions_boundaries.
  pose proof (clip_loop_pair_up
                (boundaries duration_total points (image :: images))
                [] [] (image :: images) [] eq_refl) as Hloop.
  change (clip_loop
            (seq 0 (length (boundaries duration_total points
                                       (image :: images)) - 1))
            (boundaries duration_total points (image :: images))
            (image :: images) []
          = inr (filter positive
                   (candidates duration_total points (image :: images))))
    in Hloop.
  unfold bind. rewrite Hloop.
  destruct (filter positive _); reflexivity.
Qed.

End VideoFacts.

Section CandidateFacts.
Context {T : Type} `{Number T}.

Lemma pair_up_start (idx : nat) (bound : T) (bounds : list T)
    (images : list str) (c : Clip T) (rest : list (Clip T)) :
  pair_up idx (bound :: bounds) images = c :: rest ->
  clip_start c = bound.
Proof.
  destruct bounds as [|end_ bounds]; [now rewrite pair_up_single|].
  destruct images as [|image images]; [discriminate|].
  rewrite pair_up_cons. now intros [= <- _].
Qed.

Lemma pair_up_contiguous (bounds : list T) :
  forall (idx : nat) (images : list str),
    contiguous (pair_up idx bounds images).
Proof.
  induction bounds as [|start bounds IH]; intros idx images.
  - exact I.
  - destruct bounds as [|end_ rest]; [now rewrite pair_up_single|].
    destruct images as [|image images]; [exact I|].
    rewrite pair_up_cons. specialize (IH (S idx) images).
    cbn [contiguous].
    destruct (pair_up (S idx) (end_ :: rest) images) as [|c' clips] eqn:Hp;
      [exact I|].
    split; [|exact IH].
    symmetry. exact (pair_up_start _ _ _ _ _ _ Hp).
Qed.

Lemma pair_up_length (bounds : list T) :
  forall (idx : nat) (images : list str),
    length (pair_up idx bounds images)
    = Nat.min (length bounds - 1) (length images).
Proof.
  induction bounds as [|start bounds IH]; intros idx images.
  - reflexivity.
  - destruct bounds as [|end_ rest]; [now rewrite pair_up_single|].
    destruct images as [|image images];
      [now rewrite pair_up_no_image, Nat.min_0_r|].
    rewrite pair_up_cons. cbn [length]. rewrite IH. simpl. lia.
Qed.

(** The last pair ends at the boundary whose index is the number of
    pairs. *)
Lemma pair_up_last_end (bounds : list T) :
  forall (idx : nat) (images : list str) (d : Clip T),
    pair_up idx bounds images <> [] ->
    clip_end (last (pair_up idx bounds images) d)
    = nth (Nat.min (length bounds - 1) (length images)) bounds zero.
Proof.
  induction bounds as [|start bounds IH]; intros idx images d Hne.
  - now contradiction Hne.
  - destruct bounds as [|end_ rest];
      [rewrite pair_up_single in Hne; now contradiction Hne|].
    destruct images as [|image images];
      [rewrite pair_up_no_image in Hne; now contradiction Hne|].
    rewrite pair_up_cons.
    pose proof (pair_up_length (end_ :: rest) (S idx) images) as Hlen.
    destruct (pair_up (S idx) (end_ :: rest) images) as [|c' clips] eqn:Hp.
    + simpl in Hlen. cbn [last clip_end length].
      replace (Nat.min (S (S (length rest)) - 1) (S (length images)))
        with 1 by lia.
      reflexivity.
    + assert (Hne' : pair_up (S idx) (end_ :: rest) images <> [])
        by (rewrite Hp; discriminate).
      specialize (IH (S idx) images d Hne'). rewrite Hp in IH.
      change (last (_ :: c' :: clips) d) with (last (c' :: clips) d).
      rewrite IH. cbn [length].
      replace (Nat.min (S (S (length rest)) - 1) (S (length images)))
        with (S (Nat.min (S (length rest) - 1) (length images))) by lia.
      reflexivity.
Qed.

Lemma load_timepoints_length (points : list (Timepoint T)) :
  length (_load_timepoints points) = length points.
Proof.
  unfold _load_timepoints. now rewrite length_map, sort_by_time_length.
Qed.

Lemma interior_length (points : list (Timepoint T)) (images : list str) :
  length (interior points images)
  = Nat.min (length images) (length points).
Proof.
  unfold interior. now rewrite length_firstn, load_timepoints_length.
Qed.

(** The candidate intervals: one per image up to one more than the number
    of timepoints, contiguous, from 0, and up to the total duration when
    images outnumber timepoints. *)
Lemma candidates_shape (duration_total : T) (points : list (Timepoint T))
    (images : list str) :
  images <> [] ->
  contiguous (candidates duration_total points images)
  /\ length (candidates duration_total points images)
     = Nat.min (S (length points)) (length images)
  /\ exists first rest,
       candidates duration_total points images = first :: rest
       /\ clip_start first = zero
       /\ clip_end (last (candidates duration_total points images) first)
          = if length points <? length images then duration_total
            else nth (length images - 1) (_load_timepoints points) zero.
Proof.
  intros Himages. unfold candidates.
  assert (Hlen : length (boundaries duration_total points images) - 1
                 = S (Nat.min (length images) (length points))).
  { unfold boundaries. cbn [length].
    rewrite length_app, interior_length. simpl. lia. }
  split; [apply pair_up_contiguous|].
  split; [rewrite pair_up_length, Hlen; lia|].
  destruct (pair_up 0 (boundaries duration_total points images) images)
    as [|first rest] eqn:Hp.
  { pose proof (pair_up_length (boundaries duration_total points images)
                               0 images) as Hl.
    rewrite Hp, Hlen in Hl. destruct images; [congruence | simpl in Hl; lia]. }
  exists first, rest. split; [reflexivity|].
  split; [exact (pair_up_start _ _ _ _ _ _ Hp)|].
  rewrite <- Hp, pair_up_last_end by (rewrite Hp; discriminate).
  rewrite Hlen. unfold boundaries.
  destruct (length points <? length images) eqn:Hlt.
  - apply Nat.ltb_lt in Hlt.
    replace (Nat.min (S (Nat.min (length images) (length points)))
                     (length images))
      with (S (length (interior points images)))
      by (rewrite interior_length; lia).
    cbn [nth]. now rewrite nth_middle.
  - apply Nat.ltb_ge in Hlt.
    assert (Hm : 0 < length images) by (destruct images; [congruence | simpl; lia]).
    replace (Nat.min (S (Nat.min (length images) (length points)))
                     (length images))
      with (S (length images - 1)) by lia.
    cbn [nth]. rewrite app_nth1 by (rewrite interior_length; lia).
    unfold interior. rewrite nth_firstn.
    replace (length images - 1 <? length images) with true
      by (symmetry; apply Nat.ltb_lt; lia).
    reflexivity.
Qed.

(** The interval at position [k] of the pairing shows image [k], between
    boundaries [k] and [k + 1]. *)
Lemma pair_up_aligned (bounds : list T) :
  forall (idx : nat) (images : list str) (c : Clip T),
    In c (pair_up idx bounds images) ->
    exists k,
      clip_index c = idx + k
      /\ nth_error images k = Some (clip_image c)
      /\ nth_error bounds k = Some (clip_start c)
      /\ nth_error bounds (S k) = Some (clip_end c)
      /\ clip_duration c = sub (clip_end c) (clip_start c).
Proof.
  induction bounds as [|start bounds IH]; intros idx images c Hin.
  - contradiction.
  - destruct bounds as [|end_ rest];
      [rewrite pair_up_single in Hin; contradiction|].
    destruct images as [|image images]; [contradiction|].
    rewrite pair_up_cons in Hin. destruct Hin as [<-|Hin].
    + exists 0. simpl. rewrite Nat.add_0_r. auto.
    + destruct (IH _ _ _ Hin) as (k & Hidx & Himage & Hstart & Hend & Hdur).
      exists (S k). rewrite Hidx. split; [lia|]. simpl. auto.
Qed.

End CandidateFacts.

(** ** Comparison of doubles *)

Lemma SFltb_SFleb (a b : Float.float) :
  SFltb a b = true -> SFleb a b = true.
Proof.
  unfold SFltb, SFleb. destruct (SFcompare a b) as [[| |]|];
    congruence.
Qed.

Lemma SFcompare_swap (a b : Float.float) :
  Float.is_nan a = false -> Float.is_nan b = false ->
  SFcompare b a = option_map CompOpp (SFcompare a b).
Proof.
  destruct a as [sa|sa| |sa ma ea], b as [sb|sb| |sb mb eb];
    try discriminate; intros _ _; simpl;
    try (destruct sa; reflexivity); try (destruct sb; reflexivity);
    try (destruct sa, sb; reflexivity).
  destruct sa, sb; try reflexivity; simpl;
    rewrite (Z.compare_antisym ea eb);
    destruct (ea ?= eb)%Z; simpl; try reflexivity;
    rewrite (Pos.compare_cont_antisym ma mb Eq); reflexivity.
Qed.

Lemma SFltb_false_SFleb (a b : Float.float) :
  Float.is_nan a = false -> Float.is_nan b = false ->
  SFltb b a = false -> SFleb a b = true.
Proof.
  intros Ha Hb. unfold SFltb, SFleb. rewrite (SFcompare_swap a b Ha Hb).
  destruct (SFcompare a b) as [[| |]|] eqn:Hc; simpl; try congruence.
  destruct a as [sa|sa| |sa ma ea], b as [sb|sb| |sb mb eb];
    simpl in Ha, Hb, Hc; discriminate.
Qed.

(** ** The display intervals *)

(** Two doubles that compare equal are the same double, or both zero. *)
Lemma equal_cases (x y : Float.float) :
  equal x y = true ->
  x = y \/ exists s s', x = S754_zero s /\ y = S754_zero s'.
Proof.
  unfold equal. cbn [leb binary64]. unfold SFleb. intros Heq.
  apply andb_prop in Heq. destruct Heq as [Hxy Hyx].
  destruct x as [[|]|[|]| |[|] mx ex], y as [[|]|[|]| |[|] my ey];
    simpl in Hxy, Hyx; try discriminate; try (now left);
    try (right; eexists; eexists; split; reflexivity);
    left; revert Hxy Hyx;
    destruct (Z.compare_spec ex ey) as [He|He|He];
    destruct (Z.compare_spec ey ex) as [He'|He'|He'];
    try lia; try (intros; discriminate);
    rewrite !Pos.compare_cont_spec;
    destruct (Pos.compare_spec mx my) as [Hm|Hm|Hm];
    destruct (Pos.compare_spec my mx) as [Hm'|Hm'|Hm'];
    cbn [Pos.switch_Eq CompOpp]; try lia; try (intros; discriminate);
    intros _ _; now subst.
Qed.

Lemma equal_trans (x y z : Float.float) :
  equal x y = true -> equal y z = true -> equal x z = true.
Proof.
  intros Hxy Hyz.
  destruct (equal_cases x y Hxy) as [->|(s & s' & -> & ->)];
    [exact Hyz|].
  destruct (equal_cases _ z Hyz) as [<-|(t & t' & Ht & ->)];
    [exact Hxy | reflexivity].
Qed.

Lemma equal_refl (x : Float.float) :
  Float.nonneg x = true -> equal x x = true.
Proof.
  intros Hx. rewrite (SFeqb_scaled x x Hx Hx). apply Z.eqb_refl.
Qed.

(** An interval between two boundaries in order is dropped only when the
    two are equal. *)
Lemma dropped_equal (start end_ : Float.float) :
  Float.nonneg start = true -> Float.nonneg end_ = true ->
  leb start end_ = true ->
  leb (sub end_ start) zero = true ->
  equal start end_ = true.
Proof.
  intros Hs He Hle Hdrop. cbn [leb sub zero binary64] in *.
  rewrite (SFleb_scaled start end_ Hs He) in Hle. apply Z.leb_le in Hle.
  rewrite (SFeqb_scaled start end_ Hs He). apply Z.eqb_eq. symmetry.
  exact (SFsub_dropped end_ start He Hs Hle Hdrop).
Qed.

Lemma covers_left (clips : list (Clip Float.float))
    (a a' b : Float.float) :
  equal a a' = true -> covers a' clips b = true -> covers a clips b = true.
Proof.
  intros Haa. destruct clips as [|c rest]; cbn [covers].
  - intros Hab. exact (equal_trans _ _ _ Haa Hab).
  - intros Hc. apply andb_prop in Hc. destruct Hc as [Hstart Hrest].
    now rewrite (equal_trans _ _ _ Haa Hstart).
Qed.

Lemma covers_seamless (clips : list (Clip Float.float)) :
  forall a b : Float.float,
    covers a clips b = true -> seamless clips = true.
Proof.
  induction clips as [|c rest IH]; intros a b Hc; [reflexivity|].
  cbn [covers] in Hc. apply andb_prop in Hc. destruct Hc as [_ Hrest].
  destruct rest as [|c' rest]; [reflexivity|].
  cbn [seamless]. pose proof Hrest as Hrest'.
  cbn [covers] in Hrest. apply andb_prop in Hrest.
  destruct Hrest as [Hjoin _]. rewrite Hjoin.
  exact (IH _ _ Hrest').
Qed.

Lemma covers_ends (clips : list (Clip Float.float)) :
  forall (a b : Float.float) (first d : Clip Float.float)
         (rest : list (Clip Float.float)),
    clips = first :: rest ->
    covers a clips b = true ->
    equal a (clip_start first) = true
    /\ equal (clip_end (last clips d)) b = true.
Proof.
  induction clips as [|c clips IH]; intros a b first d rest Heq Hc;
    [discriminate|].
  injection Heq as <- <-.
  cbn [covers] in Hc. apply andb_prop in Hc. destruct Hc as [Hstart Hrest].
  split; [exact Hstart|].
  destruct clips as [|c' clips]; [exact Hrest|].
  change (last (c :: c' :: clips) d) with (last (c' :: clips) d).
  exact (proj2 (IH _ _ c' d clips eq_refl Hrest)).
Qed.

Lemma last_default {A : Type} (l : list A) (d d' : A) :
  l <> [] -> last l d = last l d'.
Proof.
  induction l as [|a l IH]; intros Hne; [congruence|].
  destruct l as [|b l]; [reflexivity|].
  change (last (b :: l) d = last (b :: l) d'). apply IH. discriminate.
Qed.

(** Over boundaries in order, the intervals that are kept lead from the
    first boundary to the end of the last candidate: the ones left out
    have no extent. *)
Lemma pair_up_covers (bounds : list Float.float) :
  forall (idx : nat) (images : list str) (b0 : Float.float)
         (rest : list Float.float) (d : Clip Float.float),
    bounds = b0 :: rest ->
    clip_end d = b0 ->
    Forall (fun b => Float.nonneg b = true) bounds ->
    nondecreasing bounds = true ->
    covers b0 (filter positive (pair_up idx bounds images))
           (clip_end (last (pair_up idx bounds images) d)) = true.
Proof.
  induction bounds as [|start bounds IH];
    intros idx images b0 rest d Heq Hd Hok Hnd; [discriminate|].
  injection Heq as <- <-.
  pose proof (Forall_inv Hok) as Hstart.
  pose proof (Forall_inv_tail Hok) as Hok'. cbv beta in Hstart.
  destruct bounds as [|end_ bounds'].
  { rewrite pair_up_single. cbn [filter last covers].
    rewrite Hd. now apply equal_refl. }
  destruct images as [|image images].
  { rewrite pair_up_no_image. cbn [filter last covers].
    rewrite Hd. now apply equal_refl. }
  rewrite pair_up_cons.
  pose proof (Forall_inv Hok') as Hend. cbv beta in Hend.
  simpl in Hnd. apply andb_prop in Hnd. destruct Hnd as [Hle Hnd].
  set (c0 := {| clip_index := idx; clip_image := image;
                clip_start := start; clip_end := end_;
                clip_duration := sub end_ start |}).
  specialize (IH (S idx) images end_ bounds' c0 eq_refl eq_refl Hok' Hnd).
  assert (Hlast : clip_end (last (c0 :: pair_up (S idx) (end_ :: bounds')
                                                images) d)
                  = clip_end (last (pair_up (S idx) (end_ :: bounds') images)
                                   c0)).
  { destruct (pair_up (S idx) (end_ :: bounds') images) as [|c' cs] eqn:Hp;
      [reflexivity|].
    change (last (c0 :: c' :: cs) d) with (last (c' :: cs) d).
    f_equal. apply last_default. discriminate. }
  rewrite Hlast. cbn [filter].
  destruct (positive c0) eqn:Hpos.
  - cbn [covers].
    change (clip_start c0) with start. change (clip_end c0) with end_.
    now rewrite IH, (equal_refl start Hstart).
  - apply covers_left with (a' := end_); [|exact IH].
    apply dropped_equal; try assumption.
    unfold positive in Hpos. apply negb_false_iff in Hpos. exact Hpos.
Qed.

(** Stored times between 0 and the duration give boundaries in order. *)
Lemma boundaries_ordered (duration_total : Float.float)
    (points : list (Timepoint Float.float)) (images : list str) :
  Float.nonneg duration_total = true ->
  forallb (within duration_total) points = true ->
  Forall (fun b => Float.nonneg b = true)
         (boundaries duration_total points images)
  /\ nondecreasing (boundaries duration_total points images) = true.
Proof.
  intros Hd Hall. rewrite forallb_forall in Hall.
  assert (Hin : forall t, In t (interior points images) ->
                  Float.nonneg t = true /\ leb t duration_total = true).
  { intros t Ht. unfold interior in Ht.
    assert (Ht' : In t (_load_timepoints points)).
    { rewrite <- (firstn_skipn (length images) (_load_timepoints points)).
      apply in_or_app. now left. }
    clear Ht. rename Ht' into Ht.
    unfold _load_timepoints in Ht. apply in_map_iff in Ht.
    destruct Ht as (p & <- & Hp).
    apply (Permutation_in _ (sort_by_time_perm points)) in Hp.
    specialize (Hall p Hp). unfold within in Hall.
    apply andb_prop in Hall. exact Hall. }
  assert (Hsorted : nondecreasing (interior points images) = true).
  { apply nondecreasing_firstn. unfold _load_timepoints.
    apply (sort_by_time_nondecreasing (fun x => Float.is_nan x = false)).
    - exact SFltb_SFleb.
    - exact SFltb_false_SFleb.
    - apply Forall_forall. intros p Hp. specialize (Hall p Hp).
      unfold within, Float.nonneg in Hall.
      destruct (timeSeconds p); try reflexivity.
      rewrite andb_false_r in Hall. discriminate. }
  unfold boundaries. split.
  - constructor; [reflexivity|]. apply Forall_app. split.
    + apply Forall_forall. intros t Ht. now apply Hin.
    + constructor; [exact Hd | constructor].
  - assert (Hrest : nondecreasing (interior points images
                                   ++ [duration_total]) = true).
    { apply nondecreasing_app with (m := duration_total).
      - exact Hsorted.
      - reflexivity.
      - apply Forall_forall. intros t Ht. now apply Hin.
      - constructor; [|constructor].
        exact (proj1 (andb_prop _ _ (equal_refl _ Hd))).
      - intros a c _ [<-|[]] Ha _. exact Ha. }
    destruct (interior points images) as [|t ts] eqn:Hint.
    + simpl. cbn [app] in Hrest.
      unfold Float.nonneg in Hd. apply andb_prop in Hd.
      destruct Hd as [_ Hd]. now rewrite Hd.
    + cbn [app] in *.
      change (leb zero t && nondecreasing (t :: ts ++ [duration_total])
              = true).
      rewrite Hrest, andb_true_r.
      destruct (Hin t ltac:(first [now left | rewrite Hint; now left]))
        as [Ht _].
      unfold Float.nonneg in Ht. apply andb_prop in Ht. tauto.
Qed.

(** C7, as the code has it.  For a timeline whose times are doubles
    between 0 and the duration of the audio, and at least one image, the
    intervals the video is made of are the candidate intervals of positive
    duration; they are without a gap (each ends when the next starts), the
    first starts at 0, and the last ends at the total duration when there
    are more images than timepoints, and at the time stamp numbered by the
    image count, in ascending order, otherwise.  No interval ends before
    it starts, and an interval is left out only where two boundaries
    coincide. *)
Theorem create_chapter_video_intervals :
  forall (duration_total : Float.float)
         (points : list (Timepoint Float.float)) (images : list str),
    images <> [] ->
    Float.nonneg duration_total = true ->
    forallb (within duration_total) points = true ->
    let intervals :=
      filter positive (candidates duration_total points images) in
    let reach :=
      if length points <? length images then duration_total
      else nth (length images - 1) (_load_timepoints points) zero in
    (intervals <> [] ->
     create_chapter_video (Some duration_total) (Some points) images
     = inr (Video intervals duration_total))
    /\ seamless intervals = true
    /\ (forall first : Clip Float.float,
          hd_error intervals = Some first ->
          equal (clip_start first) zero = true
          /\ equal (clip_end (last intervals first)) reach = true)
    /\ (forall c : Clip Float.float,
          In c intervals -> leb (clip_start c) (clip_end c) = true)
    /\ (forall c : Clip Float.float,
          In c (candidates duration_total points images) ->
          ~ In c intervals ->
          equal (clip_start c) (clip_end c) = true).
Proof.
  intros duration_total points images Himages Hd Hall intervals reach.
  destruct (boundaries_ordered duration_total points images Hd Hall)
    as [Hok Hnd].
  destruct (candidates_shape duration_total points images Himages)
    as (_ & _ & first & rest & Hcs & _ & Hreach).
  fold reach in Hreach.
  set (d := {| clip_index := 0; clip_image := []; clip_start := zero;
               clip_end := zero; clip_duration := zero |}
            : Clip Float.float).
  pose proof (pair_up_covers (boundaries duration_total points images)
                0 images zero (interior points images ++ [duration_total])
                d eq_refl eq_refl Hok Hnd) as Hcov.
  fold (candidates duration_total points images) in Hcov.
  fold intervals in Hcov.
  rewrite (last_default (candidates duration_total points images) d first)
    in Hcov by (rewrite Hcs; discriminate).
  rewrite Hreach in Hcov.
  split; [|split; [|split; [|split]]].
  - intros Hkept.
    rewrite (create_chapter_video_clips duration_total points images Himages).
    fold intervals. destruct intervals; congruence.
  - exact (covers_seamless intervals _ _ Hcov).
  - intros c Hhd. destruct intervals as [|c' kept] eqn:Hi; [discriminate|].
    injection Hhd as ->.
    destruct (covers_ends (c :: kept) zero reach c c kept eq_refl Hcov)
      as [Hstart Hend].
    split; [|exact Hend]. now rewrite equal_sym.
  - intros c Hin. unfold intervals in Hin. apply filter_In in Hin as [Hin _].
    unfold candidates in Hin.
    destruct (pair_up_aligned (boundaries duration_total points images)
                0 images c Hin) as (k & _ & _ & Hstart & Hend & _).
    exact (nondecreasing_nth _ k _ _ Hnd Hstart Hend).
  - intros c Hin Hout.
    assert (Hpos : positive c = false).
    { destruct (positive c) eqn:Hp; [|reflexivity].
      exfalso. apply Hout. unfold intervals. apply filter_In. auto. }
    unfold positive in Hpos. apply negb_false_iff in Hpos.
    unfold candidates in Hin.
    destruct (pair_up_aligned (boundaries duration_total points images)
                0 images c Hin) as (k & _ & _ & Hstart & Hend & Hdur).
    rewrite Hdur in Hpos.
    rewrite Forall_forall in Hok.
    apply dropped_equal.
    + apply Hok. eapply nth_error_In, Hstart.
    + apply Hok. eapply nth_error_In, Hend.
    + exact (nondecreasing_nth _ k _ _ Hnd Hstart Hend).
    + exact Hpos.
Qed.

Lemma create_chapter_video_intervals_witness :
  Scenario.three_images <> []
  /\ Float.nonneg (Float.of_Z 7) = true
  /\ forallb (within (Float.of_Z 7)) Scenario.shuffled = true
  /\ create_chapter_video (Some (Float.of_Z 7)) (Some Scenario.shuffled)
                          Scenario.three_images
     = inr (Video (filter positive
                     (candidates (Float.of_Z 7) Scenario.shuffled
                                 Scenario.three_images))
                  (Float.of_Z 7))
  /\ seamless (filter positive
                 (candidates (Float.of_Z 7) Scenario.shuffled
                             Scenario.three_images)) = true.
Proof.
  assert (Himages : Scenario.three_images <> []) by discriminate.
  split; [exact Himages|]. split; [reflexivity|]. split; [reflexivity|].
  destruct (create_chapter_video_intervals
              (Float.of_Z 7) Scenario.shuffled Scenario.three_images
              Himages eq_refl eq_refl)
    as (Hrun & Hseamless & _).
  split; [|exact Hseamless].
  apply Hrun. vm_compute. discriminate.
Defined.

(** C7 fails as stated: the timeline [(p1, 1.0); (p2, 2.5)] of a chapter
    of 7.0 s with two images gives the intervals [0, 1.0] and [1.0, 2.5];
    the last one ends at 2.5 s, not at the total duration. *)
Lemma create_chapter_video_stops_short :
  create_chapter_video (Some (Float.of_Z 7)) (Some Scenario.timeline)
                       Scenario.two_images
  = inr (Video
           [ {| clip_index := 0; clip_image := lit "1-a.jpg";
                clip_start := zero; clip_end := Float.of_Z 1;
                clip_duration := Float.of_Z 1 |};
             {| clip_index := 1; clip_image := lit "2-b.jpg";
                clip_start := Float.of_Z 1;
                clip_end := Scenario.two_and_a_half;
                clip_duration := Float.dyadic 3 (-1) |} ]
           (Float.of_Z 7))
  /\ SFeqb Scenario.two_and_a_half (Float.of_Z 7) = false.
Proof. split; vm_compute; reflexivity. Qed.

(** The times are to lie within the audio: a mark stored at 9.0 s in a
    chapter of 7.0 s, with two images, leaves the one interval [0, 9.0],
    which ends after the audio does. *)
Lemma create_chapter_video_beyond_duration :
  create_chapter_video (Some (Float.of_Z 7))
                       (Some [ mkTimepoint (JString "p1") (Float.of_Z 9) ])
                       Scenario.two_images
  = inr (Video
           [ {| clip_index := 0; clip_image := lit "1-a.jpg";
                clip_start := zero; clip_end := Float.of_Z 9;
                clip_duration := Float.of_Z 9 |} ]
           (Float.of_Z 7))
  /\ equal (Float.of_Z 9) (Float.of_Z 7) = false.
Proof. split; vm_compute; reflexivity. Qed.

(** C8, where the code goes wrong.  An interval of zero or negative
    duration is skipped, but when every candidate interval is skipped the
    list of clips is empty and [clips[0]] raises [IndexError]. *)
Theorem create_chapter_video_no_clip :
  forall (T : Type) (N : Number T) (duration_total : T)
         (points : list (Timepoint T)) (images : list str),
    images <> [] ->
    forallb (fun c => leb (clip_duration c) zero)
            (candidates duration_total points images) = true ->
    create_chapter_video (Some duration_total) (Some points) images
    = inl IndexError.
Proof.
  intros T N duration_total points images Himages Hnone.
  rewrite (create_chapter_video_clips duration_total points images Himages).
  assert (Hempty : filter positive
                     (candidates duration_total points images) = []).
  { revert Hnone.
    generalize (candidates duration_total points images) as intervals.
    induction intervals as [|c intervals IH]; [reflexivity|].
    simpl. intros Hc. apply andb_prop in Hc. destruct Hc as [Hc Hrest].
    unfold positive at 1. rewrite Hc. simpl. now apply IH. }
  now rewrite Hempty.
Qed.

Lemma create_chapter_video_no_clip_witness :
  Scenario.one_image <> []
  /\ forallb (fun c => leb (clip_duration c) zero)
             (candidates (Float.of_Z 5) Scenario.mark_at_start
                         Scenario.one_image) = true
  /\ create_chapter_video (Some (Float.of_Z 5))
                          (Some Scenario.mark_at_start) Scenario.one_image
     = inl IndexError.
Proof.
  assert (Himages : Scenario.one_image <> []) by discriminate.
  assert (Hnone : forallb (fun c => leb (clip_duration c) zero)
                    (candidates (Float.of_Z 5) Scenario.mark_at_start
                                Scenario.one_image) = true)
    by (vm_compute; reflexivity).
  split; [exact Himages|]. split; [exact Hnone|].
  exact (create_chapter_video_no_clip
           Float.float binary64 (Float.of_Z 5) Scenario.mark_at_start
           Scenario.one_image Himages Hnone).
Defined.

(** C10, as the code has it.  [_load_timepoints] sorts the stored records
    by time: when no stored time is NaN, whatever the order of the records,
    the times it returns are those of the records in non-decreasing order,
    and so is the interior boundary list, their first [len(images)]
    elements, from which the intervals of the video are made. *)
Theorem load_timepoints_sorted :
  forall (points : list (Timepoint Float.float)) (images : list str),
    no_nan points = true ->
    nondecreasing (_load_timepoints points) = true
    /\ Permutation (_load_timepoints points) (map timeSeconds points)
    /\ nondecreasing (interior points images) = true
    /\ forall duration_total : Float.float,
         let intervals :=
           pair_up 0 (zero :: interior points images ++ [duration_total])
                   images in
         filter positive intervals <> [] ->
         create_chapter_video (Some duration_total) (Some points) images
         = inr (Video (filter positive intervals) duration_total).
Proof.
  intros points images Hnan.
  assert (Hsorted : nondecreasing (_load_timepoints points) = true).
  { unfold _load_timepoints.
    apply (sort_by_time_nondecreasing
             (fun x => Float.is_nan x = false)).
    - exact SFltb_SFleb.
    - exact SFltb_false_SFleb.
    - unfold no_nan in Hnan. rewrite forallb_forall in Hnan.
      apply Forall_forall. intros p Hp. specialize (Hnan p Hp).
      now destruct (Float.is_nan (timeSeconds p)). }
  split; [exact Hsorted|].
  split; [apply Permutation_map, sort_by_time_perm|].
  split; [now apply nondecreasing_firstn|].
  intros duration_total intervals Hkept.
  assert (Himages : images <> []).
  { intros ->. apply Hkept. unfold intervals.
    now rewrite pair_up_no_image. }
  rewrite (create_chapter_video_clips duration_total points images Himages).
  change (candidates duration_total points images) with intervals.
  destruct (filter positive intervals); congruence.
Qed.

Lemma load_timepoints_sorted_witness :
  no_nan Scenario.shuffled = true
  /\ nondecreasing (_load_timepoints Scenario.shuffled) = true
  /\ _load_timepoints Scenario.shuffled
     = [Float.of_Z 1; Scenario.two_and_a_half].
Proof.
  split; [reflexivity|].
  split; [|vm_compute; reflexivity].
  exact (proj1 (load_timepoints_sorted Scenario.shuffled
                  Scenario.three_images eq_refl)).
Defined.

(** C10 fails as stated: a timepoints file may hold the literal [NaN],
    which [json.load] reads as a float, and no order of [<] places it.  Of
    the stored times 2.0, 1.0, NaN, 0.5 the sort returns 0.5, 1.0, 2.0,
    NaN, and with four images this is the interior boundary list: it is
    not non-decreasing, since 2.0 <= NaN does not hold. *)
Lemma load_timepoints_nan_unsorted :
  _load_timepoints Scenario.with_nan
  = [ Scenario.half; Float.of_Z 1; Float.of_Z 2; S754_nan ]
  /\ interior Scenario.with_nan Scenario.four_images
     = _load_timepoints Scenario.with_nan
  /\ nondecreasing (interior Scenario.with_nan Scenario.four_images) = false.
Proof. repeat split; vm_compute; reflexivity. Qed.

(** ** The batch *)

Section BatchFacts.
Context {T : Type} `{Number T}.

Lemma numbered_chapter_of (path digits : str) :
  search_digits path = Some digits -> chapter_of path = int_of_digits digits.
Proof. unfold chapter_of. now intros ->. Qed.

(** The loop of [process_all] runs every chapter, puts the ones that
    return in the summary and the ones that raise in the log. *)
Lemma process_all_loop_attempts (w : World T) (max_ssml_length : Z)
    (txt_files : list str) :
  forallb numbered txt_files = true ->
  forall (results : list Summary) (log : list (Z * Exn)) (temp : Temp),
    fst (process_all_loop w max_ssml_length txt_files (results, log) temp)
    = inr (results
           ++ flat_map summary_of
                (attempts w max_ssml_length txt_files temp),
           log
           ++ flat_map failure_of
                (attempts w max_ssml_length txt_files temp)).
Proof.
  induction txt_files as [|path rest IH]; intros Hall results log temp.
  - simpl. now rewrite !app_nil_r.
  - simpl in Hall. apply andb_prop in Hall. destruct Hall as [Hpath Hrest].
    cbn [process_all_loop attempts]. unfold numbered in Hpath.
    destruct (search_digits path) as [digits|] eqn:Hdigits; [|discriminate].
    rewrite (numbered_chapter_of path digits Hdigits).
    destruct (process_chapter w max_ssml_length path (int_of_digits digits)
                              temp) as [[exc|[mp3 tps]] temp'].
    + rewrite (IH Hrest). cbn [flat_map summary_of failure_of app].
      now rewrite <- app_assoc.
    + rewrite (IH Hrest). cbn [flat_map summary_of failure_of app].
      now rewrite <- app_assoc.
Qed.

Lemma attempts_chapters (w : World T) (max_ssml_length : Z)
    (txt_files : list str) :
  forall temp : Temp,
    map fst (attempts w max_ssml_length txt_files temp)
    = map chapter_of txt_files.
Proof.
  induction txt_files as [|path rest IH]; intros temp; [reflexivity|].
  cbn [attempts].
  destruct (process_chapter w max_ssml_length path (chapter_of path) temp)
    as [outcome temp'].
  cbn [map fst]. now rewrite IH.
Qed.

Lemma outcome_count (runs : list (Z * Result (Z * list (Timepoint T)))) :
  length (flat_map summary_of runs) + length (flat_map failure_of runs)
  = length runs.
Proof.
  induction runs as [|[chap_num [exc|[mp3 tps]]] runs IH]; [reflexivity| |];
    cbn [flat_map summary_of failure_of]; rewrite !length_app; simpl; lia.
Qed.

End BatchFacts.

(** C9, as the code has it.  When every script is named with a chapter
    number, [process_all] runs every chapter, in the order of the scripts,
    whether or not an earlier one failed, and each run ends either in the
    summary or in the log: the summary it returns lists, in order, the
    chapters whose run returned and nothing else, and a failure is only
    logged when it occurs.  Whether a chapter's run returns may depend on
    what the runs before it left in the temporary folder. *)
Theorem process_all_summary :
  forall (T : Type) (N : Number T) (w : World T) (max_ssml_length : Z)
         (txt_files : list str) (temp : Temp),
    forallb numbered txt_files = true ->
    let runs := attempts w max_ssml_length txt_files temp in
    fst (process_all w max_ssml_length txt_files temp)
    = inr (flat_map summary_of runs, flat_map failure_of runs)
    /\ map fst runs = map chapter_of txt_files
    /\ length (flat_map summary_of runs) + length (flat_map failure_of runs)
       = length txt_files.
Proof.
  intros T N w max_ssml_length txt_files temp Hall runs. split; [|split].
  - unfold process_all.
    now rewrite (process_all_loop_attempts w max_ssml_length txt_files Hall).
  - apply attempts_chapters.
  - rewrite outcome_count. unfold runs.
    rewrite <- (length_map fst), attempts_chapters. apply length_map.
Qed.

Lemma process_all_summary_witness :
  forallb numbered [lit "chapter1"; lit "chapter2"] = true
  /\ fst (process_all Scenario.world_mixed 4900
                      [lit "chapter1"; lit "chapter2"] [])
     = inr (flat_map summary_of
              (attempts Scenario.world_mixed 4900
                        [lit "chapter1"; lit "chapter2"] []),
            flat_map failure_of
              (attempts Scenario.world_mixed 4900
                        [lit "chapter1"; lit "chapter2"] [])).
Proof.
  split; [reflexivity|].
  exact (proj1 (process_all_summary Float.float binary64
                  Scenario.world_mixed 4900%Z
                  [lit "chapter1"; lit "chapter2"] [] eq_refl)).
Defined.

(** C9 fails as stated: of two chapters, the first fails with an HTTP
    error and the second succeeds; the summary returned has one item, for
    chapter 2, and nothing in it tells that chapter 1 failed or how. *)
Lemma process_all_summary_omits_failures :
  process_all Scenario.world_mixed 4900 [lit "chapter1"; lit "chapter2"] []
  = (inr ([ {| chapter := 2; audio := 2; n_timepoints := 0 |} ],
          [ (1%Z, HTTPError 500) ]),
     []).
Proof. vm_compute. reflexivity. Qed.

(** * Further properties of the code *)

(** ** Chapter numbers *)

Ltac char_code :=
  match goal with
  | |- context [Z.of_nat (nat_of_ascii ?c)] =>
      let v := eval vm_compute in (Z.of_nat (nat_of_ascii c)) in
      change (Z.of_nat (nat_of_ascii c)) with v
  end.

Lemma string_of_uint_digits (d : Decimal.uint) :
  forallb isdigit (lit (DecimalString.NilEmpty.string_of_uint d)) = true.
Proof. induction d; simpl; auto. Qed.

Lemma string_of_uint_nonempty (d : Decimal.uint) :
  d <> Decimal.Nil -> lit (DecimalString.NilEmpty.string_of_uint d) <> [].
Proof. destruct d; [congruence | discriminate ..]. Qed.

Lemma int_of_digits_acc (d : Decimal.uint) :
  forall acc : BinNums.positive,
    fold_left (fun n c => (10 * n + (Z.of_nat (nat_of_ascii c) - 48))%Z)
              (lit (DecimalString.NilEmpty.string_of_uint d)) (Zpos acc)
    = Zpos (Pos.of_uint_acc d acc).
Proof.
  induction d; intros acc;
    cbn [DecimalString.NilEmpty.string_of_uint lit list_ascii_of_string
         fold_left Pos.of_uint_acc];
    [reflexivity | rewrite <- IHd; f_equal; char_code; lia ..].
Qed.

Lemma int_of_digits_uint (d : Decimal.uint) :
  int_of_digits (lit (DecimalString.NilEmpty.string_of_uint d))
  = Z.of_N (Pos.of_uint d).
Proof.
  unfold int_of_digits.
  induction d;
    cbn [DecimalString.NilEmpty.string_of_uint lit list_ascii_of_string
         fold_left Pos.of_uint];
    [reflexivity | exact IHd | char_code; apply int_of_digits_acc ..].
Qed.

Lemma str_of_int_pos (p : BinNums.positive) :
  str_of_int (Zpos p)
  = lit (DecimalString.NilEmpty.string_of_uint (Pos.to_uint p)).
Proof.
  unfold str_of_int. cbn [Z.to_int DecimalString.NilZero.string_of_int].
  unfold DecimalString.NilZero.string_of_uint.
  destruct (Pos.to_uint p) eqn:Hp; try reflexivity.
  now apply DecimalPos.Unsigned.to_uint_nonnil in Hp.
Qed.

Lemma int_of_digits_str_of_int (n : Z) :
  (0 <= n)%Z -> int_of_digits (str_of_int n) = n.
Proof.
  destruct n as [|p|p]; intros Hn; [reflexivity | | lia].
  rewrite str_of_int_pos, int_of_digits_uint, DecimalPos.Unsigned.of_to.
  reflexivity.
Qed.

Lemma str_of_int_digits (n : Z) :
  (0 <= n)%Z ->
  forallb isdigit (str_of_int n) = true /\ str_of_int n <> [].
Proof.
  destruct n as [|p|p]; intros Hn;
    [split; [reflexivity | discriminate] | | lia].
  rewrite str_of_int_pos. split.
  - apply string_of_uint_digits.
  - apply string_of_uint_nonempty, DecimalPos.Unsigned.to_uint_nonnil.
Qed.

Lemma take_digits_app (digits after : str) :
  forallb isdigit digits = true ->
  match after with [] => true | c :: _ => negb (isdigit c) end = true ->
  take_digits (digits ++ after) = digits.
Proof.
  intros Hd Ha. induction digits as [|c digits IH]; simpl.
  - destruct after as [|a after]; [reflexivity|]. simpl.
    apply negb_true_iff in Ha. now rewrite Ha.
  - simpl in Hd. apply andb_prop in Hd. destruct Hd as [Hc Hd].
    now rewrite Hc, (IH Hd).
Qed.

Lemma search_digits_app (before digits after : str) :
  forallb (fun c => negb (isdigit c)) before = true ->
  digits <> [] ->
  forallb isdigit digits = true ->
  match after with [] => true | c :: _ => negb (isdigit c) end = true ->
  search_digits (before ++ digits ++ after) = Some digits.
Proof.
  intros Hb Hne Hd Ha. induction before as [|b before IH]; simpl.
  - destruct digits as [|c digits]; [congruence|].
    change ((c :: digits) ++ after) with (c :: digits ++ after).
    cbn [search_digits]. pose proof Hd as Hd'. simpl in Hd'.
    apply andb_prop in Hd'. destruct Hd' as [Hc _]. rewrite Hc.
    change (c :: digits ++ after) with ((c :: digits) ++ after).
    now rewrite (take_digits_app _ _ Hd Ha).
  - simpl in Hb. apply andb_prop in Hb. destruct Hb as [Hb0 Hb].
    apply negb_true_iff in Hb0. rewrite Hb0. exact (IH Hb).
Qed.

(** X1.  The chapter number that [process_all] reads from the name of a script
    is the number written in it: for a name made of a prefix without digits,
    the decimal numeral of [n >= 0] and a rest that does not start with a
    digit, the search for a run of digits followed by [int] gives [n]. *)
Theorem chapter_number_of_name :
  forall (n : Z) (before after : str),
    (0 <= n)%Z ->
    forallb (fun c => negb (isdigit c)) before = true ->
    match after with [] => true | c :: _ => negb (isdigit c) end = true ->
    option_map int_of_digits
               (search_digits (before ++ str_of_int n ++ after))
    = Some n.
Proof.
  intros n before after Hn Hb Ha.
  destruct (str_of_int_digits n Hn) as [Hd Hne].
  rewrite (search_digits_app _ _ _ Hb Hne Hd Ha). simpl.
  now rewrite int_of_digits_str_of_int.
Qed.

Lemma chapter_number_of_name_witness :
  option_map int_of_digits (search_digits (lit "chapter12_final"))
  = Some 12%Z.
Proof.
  apply (chapter_number_of_name 12 (lit "chapter") (lit "_final"));
    [lia | reflexivity | reflexivity].
Defined.

(** ** The batch of scripts *)

Section BatchAbort.
Context {T : Type} `{Number T}.

Lemma process_all_loop_unnumbered (w : World T) (max_ssml_length : Z)
    (txt_files : list str) :
  forallb numbered txt_files = false ->
  forall (st : list Summary * list (Z * Exn)) (temp : Temp),
    fst (process_all_loop w max_ssml_length txt_files st temp)
    = inl AttributeError.
Proof.
  induction txt_files as [|path rest IH]; intros Hall st temp;
    [discriminate|].
  simpl in Hall. unfold numbered at 1 in Hall. cbn [process_all_loop].
  destruct (search_digits path) as [digits|]; [|reflexivity].
  simpl in Hall. destruct st as [results log].
  destruct (process_chapter w max_ssml_length path (int_of_digits digits)
                            temp)
    as [[exc|[mp3 tps]] temp']; apply IH; exact Hall.
Qed.

End BatchAbort.

(** X2.  A script whose name holds no digit stops the batch: [process_all]
    raises [AttributeError], whatever the other chapters did, and returns no
    summary. *)
Theorem process_all_unnumbered :
  forall (T : Type) (N : Number T) (w : World T) (max_ssml_length : Z)
         (txt_files : list str) (temp : Temp),
    forallb numbered txt_files = false ->
    fst (process_all w max_ssml_length txt_files temp) = inl AttributeError.
Proof.
  intros T N w max_ssml_length txt_files temp Hall.
  apply process_all_loop_unnumbered. exact Hall.
Qed.

Lemma process_all_unnumbered_witness :
  forallb numbered [lit "chapter1"; lit "notes"] = false
  /\ fst (process_all Scenario.world_mixed 4900
                      [lit "chapter1"; lit "notes"] [])
     = inl AttributeError.
Proof.
  split; [reflexivity|].
  apply (process_all_unnumbered Float.float binary64 Scenario.world_mixed
           4900 [lit "chapter1"; lit "notes"] []).
  reflexivity.
Defined.

(** ** The temporary folder *)

Lemma same_file_eq (f g : ChunkFile) : same_file f g = true <-> f = g.
Proof.
  destruct f as [n i], g as [m j]. unfold same_file. cbn [fst snd].
  rewrite andb_true_iff, Z.eqb_eq, Nat.eqb_eq. split.
  - now intros [-> ->].
  - now intros [= -> ->].
Qed.

Lemma in_write_bytes (f g : ChunkFile) (temp : Temp) :
  In f (write_bytes g temp) <-> In f temp \/ f = g.
Proof.
  unfold write_bytes. destruct (existsb (same_file g) temp) eqn:Hex.
  - apply existsb_exists in Hex. destruct Hex as (h & Hh & Hsame).
    apply same_file_eq in Hsame. subst h. split; [now left|].
    intros [Hin| ->]; assumption.
  - rewrite in_app_iff. simpl. split.
    + intros [Hin|[<-|[]]]; auto.
    + intros [Hin| ->]; auto.
Qed.

Lemma in_unlink (f g : ChunkFile) (temp : Temp) :
  In f (unlink g temp) <-> In f temp /\ f <> g.
Proof.
  unfold unlink. rewrite filter_In, negb_true_iff. split.
  - intros [Hin Hne]. split; [exact Hin|]. intros ->.
    assert (Hsame : same_file g g = true) by now apply same_file_eq.
    congruence.
  - intros [Hin Hne]. split; [exact Hin|].
    destruct (same_file g f) eqn:Hsame; [|reflexivity].
    apply same_file_eq in Hsame. congruence.
Qed.

Lemma in_written (n : Z) (idxs : list nat) :
  forall (temp : Temp) (f : ChunkFile),
    In f (fold_left (fun t i => write_bytes (n, i) t) idxs temp)
    <-> In f temp \/ exists i, In i idxs /\ f = (n, i).
Proof.
  induction idxs as [|i idxs IH]; intros temp f; cbn [fold_left].
  - split; [now left|]. intros [Hin|(i & [] & _)]. exact Hin.
  - rewrite IH, in_write_bytes. split.
    + intros [[Hin| ->]|(j & Hj & ->)].
      * now left.
      * right. exists i. split; [now left | reflexivity].
      * right. exists j. split; [now right | reflexivity].
    + intros [Hin|(j & [<-|Hj] & ->)].
      * left. now left.
      * left. now right.
      * right. now exists j.
Qed.

Lemma in_unlinked (n : Z) (idxs : list nat) :
  forall (temp : Temp) (f : ChunkFile),
    In f (fold_left (fun t i => unlink (n, i) t) idxs temp)
    <-> In f temp /\ forall i, In i idxs -> f <> (n, i).
Proof.
  induction idxs as [|i idxs IH]; intros temp f; cbn [fold_left].
  - split; [intros Hin; split; [exact Hin | intros i []] | tauto].
  - rewrite IH, in_unlink. split.
    + intros [[Hin Hne] Hall]. split; [exact Hin|].
      intros j [<-|Hj]; auto.
    + intros [Hin Hall]. split; [split; [exact Hin|]|].
      * apply Hall. now left.
      * intros j Hj. apply Hall. now right.
Qed.

(** What is left of the folder when the chunk files [1..k] of chapter [n]
    have been written and removed: the files that are not among them. *)
Lemma in_folder_after (n : Z) (k : nat) (temp : Temp) (f : ChunkFile) :
  In f (fold_left (fun t i => unlink (n, i) t) (seq 1 k)
                  (fold_left (fun t i => write_bytes (n, i) t) (seq 1 k)
                             temp))
  <-> In f temp /\ ~ (fst f = n /\ 1 <= snd f <= k).
Proof.
  rewrite in_unlinked, in_written. split.
  - intros [[Hin|(i & Hi & ->)] Hne].
    + split; [exact Hin|]. intros [Hn Hk].
      apply (Hne (snd f)); [apply in_seq; lia|].
      destruct f as [m j]. simpl in *. now subst.
    + exfalso. now apply (Hne i).
  - intros [Hin Hown]. split; [now left|].
    intros i Hi ->. apply Hown. apply in_seq in Hi. simpl. split; [reflexivity | lia].
Qed.

Lemma folder_cleared (n : Z) (k : nat) (temp : Temp) :
  fold_left (fun t i => unlink (n, i) t) (seq 1 k)
            (fold_left (fun t i => write_bytes (n, i) t) (seq 1 k) temp)
  = []
  <-> forall f, In f temp -> fst f = n /\ 1 <= snd f <= k.
Proof.
  split.
  - intros Hempty f Hin.
    destruct (Z.eq_dec (fst f) n) as [Hn|Hn];
      [destruct (le_lt_dec 1 (snd f)) as [H1|H1];
       [destruct (le_lt_dec (snd f) k) as [Hk|Hk]; [now auto|]|]|];
      exfalso;
      (assert (Hleft : In f []);
       [rewrite <- Hempty; apply in_folder_after; split; [exact Hin | lia]
       | exact Hleft]).
  - intros Hown.
    destruct (fold_left (fun t i => unlink (n, i) t) (seq 1 k) _)
      as [|f rest] eqn:Hleft; [reflexivity|].
    exfalso.
    assert (Hin : In f (f :: rest)) by now left.
    rewrite <- Hleft in Hin. apply in_folder_after in Hin.
    destruct Hin as [Hin Hne]. apply Hne. now apply Hown.
Qed.

(** ** The chapter loop *)

Section ChapterFacts.
Context {T : Type} `{Number T}.

Lemma map_snd_combine_seq (chunks : list str) :
  forall start : nat,
    map snd (combine (seq start (length chunks)) chunks) = chunks.
Proof.
  induction chunks as [|chunk chunks IH]; intros start; simpl;
    [reflexivity | now rewrite IH].
Qed.

Lemma map_fst_combine_seq (chunks : list str) :
  forall start : nat,
    map fst (combine (seq start (length chunks)) chunks)
    = seq start (length chunks).
Proof.
  induction chunks as [|chunk chunks IH]; intros start; simpl;
    [reflexivity | now rewrite IH].
Qed.

(** What the call returns or raises depends neither on the file it writes
    nor on the folder; when it returns, the file is written. *)
Lemma synthesize_chunk_outcome (w : World T) (chunk : str)
    (mp3_out : ChunkFile) (temp : Temp) :
  fst (_synthesize_chunk w chunk mp3_out temp)
  = fst (_synthesize_chunk w chunk (0%Z, 0) [])
  /\ (forall result,
        fst (_synthesize_chunk w chunk mp3_out temp) = inr result ->
        snd (_synthesize_chunk w chunk mp3_out temp)
        = write_bytes mp3_out temp).
Proof.
  unfold _synthesize_chunk.
  destruct (post w chunk) as [|status_code json];
    [split; [reflexivity | discriminate]|].
  destruct ((400 <=? status_code) && (status_code <? 600))%Z;
    [split; [reflexivity | discriminate]|].
  destruct json as [data|]; [|split; [reflexivity | discriminate]].
  destruct (audioContent data) as [audio_data|];
    [|split; [reflexivity | discriminate]].
  unfold bind_run, update.
  destruct (decode_ms w audio_data) as [ms|];
    split; try reflexivity; discriminate.
Qed.

(** The inner loop reads the entries one by one and appends them rebased:
    it raises what the reading of the first unreadable entry raises. *)
Lemma append_items_entries (offset : T) (items : list (Json T)) :
  forall g : list (Timepoint T),
    append_items offset items g
    = (tps <- entries items ;; inr (append_timepoints offset tps g)).
Proof.
  induction items as [|tp items IH]; intros g; [reflexivity|].
  cbn [append_items entries]. unfold bind at 1 2 3 4 5 6.
  destruct (subscript tp "markName") as [e|name]; [reflexivity|].
  destruct (subscript tp "timeSeconds") as [e|time]; [reflexivity|].
  destruct (seconds time) as [e|t]; [reflexivity|].
  rewrite IH. unfold bind.
  destruct (entries items) as [e|tps]; reflexivity.
Qed.

Lemma accumulate_chunk_read (st : Acc T) (result : ChunkResult T) :
  accumulate_chunk st result
  = (r <- read_result result ;; inr (accumulate st r)).
Proof.
  destruct st as [g offset]. unfold accumulate_chunk, read_result.
  unfold bind at 1 3 4.
  destruct (iterate (chunk_timepoints result)) as [e|items]; [reflexivity|].
  rewrite append_items_entries. unfold bind.
  destruct (entries items) as [e|tps]; reflexivity.
Qed.

Lemma entries_json (tps : list (Timepoint T)) :
  entries (map entry_json tps) = inr tps.
Proof.
  induction tps as [|[name t] tps IH]; [reflexivity|].
  cbn [map entries]. unfold entry_json at 1. cbn [markName timeSeconds].
  unfold subscript at 1 2. cbn [find fst String.eqb Ascii.eqb Bool.eqb].
  unfold bind at 1 2 3. cbn [seconds]. rewrite IH. reflexivity.
Qed.

(** One turn of the loop of [process_chapter]. *)
Lemma chapter_loop_step (w : World T) (chapter_number : Z) (i : nat)
    (chunk : str) (rest : list (nat * str)) (st : list nat * Acc T)
    (temp : Temp) :
  chapter_loop w chapter_number ((i, chunk) :: rest) st temp
  = match chunk_result w chunk with
    | inl e =>
        (inl e, snd (_synthesize_chunk w chunk (chapter_number, i) temp))
    | inr r =>
        chapter_loop w chapter_number rest
                     (fst st ++ [i], accumulate (snd st) r)
                     (write_bytes (chapter_number, i) temp)
    end.
Proof.
  cbn [chapter_loop]. unfold bind_run at 1, chunk_result.
  destruct (synthesize_chunk_outcome w chunk (chapter_number, i) temp)
    as [Hfst Hsnd].
  rewrite <- Hfst.
  destruct (_synthesize_chunk w chunk (chapter_number, i) temp)
    as [[e|result] temp'] eqn:Hcall; cbn [fst snd bind] in *;
    [reflexivity|].
  rewrite (Hsnd result eq_refl).
  unfold bind_run, lift. rewrite accumulate_chunk_read. unfold bind.
  destruct (read_result result) as [e|r]; reflexivity.
Qed.

Lemma chapter_loop_success (w : World T) (chapter_number : Z)
    (chunks : list (nat * str)) :
  forall (st st' : list nat * Acc T) (temp temp' : Temp),
    chapter_loop w chapter_number chunks st temp = (inr st', temp')
    <-> exists results,
          Forall2 (fun chunk r => chunk_result w chunk = inr r)
                  (map snd chunks) results
          /\ st' = (fst st ++ map fst chunks,
                    fold_left accumulate results (snd st))
          /\ temp' = fold_left
                       (fun t i => write_bytes (chapter_number, i) t)
                       (map fst chunks) temp.
Proof.
  induction chunks as [|[i chunk] rest IH]; intros st st' temp temp'.
  - cbn [chapter_loop ret map fold_left]. split.
    + intros [= <- <-]. exists []. split; [constructor|].
      destruct st. simpl. now rewrite app_nil_r.
    + intros (results & HF & -> & ->). inversion HF; subst.
      destruct st. simpl. now rewrite app_nil_r.
  - rewrite chapter_loop_step. cbn [map fst snd fold_left].
    destruct (chunk_result w chunk) as [e|r] eqn:Hr.
    + split; [discriminate|]. intros (results & HF & _).
      inversion HF; subst. congruence.
    + rewrite IH. cbn [fst snd]. split; intros (results & HF & -> & ->).
      * exists (r :: results). split; [now constructor|].
        cbn [fold_left]. now rewrite <- app_assoc.
      * inversion HF as [|? r' ? results' Hr' HF']; subst.
        assert (r' = r) by congruence. subst r'.
        exists results'. split; [exact HF'|].
        cbn [fold_left]. now rewrite <- app_assoc.
Qed.

Lemma chapter_loop_failure (w : World T) (chapter_number : Z)
    (chunks : list (nat * str)) :
  forall (st : list nat * Acc T) (temp : Temp) (e : Exn),
    fst (chapter_loop w chapter_number chunks st temp) = inl e
    <-> exists ok c rest,
          map snd chunks = ok ++ c :: rest
          /\ Forall (fun chunk => exists r, chunk_result w chunk = inr r) ok
          /\ chunk_result w c = inl e.
Proof.
  induction chunks as [|[i chunk] rest IH]; intros st temp e.
  - cbn [chapter_loop ret fst map]. split; [discriminate|].
    intros (ok & c & rest & Heq & _). destruct ok; discriminate.
  - rewrite chapter_loop_step. cbn [map snd].
    destruct (chunk_result w chunk) as [e'|r] eqn:Hr.
    + cbn [fst]. split.
      * intros [= <-]. exists [], chunk, (map snd rest).
        split; [reflexivity|]. split; [constructor | exact Hr].
      * intros (ok & c & rest' & Heq & Hok & Hc).
        destruct ok as [|o ok]; simpl in Heq; injection Heq as <- _.
        -- congruence.
        -- inversion Hok as [|? ? [r' Hr'] _]; subst. congruence.
    + rewrite IH. split; intros (ok & c & rest' & Heq & Hok & Hc).
      * exists (chunk :: ok), c, rest'. split; [simpl; now rewrite Heq|].
        split; [constructor; [now exists r | exact Hok] | exact Hc].
      * destruct ok as [|o ok]; simpl in Heq; injection Heq as <- Heq.
        -- congruence.
        -- exists ok, c, rest'. split; [exact Heq|].
           split; [now inversion Hok | exact Hc].
Qed.

(** A run of the loop leaves in the folder what it found there and the
    chunk files of its chapter. *)
Lemma chapter_loop_keeps (w : World T) (chapter_number : Z)
    (chunks : list (nat * str)) :
  forall (st : list nat * Acc T) (temp : Temp) (f : ChunkFile),
    (In f temp ->
     In f (snd (chapter_loop w chapter_number chunks st temp)))
    /\ (In f (snd (chapter_loop w chapter_number chunks st temp)) ->
        In f temp \/ fst f = chapter_number).
Proof.
  induction chunks as [|[i chunk] rest IH]; intros st temp f.
  - cbn [chapter_loop ret snd]. tauto.
  - rewrite chapter_loop_step.
    assert (Hcall : snd (_synthesize_chunk w chunk (chapter_number, i) temp)
                    = temp
                    \/ snd (_synthesize_chunk w chunk (chapter_number, i)
                                              temp)
                       = write_bytes (chapter_number, i) temp).
    { unfold _synthesize_chunk.
      destruct (post w chunk) as [|status_code json]; [now left|].
      destruct ((400 <=? status_code) && (status_code <? 600))%Z;
        [now left|].
      destruct json as [data|]; [|now left].
      destruct (audioContent data) as [audio_data|]; [|now left].
      unfold bind_run, update.
      destruct (decode_ms w audio_data); now right. }
    destruct (chunk_result w chunk) as [e|r].
    + cbn [snd]. destruct Hcall as [-> | ->]; [tauto|].
      rewrite in_write_bytes. split; [tauto|].
      intros [Hin| ->]; [now left | now right].
    + destruct (IH (fst st ++ [i], accumulate (snd st) r)
                   (write_bytes (chapter_number, i) temp) f) as [IH1 IH2].
      split.
      * intros Hin. apply IH1. apply in_write_bytes. now left.
      * intros Hin. destruct (IH2 Hin) as [Hw|Hn]; [|now right].
        apply in_write_bytes in Hw. destruct Hw as [Hw| ->];
          [now left | now right].
Qed.

Lemma synthesis_results_unique (w : World T) (chunks : list str) :
  forall results results' : list (SynthesisResult T),
    Forall2 (fun chunk r => chunk_result w chunk = inr r) chunks results ->
    Forall2 (fun chunk r => chunk_result w chunk = inr r)
            chunks results' ->
    results' = results.
Proof.
  induction chunks as [|chunk chunks IH]; intros results results' HF HF';
    inversion HF; inversion HF'; subst; [reflexivity|].
  f_equal; [congruence | now apply IH].
Qed.


(** [process_chapter] after its loop: the chunk files are removed, and
    then the folder, which must be empty. *)
Lemma process_chapter_after_loop (w : World T) (max_ssml_length : Z)
    (txt_file content : str) (chapter_number : Z) (temp : Temp) :
  read_text w txt_file = Some content ->
  let chunks := _split_ssml max_ssml_length (wrap (strip content)) in
  process_chapter w max_ssml_length txt_file chapter_number temp
  = match chapter_loop w chapter_number
                       (combine (seq 1 (length chunks)) chunks)
                       ([], ([], zero)) temp with
    | (inl e, temp1) => (inl e, temp1)
    | (inr (chunk_files, (global_timepoints, _)), temp1) =>
        match fold_left (fun t i => unlink (chapter_number, i) t)
                        chunk_files temp1 with
        | [] => (inr (chapter_number, global_timepoints), [])
        | f :: others => (inl OSError, f :: others)
        end
    end.
Proof.
  intros Hread chunks. unfold process_chapter. rewrite Hread. fold chunks.
  unfold bind_run at 1.
  destruct (chapter_loop w chapter_number
              (combine (seq 1 (length chunks)) chunks) ([], ([], zero)) temp)
    as [[e|[chunk_files [g offset]]] temp1]; [reflexivity|].
  unfold bind_run, update, rmdir, ret.
  destruct (fold_left (fun t i => unlink (chapter_number, i) t)
                      chunk_files temp1); reflexivity.
Qed.

(** The run of a chapter, in the terms of its chunks' results. *)
Lemma process_chapter_run (w : World T) (max_ssml_length : Z)
    (txt_file content : str) (chapter_number : Z) (temp : Temp) :
  read_text w txt_file = Some content ->
  let chunks := _split_ssml max_ssml_length (wrap (strip content)) in
  (forall results,
     Forall2 (fun chunk r => chunk_result w chunk = inr r) chunks results ->
     process_chapter w max_ssml_length txt_file chapter_number temp
     = match fold_left (fun t i => unlink (chapter_number, i) t)
                       (seq 1 (length chunks))
                       (fold_left
                          (fun t i => write_bytes (chapter_number, i) t)
                          (seq 1 (length chunks)) temp) with
       | [] => (inr (chapter_number, rebased_from zero results), [])
       | f :: others => (inl OSError, f :: others)
       end)
  /\ (forall e,
        fst (chapter_loop w chapter_number
                          (combine (seq 1 (length chunks)) chunks)
                          ([], ([], zero)) temp) = inl e ->
        fst (process_chapter w max_ssml_length txt_file chapter_number temp)
        = inl e).
Proof.
  intros Hread chunks. unfold process_chapter. rewrite Hread. fold chunks.
  split.
  - intros results HF.
    assert (Hloop : chapter_loop w chapter_number
                      (combine (seq 1 (length chunks)) chunks)
                      ([], ([], zero)) temp
                    = (inr ([] ++ seq 1 (length chunks),
                            fold_left accumulate results ([], zero)),
                       fold_left
                         (fun t i => write_bytes (chapter_number, i) t)
                         (seq 1 (length chunks)) temp)).
    { apply chapter_loop_success. exists results.
      rewrite map_snd_combine_seq, map_fst_combine_seq. auto. }
    unfold bind_run at 1. rewrite Hloop. cbn [app].
    rewrite fold_accumulate. cbn [app].
    unfold bind_run, update, rmdir, ret.
    destruct (fold_left (fun t i => unlink (chapter_number, i) t) _ _);
      reflexivity.
  - intros e Hfail. unfold bind_run at 1.
    destruct (chapter_loop w chapter_number
                (combine (seq 1 (length chunks)) chunks)
                ([], ([], zero)) temp) as [[e'|st'] temp'];
      cbn [fst] in *; [now injection Hfail as -> | discriminate].
Qed.

End ChapterFacts.

(** X3.  Up to the joining of the audio files and the writing of the outputs,
    which are outside the model, [process_chapter] returns exactly when the
    script can be read, the service answers every chunk of it with
    timepoints that the loop can read, and the temporary folder holds no
    file but chunk files that this run writes again.  It then leaves the
    folder empty, and what it returns is the chapter's number and the time
    stamps of the answers, in order, each shifted by the durations of the
    chunks before its own. *)
Theorem process_chapter_succeeds_iff :
  forall (T : Type) (N : Number T) (w : World T) (max_ssml_length : Z)
         (txt_file : str) (chapter_number audio_out : Z)
         (temp temp' : Temp) (global_timepoints : list (Timepoint T)),
    process_chapter w max_ssml_length txt_file chapter_number temp
    = (inr (audio_out, global_timepoints), temp')
    <-> audio_out = chapter_number
        /\ temp' = []
        /\ exists content results,
             read_text w txt_file = Some content
             /\ Forall2 (fun chunk r => chunk_result w chunk = inr r)
                        (_split_ssml max_ssml_length (wrap (strip content)))
                        results
             /\ (forall f, In f temp ->
                   fst f = chapter_number
                   /\ 1 <= snd f
                      <= length (_split_ssml max_ssml_length
                                             (wrap (strip content))))
             /\ global_timepoints = rebased_from zero results.
Proof.
  intros T N w max_ssml_length txt_file chapter_number audio_out temp temp'
         global_timepoints.
  destruct (read_text w txt_file) as [content|] eqn:Hread.
  2:{ unfold process_chapter. rewrite Hread. split; [discriminate|].
      intros (_ & _ & content & results & Hr & _). discriminate. }
  destruct (process_chapter_run w max_ssml_length txt_file content
              chapter_number temp Hread) as [Hrun Hfail].
  cbv zeta in Hrun, Hfail.
  set (chunks := _split_ssml max_ssml_length (wrap (strip content))) in *.
  pose proof (folder_cleared chapter_number (length chunks) temp) as Hclear.
  destruct (chapter_loop w chapter_number
              (combine (seq 1 (length chunks)) chunks) ([], ([], zero)) temp)
    as [[e|st'] temp1] eqn:Hloop.
  - specialize (Hfail e eq_refl). split.
    + intros Hret. rewrite Hret in Hfail. discriminate.
    + intros (_ & _ & content' & results & [= <-] & HF & _).
      assert (Hok : chapter_loop w chapter_number
                      (combine (seq 1 (length chunks)) chunks)
                      ([], ([], zero)) temp
                    = (inr ([] ++ seq 1 (length chunks),
                            fold_left accumulate results ([], zero)),
                       fold_left
                         (fun t i => write_bytes (chapter_number, i) t)
                         (seq 1 (length chunks)) temp)).
      { apply chapter_loop_success. exists results.
        rewrite map_snd_combine_seq, map_fst_combine_seq. auto. }
      congruence.
  - apply chapter_loop_success in Hloop.
    destruct Hloop as (results & HF & _ & _).
    rewrite map_snd_combine_seq in HF.
    rewrite (Hrun results HF).
    destruct (fold_left (fun t i => unlink (chapter_number, i) t) _ _)
      as [|f others] eqn:Hleft.
    + split.
      * intros [= <- <- <-]. split; [reflexivity|]. split; [reflexivity|].
        exists content, results. repeat split; try assumption;
          now apply (proj1 Hclear eq_refl).
      * intros (-> & -> & content' & results' & [= <-] & HF' & _ & ->).
        now rewrite (synthesis_results_unique w _ _ _ HF HF').
    + split; [discriminate|].
      intros (_ & _ & content' & results' & [= <-] & _ & Hown & _).
      apply Hclear in Hown. discriminate.
Qed.

(** X4.  Up to the joining of the audio files and the writing of the outputs,
    which are outside the model, [process_chapter] fails in exactly three
    ways: the script cannot be read; or the service fails on a chunk, or
    answers it with timepoints that the loop cannot read, after the chunks
    before it went well, and the exception is the one of that chunk; or
    every chunk went well and the temporary folder holds a file that is no
    chunk file of this run, so that removing the folder raises [OSError]. *)
Theorem process_chapter_fails_iff :
  forall (T : Type) (N : Number T) (w : World T) (max_ssml_length : Z)
         (txt_file : str) (chapter_number : Z) (temp : Temp) (e : Exn),
    fst (process_chapter w max_ssml_length txt_file chapter_number temp)
    = inl e
    <-> (read_text w txt_file = None /\ e = FileNotFoundError)
        \/ (exists content ok c rest,
              read_text w txt_file = Some content
              /\ _split_ssml max_ssml_length (wrap (strip content))
                 = ok ++ c :: rest
              /\ Forall (fun chunk =>
                           exists r, chunk_result w chunk = inr r) ok
              /\ chunk_result w c = inl e)
        \/ (exists content results f,
              read_text w txt_file = Some content
              /\ Forall2 (fun chunk r => chunk_result w chunk = inr r)
                         (_split_ssml max_ssml_length (wrap (strip content)))
                         results
              /\ In f temp
              /\ ~ (fst f = chapter_number
                    /\ 1 <= snd f
                       <= length (_split_ssml max_ssml_length
                                              (wrap (strip content))))
              /\ e = OSError).
Proof.
  intros T N w max_ssml_length txt_file chapter_number temp e.
  destruct (read_text w txt_file) as [content|] eqn:Hread.
  2:{ unfold process_chapter. rewrite Hread. cbn [raise fst]. split.
      - intros [= <-]. now left.
      - intros [[_ ->]|[(content & ok & c & rest & Hr & _)
                       |(content & results & f & Hr & _)]];
          [reflexivity | discriminate | discriminate]. }
  destruct (process_chapter_run w max_ssml_length txt_file content
              chapter_number temp Hread) as [Hrun Hfail].
  cbv zeta in Hrun, Hfail.
  set (chunks := _split_ssml max_ssml_length (wrap (strip content))) in *.
  pose proof (chapter_loop_failure w chapter_number
                (combine (seq 1 (length chunks)) chunks)
                ([], ([], zero)) temp) as Hchunk.
  rewrite map_snd_combine_seq in Hchunk.
  destruct (chapter_loop w chapter_number
              (combine (seq 1 (length chunks)) chunks) ([], ([], zero)) temp)
    as [[e'|st'] temp1] eqn:Hloop.
  - rewrite (Hfail e' eq_refl). split.
    + intros [= <-]. right; left.
      destruct (proj1 (Hchunk e') eq_refl) as (ok & c & rest & Heq & Hok & Hc).
      exists content, ok, c, rest. auto.
    + intros [[Hr _]|[(content' & ok & c & rest & [= <-] & Heq & Hok & Hc)
                     |(content' & results & f & [= <-] & HF & _)]].
      * discriminate.
      * assert (He : fst (@inl Exn (list nat * Acc T) e', temp1) = inl e)
          by (apply Hchunk; exists ok, c, rest; auto).
        cbn [fst] in He. now injection He as ->.
      * assert (Hok : chapter_loop w chapter_number
                        (combine (seq 1 (length chunks)) chunks)
                        ([], ([], zero)) temp
                      = (inr ([] ++ seq 1 (length chunks),
                              fold_left accumulate results ([], zero)),
                         fold_left
                           (fun t i => write_bytes (chapter_number, i) t)
                           (seq 1 (length chunks)) temp)).
        { apply chapter_loop_success. exists results.
          rewrite map_snd_combine_seq, map_fst_combine_seq. auto. }
        congruence.
  - apply chapter_loop_success in Hloop.
    destruct Hloop as (results & HF & _ & _).
    rewrite map_snd_combine_seq in HF.
    rewrite (Hrun results HF).
    pose proof (in_folder_after chapter_number (length chunks) temp)
      as Hleft.
    destruct (fold_left (fun t i => unlink (chapter_number, i) t) _ _)
      as [|f others].
    + cbn [fst]. split; [discriminate|].
      intros [[Hr _]|[(content' & ok & c & rest & [= <-] & Heq & Hok & Hc)
                     |(content' & results' & f & [= <-] & _ & Hin & Hown
                       & _)]].
      * discriminate.
      * assert (He : fst (@inr Exn (list nat * Acc T) st', temp1) = inl e)
          by (apply Hchunk; exists ok, c, rest; auto).
        discriminate.
      * exfalso. apply (proj2 (Hleft f)). auto.
    + cbn [fst]. split.
      * intros [= <-]. right; right.
        destruct (proj1 (Hleft f) ltac:(now left)) as [Hin Hown].
        exists content, results, f. auto.
      * intros [[Hr _]|[(content' & ok & c & rest & [= <-] & Heq & Hok & Hc)
                       |(content' & results' & f' & _ & _ & _ & _ & ->)]].
        -- discriminate.
        -- assert (He : fst (@inr Exn (list nat * Acc T) st', temp1) = inl e)
             by (apply Hchunk; exists ok, c, rest; auto).
           discriminate.
        -- reflexivity.
Qed.


(** X27.  The loop body of [process_chapter], after the synthesis call, is
    the accumulator applied to the result as the loop reads it: it raises
    what the reading of the reply's timepoints raises, and otherwise appends
    the entries rebased and adds the duration.  On a reply whose timepoints
    are a list of entries with a name and a float, it is the accumulator
    itself. *)
Theorem accumulate_chunk_reads :
  forall (T : Type) (N : Number T) (st : Acc T),
    (forall result : ChunkResult T,
       accumulate_chunk st result
       = (r <- read_result result ;; inr (accumulate st r)))
    /\ (forall r : SynthesisResult T,
          accumulate_chunk st
            {| chunk_duration := duration r;
               chunk_timepoints := timepoints_json (timepoints r) |}
          = inr (accumulate st r)).
Proof.
  intros T N st. split.
  - apply accumulate_chunk_read.
  - intros [d tps]. rewrite accumulate_chunk_read.
    unfold read_result. cbn [chunk_timepoints chunk_duration duration
                             timepoints timepoints_json iterate].
    unfold bind at 2. cbn iota beta. rewrite entries_json. reflexivity.
Qed.

(** ** Chunk files left behind *)

Section Leftover.
Context {T : Type} `{Number T}.

(** A chapter that finds a chunk file of another chapter in the folder
    fails, and leaves that file where it is. *)
Lemma process_chapter_blocked (w : World T) (max_ssml_length : Z)
    (txt_file : str) (chapter_number : Z) (temp : Temp) (f : ChunkFile) :
  In f temp -> fst f <> chapter_number ->
  (exists e,
     fst (process_chapter w max_ssml_length txt_file chapter_number temp)
     = inl e)
  /\ In f (snd (process_chapter w max_ssml_length txt_file chapter_number
                                temp)).
Proof.
  intros Hin Hne.
  destruct (read_text w txt_file) as [content|] eqn:Hread.
  2:{ unfold process_chapter. rewrite Hread.
      split; [now exists FileNotFoundError | exact Hin]. }
  rewrite (process_chapter_after_loop w max_ssml_length txt_file content
             chapter_number temp Hread). cbv zeta.
  set (chunks := _split_ssml max_ssml_length (wrap (strip content))).
  pose proof (proj1 (chapter_loop_keeps w chapter_number
                       (combine (seq 1 (length chunks)) chunks)
                       ([], ([], zero)) temp f) Hin) as Hkept.
  destruct (chapter_loop w chapter_number
              (combine (seq 1 (length chunks)) chunks) ([], ([], zero)) temp)
    as [[e|[chunk_files [g offset]]] temp1]; cbn [snd] in Hkept.
  - split; [now exists e | exact Hkept].
  - assert (Hleft : In f (fold_left
                            (fun t i => unlink (chapter_number, i) t)
                            chunk_files temp1)).
    { apply in_unlinked. split; [exact Hkept|].
      intros i _ ->. now apply Hne. }
    destruct (fold_left (fun t i => unlink (chapter_number, i) t)
                        chunk_files temp1) as [|f0 others];
      [contradiction|].
    split; [now exists OSError | exact Hleft].
Qed.

(** The files that a chapter's run leaves in the folder were there before,
    or are chunk files of the chapter. *)
Lemma process_chapter_leaves (w : World T) (max_ssml_length : Z)
    (txt_file : str) (chapter_number : Z) (temp : Temp) (f : ChunkFile) :
  In f (snd (process_chapter w max_ssml_length txt_file chapter_number temp))
  -> In f temp \/ fst f = chapter_number.
Proof.
  destruct (read_text w txt_file) as [content|] eqn:Hread.
  2:{ unfold process_chapter. rewrite Hread. now left. }
  rewrite (process_chapter_after_loop w max_ssml_length txt_file content
             chapter_number temp Hread). cbv zeta.
  set (chunks := _split_ssml max_ssml_length (wrap (strip content))).
  pose proof (proj2 (chapter_loop_keeps w chapter_number
                       (combine (seq 1 (length chunks)) chunks)
                       ([], ([], zero)) temp f)) as Hkept.
  destruct (chapter_loop w chapter_number
              (combine (seq 1 (length chunks)) chunks) ([], ([], zero)) temp)
    as [[e|[chunk_files [g offset]]] temp1]; cbn [snd] in *;
    [exact Hkept|].
  destruct (fold_left (fun t i => unlink (chapter_number, i) t)
                      chunk_files temp1) as [|f0 others] eqn:Hleft;
    cbn [snd]; [contradiction|].
  rewrite <- Hleft. intros Hin. apply in_unlinked in Hin.
  apply Hkept. tauto.
Qed.

Lemma process_all_loop_blocked (w : World T) (max_ssml_length : Z)
    (txt_files : list str) :
  forall (results : list Summary) (log : list (Z * Exn)) (temp : Temp)
         (f : ChunkFile),
    forallb numbered txt_files = true ->
    In f temp ->
    (forall path, In path txt_files -> chapter_of path <> fst f) ->
    exists log' temp',
      process_all_loop w max_ssml_length txt_files (results, log) temp
      = (inr (results, log ++ log'), temp')
      /\ map fst log' = map chapter_of txt_files
      /\ In f temp'.
Proof.
  induction txt_files as [|path rest IH];
    intros results log temp f Hall Hin Hother.
  - exists [], temp. cbn [process_all_loop ret]. now rewrite app_nil_r.
  - simpl in Hall. apply andb_prop in Hall. destruct Hall as [Hpath Hrest].
    cbn [process_all_loop]. unfold numbered in Hpath.
    pose proof (Hother path ltac:(now left)) as Hne.
    unfold chapter_of in Hne |- *. cbn [map].
    destruct (search_digits path) as [digits|]; [|discriminate].
    destruct (process_chapter_blocked w max_ssml_length path
                (int_of_digits digits) temp f Hin ltac:(congruence))
      as [[e He] Hkept].
    destruct (process_chapter w max_ssml_length path (int_of_digits digits)
                              temp) as [[exc|ok] temp1];
      cbn [fst snd] in *; [|discriminate].
    injection He as ->.
    destruct (IH results (log ++ [(int_of_digits digits, e)]) temp1 f
                 Hrest Hkept ltac:(intros p Hp; apply Hother; now right))
      as (log' & temp' & Hloop & Hlog & Hleft).
    exists ((int_of_digits digits, e) :: log'), temp'.
    rewrite Hloop, <- app_assoc. cbn [app map fst].
    fold (chapter_of) in Hlog. rewrite Hlog. auto.
Qed.

End Leftover.

(** X28.  A failure does not stay with its chapter.  When a chapter of a
    batch fails after a chunk of it was written, the chunk file stays in
    the temporary folder, which every chapter shares, and no later chapter
    with another number completes: each one fails, the summary stays
    empty, and the file is still there at the end. *)
Theorem process_all_failure_spreads :
  forall (T : Type) (N : Number T) (w : World T) (max_ssml_length : Z)
         (path : str) (rest : list str) (e : Exn) (temp1 : Temp),
    forallb numbered (path :: rest) = true ->
    process_chapter w max_ssml_length path (chapter_of path) []
    = (inl e, temp1) ->
    temp1 <> [] ->
    (forall later, In later rest -> chapter_of later <> chapter_of path) ->
    exists log temp',
      process_all w max_ssml_length (path :: rest) []
      = (inr ([], (chapter_of path, e) :: log), temp')
      /\ map fst log = map chapter_of rest
      /\ temp' <> [].
Proof.
  intros T N w max_ssml_length path rest e temp1 Hall Hfail Hleft Hother.
  simpl in Hall. apply andb_prop in Hall. destruct Hall as [Hpath Hrest].
  destruct temp1 as [|f others]; [congruence|].
  assert (Hown : fst f = chapter_of path).
  { destruct (process_chapter_leaves w max_ssml_length path (chapter_of path)
                [] f) as [[]|Hn]; [|exact Hn].
    rewrite Hfail. now left. }
  destruct (process_all_loop_blocked w max_ssml_length rest []
              [(chapter_of path, e)] (f :: others) f Hrest
              ltac:(now left)
              ltac:(intros p Hp; rewrite Hown; now apply Hother))
    as (log & temp' & Hloop & Hlog & Hin).
  exists log, temp'. split; [|split; [exact Hlog|]].
  - unfold process_all. cbn [process_all_loop].
    unfold numbered in Hpath. unfold chapter_of in Hfail, Hloop |- *.
    destruct (search_digits path) as [digits|]; [|discriminate].
    rewrite Hfail. exact Hloop.
  - intros ->. exact Hin.
Qed.

Lemma process_all_failure_spreads_witness :
  forallb numbered [lit "chapter1"; lit "chapter2"] = true
  /\ process_chapter Scenario.world_interrupted 10 (lit "chapter1") 1 []
     = (inl (HTTPError 429), [(1%Z, 1)])
  /\ process_chapter Scenario.world_interrupted 10 (lit "chapter2") 2 []
     = (inr (2%Z, []), [])
  /\ process_all Scenario.world_interrupted 10
                 [lit "chapter1"; lit "chapter2"] []
     = (inr ([], [(1%Z, HTTPError 429); (2%Z, OSError)]), [(1%Z, 1)])
  /\ exists log temp',
       process_all Scenario.world_interrupted 10
                   [lit "chapter1"; lit "chapter2"] []
       = (inr ([], (1%Z, HTTPError 429) :: log), temp')
       /\ map fst log = [2%Z]
       /\ temp' <> [].
Proof.
  split; [reflexivity|].
  split; [vm_compute; reflexivity|].
  split; [vm_compute; reflexivity|].
  split; [vm_compute; reflexivity|].
  apply (process_all_failure_spreads Float.float binary64
           Scenario.world_interrupted 10 (lit "chapter1") [lit "chapter2"]
           (HTTPError 429) [(1%Z, 1)]).
  - reflexivity.
  - vm_compute. reflexivity.
  - discriminate.
  - intros later [<-|[]]. vm_compute. discriminate.
Defined.

(** ** The greedy packing of [_split_ssml] *)

Lemma map_dewrap_wrap (bodies : list str) :
  map dewrap (map wrap bodies) = bodies.
Proof.
  induction bodies as [|body bodies IH]; simpl; [reflexivity|].
  now rewrite dewrap_wrap, IH.
Qed.

(** A part closes the current chunk only when it does not fit in it. *)
Lemma pack_greedy (max_ssml_length : Z) (parts : list str) :
  forall (current : str) (pre : list str) (b1 b2 : str) (post : list str),
    pack max_ssml_length current parts = pre ++ b1 :: b2 :: post ->
    exists part rest,
      In part parts /\ b2 = part ++ rest
      /\ (max_ssml_length < len b1 + len part)%Z.
Proof.
  induction parts as [|part rest IH]; intros current pre b1 b2 post Hpack;
    simpl in Hpack.
  - destruct pre as [|p [|p' pre]]; discriminate.
  - destruct (len current + len part >? max_ssml_length)%Z eqn:Hover.
    + destruct pre as [|p pre]; simpl in Hpack;
        injection Hpack as Hcur Hrest.
      * subst b1.
        destruct (pack_head max_ssml_length rest part)
          as (v & after & Hhead & _).
        rewrite Hhead in Hrest. injection Hrest as <- _.
        exists part, v. split; [now left|]. split; [reflexivity|].
        apply Z.gtb_lt in Hover. lia.
      * destruct (IH _ _ _ _ _ Hrest) as (part' & rest' & Hin & Hb2 & Hlen).
        exists part', rest'. split; [now right | auto].
    + destruct (IH _ _ _ _ _ Hpack) as (part' & rest' & Hin & Hb2 & Hlen).
      exists part', rest'. split; [now right | auto].
Qed.

Lemma drop_empty_last_prefix (bodies : list str) :
  exists tail, bodies = drop_empty_last bodies ++ tail.
Proof.
  unfold drop_empty_last. destruct bodies as [|b bs]; [now exists []|].
  destruct (last (b :: bs) []) eqn:Hlast.
  - exists [[]]. rewrite <- Hlast. apply app_removelast_last. discriminate.
  - exists []. now rewrite app_nil_r.
Qed.

(** X6.  The packing is greedy: when [_split_ssml] ends a chunk and starts the
    next, the chunk that follows starts with a part of the document that did
    not fit in the chunk that was ended. *)
Theorem split_ssml_greedy :
  forall (max_ssml_length : Z) (doc : str)
         (pre : list str) (b1 b2 : str) (post : list str),
    map dewrap (_split_ssml max_ssml_length (wrap doc))
    = pre ++ b1 :: b2 :: post ->
    exists part rest,
      In part (re_split doc) /\ b2 = part ++ rest
      /\ (max_ssml_length < len b1 + len part)%Z.
Proof.
  intros max_ssml_length doc pre b1 b2 post. rewrite split_ssml_pack.
  destruct (len doc <=? max_ssml_length)%Z.
  - destruct pre as [|p [|p' pre]]; discriminate.
  - rewrite map_dewrap_wrap. intros Hsplit.
    destruct (drop_empty_last_prefix
                (pack max_ssml_length [] (re_split doc))) as [tail Htail].
    rewrite Hsplit, <- app_assoc in Htail. simpl in Htail.
    exact (pack_greedy _ _ _ _ _ _ _ Htail).
Qed.

Lemma split_ssml_greedy_witness :
  map dewrap (_split_ssml 6 (wrap Scenario.script))
  = [] ++ lit "Hello" :: Scenario.mark_p1
          :: [ lit "World!!"; Scenario.mark_p2 ]
  /\ exists part rest,
       In part (re_split Scenario.script)
       /\ Scenario.mark_p1 = part ++ rest
       /\ (6 < len (lit "Hello") + len part)%Z.
Proof.
  split; [vm_compute; reflexivity|].
  apply (split_ssml_greedy 6 Scenario.script [] (lit "Hello")
           Scenario.mark_p1 [ lit "World!!"; Scenario.mark_p2 ]).
  vm_compute. reflexivity.
Defined.

(** X7.  When the first part of a document is longer than the maximum,
    [_split_ssml] starts with an empty chunk: the loop ends the current chunk
    before it holds anything. *)
Theorem split_ssml_empty_first_chunk :
  forall (max_ssml_length : Z) (doc first : str) (rest : list str),
    re_split doc = first :: rest ->
    (max_ssml_length < len first)%Z ->
    exists chunks,
      _split_ssml max_ssml_length (wrap doc)
      = lit "<speak></speak>" :: chunks.
Proof.
  intros max_ssml_length doc first rest Hparts Hlong.
  rewrite split_ssml_pack.
  assert (Hdoc : (len first <= len doc)%Z).
  { pose proof (re_split_concat doc) as Hcat. rewrite Hparts in Hcat.
    simpl in Hcat. rewrite <- Hcat. unfold len. rewrite length_app. lia. }
  destruct (len doc <=? max_ssml_length)%Z eqn:Hfit;
    [apply Z.leb_le in Hfit; lia|].
  rewrite Hparts. cbn [pack].
  assert (Hover : (len [] + len first >? max_ssml_length)%Z = true).
  { change (len []) with 0%Z. rewrite Z.gtb_ltb. apply Z.ltb_lt. lia. }
  rewrite Hover.
  destruct (pack_head max_ssml_length rest first) as (v & after & Hhead & _).
  rewrite Hhead. unfold drop_empty_last.
  change (last ([] :: (first ++ v) :: after) [])
    with (last ((first ++ v) :: after) []).
  change (removelast ([] :: (first ++ v) :: after))
    with ([] :: removelast ((first ++ v) :: after)).
  destruct (last ((first ++ v) :: after) []); cbn [map];
    eexists; reflexivity.
Qed.

Lemma split_ssml_empty_first_chunk_witness :
  re_split (lit "World!!") = [ lit "World!!" ]
  /\ (6 < len (lit "World!!"))%Z
  /\ exists chunks,
       _split_ssml 6 (wrap (lit "World!!"))
       = lit "<speak></speak>" :: chunks.
Proof.
  split; [reflexivity|]. split; [reflexivity|].
  apply (split_ssml_empty_first_chunk 6 (lit "World!!") (lit "World!!") []);
    reflexivity.
Defined.

(** X8.  A document longer than the maximum gives at least one chunk, and the
    last chunk is never empty: an accumulation that is empty when the loop
    ends makes no chunk. *)
Theorem split_ssml_last_chunk :
  forall (max_ssml_length : Z) (doc : str),
    (0 <= max_ssml_length)%Z ->
    (max_ssml_length < len doc)%Z ->
    exists chunks body,
      _split_ssml max_ssml_length (wrap doc) = chunks ++ [wrap body]
      /\ body <> [].
Proof.
  intros max_ssml_length doc Hmax Hlong. rewrite split_ssml_pack.
  destruct (len doc <=? max_ssml_length)%Z eqn:Hfit;
    [apply Z.leb_le in Hfit; lia|].
  pose proof (pack_concat max_ssml_length (re_split doc) []) as Hcat.
  rewrite re_split_concat in Hcat. simpl in Hcat.
  pose proof (pack_nonempty max_ssml_length (re_split doc) []) as Hne.
  set (bodies := pack max_ssml_length [] (re_split doc)) in *.
  pose proof (app_removelast_last (l := bodies) [] Hne) as Hsnoc.
  unfold drop_empty_last.
  destruct (last bodies []) as [|c body] eqn:Hlast.
  - destruct (removelast bodies) as [|b0 closed] eqn:Hclosed.
    + rewrite Hsnoc in Hcat. simpl in Hcat. subst doc.
      change (len []) with 0%Z in Hlong. lia.
    + assert (Hcne : b0 :: closed <> []) by discriminate.
      destruct (exists_last Hcne) as (closed' & b & Hclosed').
      rewrite Hclosed' in *.
      exists (map wrap closed'), b. split.
      * now rewrite map_app.
      * intros Hempty.
        assert (Hpack : pack max_ssml_length [] (re_split doc)
                        = closed' ++ b :: [] :: []).
        { fold bodies. rewrite Hsnoc, <- app_assoc. reflexivity. }
        destruct (pack_greedy _ _ _ _ _ _ _ Hpack)
          as (part & rest & _ & Hsplit & Hlen).
        symmetry in Hsplit. apply app_eq_nil in Hsplit.
        destruct Hsplit as [-> _]. rewrite Hempty in Hlen.
        change (len []) with 0%Z in Hlen. lia.
  - exists (map wrap (removelast bodies)), (c :: body).
    split; [|discriminate].
    rewrite Hsnoc at 1. rewrite map_app. reflexivity.
Qed.

Lemma split_ssml_last_chunk_witness :
  (0 <= 20)%Z /\ (20 < len Scenario.script)%Z
  /\ exists chunks body,
       _split_ssml 20 (wrap Scenario.script) = chunks ++ [wrap body]
       /\ body <> [].
Proof.
  split; [lia|]. split; [reflexivity|].
  apply (split_ssml_last_chunk 20 Scenario.script); [lia | reflexivity].
Defined.

(** ** The stored order of a timeline *)

Lemma SFleb_not_SFltb (a b : Float.float) :
  SFleb a b = true -> SFltb b a = false.
Proof.
  intros Hle.
  assert (Ha : Float.is_nan a = false)
    by (destruct a, b; try reflexivity; discriminate).
  assert (Hb : Float.is_nan b = false)
    by (destruct a, b; try reflexivity; discriminate).
  unfold SFltb. rewrite (SFcompare_swap a b Ha Hb).
  unfold SFleb in Hle.
  destruct (SFcompare a b) as [[| |]|]; try reflexivity; discriminate.
Qed.

(** X9.  A timeline stored in non-decreasing order of time is used as it is
    stored: sorting it changes nothing, so that [_load_timepoints] returns its
    time stamps in the stored order. *)
Theorem load_timepoints_ordered :
  forall points : list (Timepoint Float.float),
    nondecreasing (map timeSeconds points) = true ->
    _load_timepoints points = map timeSeconds points.
Proof.
  intros points Hnd. unfold _load_timepoints.
  now rewrite (@sort_by_time_ordered Float.float binary64 SFleb_not_SFltb
                 points Hnd).
Qed.

Lemma load_timepoints_ordered_witness :
  nondecreasing (map timeSeconds Scenario.timeline) = true
  /\ _load_timepoints Scenario.timeline
     = map timeSeconds Scenario.timeline.
Proof.
  split; [reflexivity|].
  apply (load_timepoints_ordered Scenario.timeline). reflexivity.
Defined.



(** ** The clips of a video *)

Section Alignment.
Context {T : Type} `{Number T}.

Lemma filter_pair_up_sorted (bounds : list T) :
  forall (idx : nat) (images : list str),
    StronglySorted lt
      (map clip_index (filter positive (pair_up idx bounds images)))
    /\ Forall (fun i => idx <= i)
         (map clip_index (filter positive (pair_up idx bounds images))).
Proof.
  induction bounds as [|start bounds IH]; intros idx images.
  - split; constructor.
  - destruct bounds as [|end_ rest];
      [rewrite pair_up_single; split; constructor|].
    destruct images as [|image images]; [split; constructor|].
    rewrite pair_up_cons. destruct (IH (S idx) images) as [Hsorted Hlower].
    assert (Hlower' : Forall (fun i => idx <= i)
              (map clip_index
                 (filter positive (pair_up (S idx) (end_ :: rest) images)))).
    { eapply Forall_impl; [|exact Hlower]. simpl. intros i Hi. lia. }
    cbn [filter]. destruct (positive _); [|now split].
    cbn [map clip_index]. split.
    + constructor; [exact Hsorted|].
      eapply Forall_impl; [|exact Hlower]. simpl. intros i Hi. lia.
    + constructor; [lia | exact Hlower'].
Qed.

End Alignment.

(** X11.  Every clip that [create_chapter_video] hands over shows the image of
    its own index between the boundaries of that index, for a positive time,
    and the clips come in increasing order of index: leaving out an interval
    leaves out its image and moves no other image to another interval. No
    image is shown beyond the one that follows the last timepoint. *)
Theorem create_chapter_video_aligned :
  forall (T : Type) (N : Number T) (duration_total set_duration : T)
         (points : list (Timepoint T)) (images : list str)
         (clips : list (Clip T)),
    create_chapter_video (Some duration_total) (Some points) images
    = inr (Video clips set_duration) ->
    set_duration = duration_total
    /\ clips <> []
    /\ StronglySorted lt (map clip_index clips)
    /\ Forall
         (fun c =>
            nth_error images (clip_index c) = Some (clip_image c)
            /\ nth_error (boundaries duration_total points images)
                         (clip_index c) = Some (clip_start c)
            /\ nth_error (boundaries duration_total points images)
                         (S (clip_index c)) = Some (clip_end c)
            /\ clip_duration c = sub (clip_end c) (clip_start c)
            /\ leb (clip_duration c) zero = false
            /\ clip_index c <= length points)
         clips.
Proof.
  intros T N duration_total set_duration points images clips Hvideo.
  assert (Himages : images <> []).
  { intros ->. discriminate. }
  rewrite (create_chapter_video_clips _ _ _ Himages) in Hvideo.
  destruct (filter positive (candidates duration_total points images))
    as [|c0 cs] eqn:Hfilter; [discriminate|].
  injection Hvideo as <- <-.
  split; [reflexivity|]. split; [discriminate|].
  rewrite <- Hfilter. unfold candidates. split.
  - apply filter_pair_up_sorted.
  - apply Forall_forall. intros c Hc. apply filter_In in Hc.
    destruct Hc as [Hin Hpos].
    destruct (pair_up_aligned _ _ _ _ Hin)
      as (k & Hidx & Himage & Hstart & Hend & Hdur).
    simpl in Hidx. rewrite Hidx. repeat split; try assumption.
    + unfold positive in Hpos. now apply negb_true_iff in Hpos.
    + assert (Hbound : S k < length (boundaries duration_total points images))
        by (apply nth_error_Some; congruence).
      unfold boundaries in Hbound. cbn [length] in Hbound.
      rewrite length_app, interior_length in Hbound. simpl in Hbound. lia.
Qed.

Lemma create_chapter_video_aligned_witness :
  create_chapter_video (Some (Float.of_Z 7)) (Some Scenario.timeline)
                       Scenario.two_images
  = inr (Video
           [ {| clip_index := 0; clip_image := lit "1-a.jpg";
                clip_start := zero; clip_end := Float.of_Z 1;
                clip_duration := Float.of_Z 1 |};
             {| clip_index := 1; clip_image := lit "2-b.jpg";
                clip_start := Float.of_Z 1;
                clip_end := Scenario.two_and_a_half;
                clip_duration := Float.dyadic 3 (-1) |} ]
           (Float.of_Z 7))
  /\ StronglySorted lt [0; 1].
Proof.
  assert (Hrun : create_chapter_video (Some (Float.of_Z 7))
                   (Some Scenario.timeline) Scenario.two_images
                 = inr (Video
                   [ {| clip_index := 0; clip_image := lit "1-a.jpg";
                        clip_start := zero; clip_end := Float.of_Z 1;
                        clip_duration := Float.of_Z 1 |};
                     {| clip_index := 1; clip_image := lit "2-b.jpg";
                        clip_start := Float.of_Z 1;
                        clip_end := Scenario.two_and_a_half;
                        clip_duration := Float.dyadic 3 (-1) |} ]
                   (Float.of_Z 7)))
    by (vm_compute; reflexivity).
  split; [exact Hrun|].
  exact (proj1 (proj2 (proj2
    (create_chapter_video_aligned Float.float binary64 (Float.of_Z 7)
       (Float.of_Z 7) Scenario.timeline Scenario.two_images _ Hrun)))).
Defined.

(** ** text_cleanup.py: the numbered markers *)

Lemma string_of_uint_numeral (d : Decimal.uint) :
  forallb numeral_char (lit (DecimalString.NilEmpty.string_of_uint d)) = true.
Proof. induction d; simpl; auto. Qed.

Lemma str_of_int_numeral (n : Z) : forallb numeral_char (str_of_int n) = true.
Proof.
  unfold str_of_int.
  assert (Hu : forall d,
             forallb numeral_char
               (lit (DecimalString.NilZero.string_of_uint d)) = true).
  { intros d. unfold DecimalString.NilZero.string_of_uint.
    destruct d; try apply string_of_uint_numeral. reflexivity. }
  destruct (Z.to_int n) as [d|d]; simpl; [apply Hu|].
  apply (Hu d).
Qed.

Lemma numeral_char_plain (c : ascii) :
  numeral_char c = true ->
  Ascii.eqb c "*" = false /\ Ascii.eqb c dquote = false.
Proof.
  destruct c as [[] [] [] [] [] [] [] []]; try discriminate; auto.
Qed.

Lemma marker_tpl_tag (counter : Z) :
  _marker_tpl counter = mark_tag (lit "p" ++ str_of_int counter).
Proof.
  unfold _marker_tpl, mark_tag, mark_open, mark_close.
  rewrite <- !app_assoc. reflexivity.
Qed.

Lemma marker_tpl_name (counter : Z) :
  marker_name (lit "p" ++ str_of_int counter) = true.
Proof.
  simpl. apply forallb_forall. intros c Hc.
  pose proof (str_of_int_numeral counter) as Hnum.
  rewrite forallb_forall in Hnum.
  destruct (numeral_char_plain c (Hnum c Hc)) as [_ Hq]. now rewrite Hq.
Qed.

Lemma count_asterisks_app (a b : str) :
  count_asterisks (a ++ b) = count_asterisks a + count_asterisks b.
Proof. unfold count_asterisks. now rewrite filter_app, length_app. Qed.

Lemma count_asterisks_numeral (s : str) :
  forallb numeral_char s = true -> count_asterisks s = 0.
Proof.
  unfold count_asterisks. induction s as [|c s IH]; [reflexivity|].
  simpl. intros Hall. apply andb_prop in Hall. destruct Hall as [Hc Hs].
  destruct (numeral_char_plain c Hc) as [-> _]. exact (IH Hs).
Qed.

Lemma count_asterisks_marker (counter : Z) :
  count_asterisks (_marker_tpl counter) = 0.
Proof.
  unfold _marker_tpl.
  change (dquote :: lit "p" ++ str_of_int counter ++ dquote :: lit "/>")
    with ((dquote :: lit "p") ++ str_of_int counter ++ dquote :: lit "/>").
  rewrite !count_asterisks_app.
  now rewrite (count_asterisks_numeral _ (str_of_int_numeral counter)).
Qed.

Lemma sub_asterisks_counter (content : str) :
  forall counter : Z,
    snd (sub_asterisks content counter)
    = (counter + Z.of_nat (count_asterisks content))%Z.
Proof.
  unfold count_asterisks.
  induction content as [|c rest IH]; intros counter; simpl; [lia|].
  destruct (Ascii.eqb c "*").
  - specialize (IH (counter + 1)%Z).
    destruct (sub_asterisks rest (counter + 1)). simpl in *. lia.
  - specialize (IH counter).
    destruct (sub_asterisks rest counter). simpl in *. lia.
Qed.

Lemma sub_asterisks_clean (content : str) :
  forall counter : Z,
    count_asterisks (fst (sub_asterisks content counter)) = 0.
Proof.
  induction content as [|c rest IH]; intros counter; cbn [sub_asterisks];
    [reflexivity|].
  destruct (Ascii.eqb c "*") eqn:Hc.
  - specialize (IH (counter + 1)%Z).
    destruct (sub_asterisks rest (counter + 1)). cbn [fst] in *.
    now rewrite count_asterisks_app, count_asterisks_marker, IH.
  - specialize (IH counter).
    destruct (sub_asterisks rest counter). cbn [fst] in *.
    unfold count_asterisks in *. simpl. now rewrite Hc.
Qed.

Lemma sub_asterisks_none (content : str) :
  count_asterisks content = 0 ->
  forall counter : Z, sub_asterisks content counter = (content, counter).
Proof.
  unfold count_asterisks.
  induction content as [|c rest IH]; intros Hnone counter; simpl;
    [reflexivity|].
  simpl in Hnone. destruct (Ascii.eqb c "*"); [discriminate|].
  now rewrite (IH Hnone).
Qed.

(** X12.  [replace_asterisks_with_marks] prints the number of asterisks of the
    file and leaves no asterisk in it, so that running it again on the file
    changes nothing and prints 0. *)
Theorem replace_asterisks_count :
  forall content : str,
    snd (replace_asterisks_with_marks content)
    = Z.of_nat (count_asterisks content)
    /\ count_asterisks (fst (replace_asterisks_with_marks content)) = 0
    /\ replace_asterisks_with_marks
         (fst (replace_asterisks_with_marks content))
       = (fst (replace_asterisks_with_marks content), 0%Z).
Proof.
  intros content.
  assert (Hclean : count_asterisks
                     (fst (replace_asterisks_with_marks content)) = 0).
  { unfold replace_asterisks_with_marks.
    pose proof (sub_asterisks_clean content 1) as H.
    destruct (sub_asterisks content 1). exact H. }
  split; [|split; [exact Hclean|]].
  - unfold replace_asterisks_with_marks.
    pose proof (sub_asterisks_counter content 1) as H.
    destruct (sub_asterisks content 1). cbn [fst snd] in *. lia.
  - unfold replace_asterisks_with_marks at 1.
    now rewrite (sub_asterisks_none _ Hclean).
Qed.

(** *** The tokens of a cleaned script *)

Lemma plain_spec (s : str) :
  plain s = true ->
  count_asterisks s = 0
  /\ Forall (fun c => Ascii.eqb c "<" = false) s.
Proof.
  unfold plain, count_asterisks. induction s as [|c s IH]; simpl.
  - split; [reflexivity | constructor].
  - intros Hall. apply andb_prop in Hall. destruct Hall as [Hc Hs].
    apply andb_prop in Hc. destruct Hc as [Hstar Hlt].
    apply negb_true_iff in Hstar, Hlt. rewrite Hstar.
    destruct (IH Hs) as [Hcount Hfree]. split; [exact Hcount|].
    now constructor.
Qed.

Lemma sub_asterisks_app (text rest : str) :
  count_asterisks text = 0 ->
  forall counter : Z,
    sub_asterisks (text ++ rest) counter
    = (text ++ fst (sub_asterisks rest counter),
       snd (sub_asterisks rest counter)).
Proof.
  unfold count_asterisks.
  induction text as [|c text IH]; intros Hnone counter; simpl.
  - now destruct (sub_asterisks rest counter).
  - simpl in Hnone. destruct (Ascii.eqb c "*"); [discriminate|].
    now rewrite (IH Hnone).
Qed.

Lemma sub_asterisks_segments (segments : list str) :
  forallb plain segments = true ->
  forall counter : Z,
    sub_asterisks (flat_map (fun text => "*"%char :: text) segments) counter
    = (concat (marked_from counter segments),
       (counter + Z.of_nat (length segments))%Z).
Proof.
  induction segments as [|text rest IH]; intros Hall counter.
  - simpl. f_equal. lia.
  - simpl in Hall. apply andb_prop in Hall. destruct Hall as [Htext Hrest].
    destruct (plain_spec _ Htext) as [Hnone _].
    cbn [flat_map marked_from concat].
    change (("*"%char :: text) ++ flat_map (fun t => "*"%char :: t) rest)
      with ("*"%char :: text ++ flat_map (fun t => "*"%char :: t) rest).
    cbn [sub_asterisks]. rewrite Ascii.eqb_refl.
    rewrite (sub_asterisks_app _ _ Hnone), (IH Hrest). cbn [fst snd length].
    f_equal. lia.
Qed.

Lemma match_mark_head (s : str) (found : str * str) :
  match_mark s = Some found -> exists s', s = "<"%char :: s'.
Proof.
  unfold match_mark.
  destruct (strip_prefix mark_open s) as [s1|] eqn:Hopen; [|discriminate].
  intros _. apply strip_prefix_Some in Hopen. rewrite Hopen.
  now exists (skipn 1 mark_open ++ s1).
Qed.

Lemma match_mark_plain (c : ascii) (s : str) :
  Ascii.eqb c "<" = false -> match_mark (c :: s) = None.
Proof.
  intros Hc. destruct (match_mark (c :: s)) as [found|] eqn:Hm;
    [|reflexivity].
  destruct (match_mark_head _ _ Hm) as [s' [= -> _]]. discriminate.
Qed.

(** The scan over a text without an opening angle bracket finds no tag. *)
Lemma re_split_from_plain (s : str) :
  Forall (fun c => Ascii.eqb c "<" = false) s ->
  forall (fuel : nat) (text : str),
    length s < fuel ->
    re_split_from fuel text s = [rev text ++ s].
Proof.
  induction 1 as [|c s Hc _ IH]; intros fuel text Hfuel;
    (destruct fuel as [|fuel]; [simpl in Hfuel; lia|]).
  - simpl. now rewrite app_nil_r.
  - cbn [re_split_from]. rewrite (match_mark_plain _ _ Hc).
    simpl in Hfuel. rewrite IH by lia. simpl. now rewrite <- app_assoc.
Qed.

(** The scan over such a text followed by a tag gives the text, then the
    tag, and goes on after the tag. *)
Lemma re_split_from_plain_tag (s : str) (name tail : str) :
  Forall (fun c => Ascii.eqb c "<" = false) s ->
  marker_name name = true ->
  forall (fuel : nat) (text : str),
    length (s ++ mark_tag name ++ tail) < fuel ->
    exists fuel',
      length tail < fuel'
      /\ re_split_from fuel text (s ++ mark_tag name ++ tail)
         = (rev text ++ s) :: mark_tag name :: re_split_from fuel' [] tail.
Proof.
  intros Hs Hname.
  induction Hs as [|c s Hc _ IH]; intros fuel text Hfuel;
    (destruct fuel as [|fuel]; [simpl in Hfuel; lia|]).
  - exists fuel. cbn [app] in *. cbn [re_split_from].
    rewrite (match_mark_tag _ _ Hname). rewrite app_nil_r.
    split; [|reflexivity]. rewrite length_app in Hfuel.
    assert (0 < length (mark_tag name))
      by (unfold mark_tag; rewrite !length_app; simpl; lia).
    lia.
  - cbn [app re_split_from]. rewrite (match_mark_plain _ _ Hc).
    cbn [app length] in Hfuel.
    destruct (IH fuel (c :: text)) as (fuel' & Hf & Heq); [lia|].
    exists fuel'. split; [exact Hf|]. rewrite Heq. simpl.
    now rewrite <- app_assoc.
Qed.

Lemma re_split_from_marked (segments : list str) :
  forallb plain segments = true ->
  forall (first : str) (counter : Z) (fuel : nat) (text : str),
    plain first = true ->
    length (first ++ concat (marked_from counter segments)) < fuel ->
    re_split_from fuel text (first ++ concat (marked_from counter segments))
    = (rev text ++ first) :: marked_from counter segments.
Proof.
  induction segments as [|seg rest IH];
    intros Hall first counter fuel text Hfirst Hfuel.
  - simpl in *. rewrite app_nil_r in *.
    apply re_split_from_plain; [apply (plain_spec _ Hfirst) | exact Hfuel].
  - simpl in Hall. apply andb_prop in Hall. destruct Hall as [Hseg Hrest].
    cbn [marked_from concat] in *. rewrite marker_tpl_tag in *.
    destruct (re_split_from_plain_tag first _
                (seg ++ concat (marked_from (counter + 1) rest))
                (proj2 (plain_spec _ Hfirst)) (marker_tpl_name counter)
                fuel text Hfuel) as (fuel' & Hf & Heq).
    rewrite Heq. f_equal. f_equal.
    exact (IH Hrest seg (counter + 1)%Z fuel' [] Hseg Hf).
Qed.

(** X13.  A script whose text segments hold neither an asterisk nor an opening
    angle bracket is cleaned into its segments with the markers [p1], [p2],
    ... between them, one for each asterisk, in order; and these segments and
    markers are the parts that [_split_ssml] cuts the cleaned script into. *)
Theorem replace_asterisks_tokens :
  forall (first : str) (rest : list str),
    forallb plain (first :: rest) = true ->
    replace_asterisks_with_marks
      (first ++ flat_map (fun text => "*"%char :: text) rest)
    = (first ++ concat (marked_from 1 rest), Z.of_nat (length rest))
    /\ re_split (first ++ concat (marked_from 1 rest))
       = first :: marked_from 1 rest.
Proof.
  intros first rest Hall. simpl in Hall.
  apply andb_prop in Hall. destruct Hall as [Hfirst Hrest]. split.
  - unfold replace_asterisks_with_marks.
    rewrite (sub_asterisks_app _ _ (proj1 (plain_spec _ Hfirst))).
    rewrite (sub_asterisks_segments _ Hrest). cbn [fst snd].
    f_equal. lia.
  - unfold re_split.
    now rewrite (re_split_from_marked rest Hrest first 1 _ [] Hfirst)
      by lia.
Qed.

Lemma replace_asterisks_tokens_witness :
  forallb plain [lit "Hello"; lit "World!!"; []] = true
  /\ replace_asterisks_with_marks (lit "Hello*World!!*")
     = (lit "Hello" ++ Scenario.mark_p1 ++ lit "World!!" ++ Scenario.mark_p2,
        2%Z)
  /\ re_split (lit "Hello" ++ Scenario.mark_p1 ++ lit "World!!"
               ++ Scenario.mark_p2)
     = [lit "Hello"; Scenario.mark_p1; lit "World!!"; Scenario.mark_p2; []].
Proof.
  split; [reflexivity|].
  apply (replace_asterisks_tokens (lit "Hello") [lit "World!!"; []]).
  reflexivity.
Defined.

(** *** Cleaned scripts and chunks *)

Lemma sub_asterisks_occurrence (content : str) :
  forall counter k : Z,
    (counter <= k < counter + Z.of_nat (count_asterisks content))%Z ->
    exists before after,
      fst (sub_asterisks content counter)
      = before ++ _marker_tpl k ++ after.
Proof.
  unfold count_asterisks.
  induction content as [|c rest IH]; intros counter k Hk;
    cbn [sub_asterisks filter] in *.
  - cbn [length] in Hk. lia.
  - destruct (Ascii.eqb c "*").
    + cbn [length] in Hk. destruct (Z.eq_dec k counter) as [->|Hne].
      * destruct (sub_asterisks rest (counter + 1)) as [updated counter'].
        now exists [], updated.
      * destruct (IH (counter + 1)%Z k) as (before & after & Heq); [lia|].
        destruct (sub_asterisks rest (counter + 1)) as [updated counter'].
        cbn [fst] in *. exists (_marker_tpl counter ++ before), after.
        rewrite Heq, <- app_assoc. reflexivity.
    + destruct (IH counter k Hk) as (before & after & Heq).
      destruct (sub_asterisks rest counter) as [updated counter'].
      cbn [fst] in *. exists (c :: before), after. rewrite Heq. reflexivity.
Qed.

(** X14.  Every marker that [replace_asterisks_with_marks] writes into a
    script, [p1] up to the number of asterisks, lies whole in the body of one
    chunk of the cleaned script, for every maximum length. *)
Theorem replace_asterisks_marks_whole :
  forall (max_ssml_length : Z) (content : str) (k : Z),
    (1 <= k <= Z.of_nat (count_asterisks content))%Z ->
    exists before u v after,
      map dewrap
          (_split_ssml max_ssml_length
             (wrap (fst (replace_asterisks_with_marks content))))
      = before ++ (u ++ _marker_tpl k ++ v) :: after
      /\ concat before ++ u ++ _marker_tpl k ++ v ++ concat after
         = fst (replace_asterisks_with_marks content).
Proof.
  intros max_ssml_length content k Hk.
  assert (Hocc : exists text_before text_after,
             fst (replace_asterisks_with_marks content)
             = text_before ++ _marker_tpl k ++ text_after).
  { unfold replace_asterisks_with_marks.
    destruct (sub_asterisks_occurrence content 1 k) as (b & a & Heq);
      [lia|].
    destruct (sub_asterisks content 1). now exists b, a. }
  destruct Hocc as (text_before & text_after & ->).
  rewrite marker_tpl_tag.
  destruct (re_split_occurrence text_before _ text_after
              (marker_tpl_name k))
    as (pre & post & Hparts & Hodd & Hpre & Hpost).
  destruct (split_ssml_parts_whole max_ssml_length _ pre _ post Hparts Hodd)
    as (_ & before & u & v & after & Hchunks & Hu & Hv).
  exists before, u, v, after. split; [exact Hchunks|].
  rewrite <- Hpre, <- Hpost, <- Hu, <- Hv, <- !app_assoc. reflexivity.
Qed.

Lemma replace_asterisks_marks_whole_witness :
  (1 <= 2 <= Z.of_nat (count_asterisks (lit "Hello*World!!*")))%Z
  /\ exists before u v after,
       map dewrap
           (_split_ssml 20
              (wrap (fst (replace_asterisks_with_marks
                            (lit "Hello*World!!*")))))
       = before ++ (u ++ _marker_tpl 2 ++ v) :: after
       /\ concat before ++ u ++ _marker_tpl 2 ++ v ++ concat after
          = fst (replace_asterisks_with_marks (lit "Hello*World!!*")).
Proof.
  split; [vm_compute; split; discriminate|].
  apply (replace_asterisks_marks_whole 20 (lit "Hello*World!!*") 2).
  vm_compute. split; discriminate.
Defined.

(** ** manhwa_script_generator.py: the check of a reply *)

Lemma split_asterisk_length (s : str) :
  length (split_asterisk s) = S (count_asterisks s).
Proof.
  unfold count_asterisks. induction s as [|c s IH]; [reflexivity|].
  cbn [split_asterisk filter]. destruct (Ascii.eqb c "*").
  - simpl. now rewrite IH.
  - destruct (split_asterisk s); [discriminate | exact IH].
Qed.

Lemma split_asterisk_plain (ln : str) :
  count_asterisks ln = 0 -> split_asterisk ln = [ln].
Proof.
  unfold count_asterisks. induction ln as [|c ln IH]; [reflexivity|].
  cbn [split_asterisk filter]. destruct (Ascii.eqb c "*"); [discriminate|].
  intros Hnone. now rewrite (IH Hnone).
Qed.

Lemma split_asterisk_app (ln rest : str) :
  count_asterisks ln = 0 ->
  split_asterisk (ln ++ "*"%char :: rest) = ln :: split_asterisk rest.
Proof.
  unfold count_asterisks. induction ln as [|c ln IH].
  - reflexivity.
  - cbn [app split_asterisk filter].
    destruct (Ascii.eqb c "*"); [discriminate|].
    intros Hnone. now rewrite (IH Hnone).
Qed.

Lemma split_asterisk_lines (lines : list str) (tail : str) :
  Forall (fun ln => count_asterisks ln = 0 /\ nonblank ln = true) lines ->
  count_asterisks tail = 0 ->
  split_asterisk (flat_map (fun ln => ln ++ ["*"%char]) lines ++ tail)
  = lines ++ [tail].
Proof.
  intros Hlines Htail. induction Hlines as [|ln lines [Hln _] _ IH].
  - now apply split_asterisk_plain.
  - cbn [flat_map]. rewrite <- !app_assoc. cbn [app].
    now rewrite (split_asterisk_app _ _ Hln), IH.
Qed.

Lemma filter_nonblank_lines (lines : list str) :
  Forall (fun ln => count_asterisks ln = 0 /\ nonblank ln = true) lines ->
  filter nonblank lines = lines.
Proof.
  induction 1 as [|ln lines [_ Hln] _ IH]; [reflexivity|].
  simpl. now rewrite Hln, IH.
Qed.

(** X15.  [validate_response] accepts a reply made of the expected number of
    lines, each with some text and the asterisk that ends it, whatever blank
    space follows the last one; it also accepts a reply whose last line has no
    asterisk. The accepted reply is returned as it is. *)
Theorem validate_response_accepts :
  forall (lines : list str) (tail : str),
    Forall (fun ln => count_asterisks ln = 0 /\ nonblank ln = true) lines ->
    count_asterisks tail = 0 ->
    validate_response
      (flat_map (fun ln => ln ++ ["*"%char]) lines ++ tail)
      (Z.of_nat (length lines) + (if nonblank tail then 1 else 0))
    = inr (flat_map (fun ln => ln ++ ["*"%char]) lines ++ tail).
Proof.
  intros lines tail Hlines Htail. unfold validate_response, response_lines.
  rewrite (split_asterisk_lines _ _ Hlines Htail), filter_app.
  rewrite (filter_nonblank_lines _ Hlines), length_map, length_app.
  cbn [filter]. destruct (nonblank tail); cbn [length].
  - replace (Z.of_nat (length lines + 1) =? Z.of_nat (length lines) + 1)%Z
      with true by (symmetry; apply Z.eqb_eq; lia).
    reflexivity.
  - replace (Z.of_nat (length lines + 0) =? Z.of_nat (length lines) + 0)%Z
      with true by (symmetry; apply Z.eqb_eq; lia).
    reflexivity.
Qed.

Lemma validate_response_accepts_witness :
  Forall (fun ln => count_asterisks ln = 0 /\ nonblank ln = true)
         [lit "a"; lit "b"; lit "c"; lit "d"]
  /\ count_asterisks (lit "e") = 0
  /\ validate_response (lit "a*b*c*d*e") 5 = inr (lit "a*b*c*d*e").
Proof.
  assert (Hlines : Forall (fun ln => count_asterisks ln = 0
                                     /\ nonblank ln = true)
                          [lit "a"; lit "b"; lit "c"; lit "d"])
    by (repeat constructor).
  split; [exact Hlines|]. split; [reflexivity|].
  exact (validate_response_accepts [lit "a"; lit "b"; lit "c"; lit "d"]
           (lit "e") Hlines eq_refl).
Defined.

(** X16.  A reply that [validate_response] accepts is returned unchanged, and
    it holds at least one asterisk less than the expected number of lines: so
    many markers, at least, does [replace_asterisks_with_marks] write for it. *)
Theorem validate_response_asterisks :
  forall (resp accepted : str) (expected : Z),
    validate_response resp expected = inr accepted ->
    accepted = resp
    /\ (expected - 1 <= snd (replace_asterisks_with_marks resp))%Z.
Proof.
  intros resp accepted expected. unfold validate_response.
  destruct (Z.of_nat (length (response_lines resp)) =? expected)%Z eqn:Hn;
    [|discriminate].
  cbn [negb]. intros [= <-]. split; [reflexivity|].
  apply Z.eqb_eq in Hn. unfold response_lines in Hn.
  rewrite length_map in Hn.
  pose proof (filter_length_le nonblank (split_asterisk resp)) as Hle.
  rewrite split_asterisk_length in Hle.
  unfold replace_asterisks_with_marks.
  pose proof (sub_asterisks_counter resp 1) as Hc.
  destruct (sub_asterisks resp 1). cbn [fst snd] in *. lia.
Qed.

Lemma validate_response_asterisks_witness :
  validate_response (lit "a*b*c*d*e") 5 = inr (lit "a*b*c*d*e")
  /\ (5 - 1 <= snd (replace_asterisks_with_marks (lit "a*b*c*d*e")))%Z.
Proof.
  split; [reflexivity|].
  exact (proj2 (validate_response_asterisks (lit "a*b*c*d*e")
                  (lit "a*b*c*d*e") 5 eq_refl)).
Defined.

(** ** manhwa_script_generator.py: the batches of a chapter *)

Lemma batches_from (m : nat) (l : list str) :
  map (fun k => firstn 5 (skipn (5 * k) l)) (seq 0 (S m))
  = firstn 5 l
    :: map (fun k => firstn 5 (skipn (5 * k) (skipn 5 l))) (seq 0 m).
Proof.
  rewrite <- cons_seq, <- seq_shift. cbn [map]. rewrite map_map.
  f_equal. apply map_ext. intros k. rewrite skipn_skipn.
  f_equal. f_equal. lia.
Qed.

Lemma batches_concat (m : nat) :
  forall l : list str,
    length l <= 5 * m ->
    concat (map (fun k => firstn 5 (skipn (5 * k) l)) (seq 0 m)) = l.
Proof.
  induction m as [|m IH]; intros l Hlen.
  - destruct l; [reflexivity | simpl in Hlen; lia].
  - rewrite batches_from. cbn [concat]. rewrite IH.
    + apply firstn_skipn.
    + rewrite length_skipn. lia.
Qed.

Lemma batches_sizes (m : nat) :
  forall l : list str,
    5 * m < length l + 5 ->
    Forall (fun batch => 1 <= length batch <= 5)
           (map (fun k => firstn 5 (skipn (5 * k) l)) (seq 0 m))
    /\ Forall (fun batch => length batch = 5)
         (removelast (map (fun k => firstn 5 (skipn (5 * k) l)) (seq 0 m))).
Proof.
  induction m as [|m IH]; intros l Hlen.
  - split; constructor.
  - rewrite batches_from.
    destruct (IH (skipn 5 l)) as [Hall Hfull];
      [rewrite length_skipn; lia|].
    split.
    + constructor; [rewrite length_firstn; lia | exact Hall].
    + destruct m as [|m]; [constructor|].
      rewrite batches_from in *. cbn [removelast].
      constructor; [rewrite length_firstn; lia | exact Hfull].
Qed.

(** X17.  The batches of a chapter are its image files, in order, each once,
    in groups of five; only the last batch can hold fewer, and none is empty. *)
Theorem batches_partition :
  forall img_files : list str,
    concat (batches img_files) = img_files
    /\ Forall (fun batch => 1 <= length batch <= 5) (batches img_files)
    /\ Forall (fun batch => length batch = 5)
              (removelast (batches img_files)).
Proof.
  intros img_files. unfold batches.
  pose proof (Nat.div_mod_eq (length img_files + 4) 5) as Hdiv.
  pose proof (Nat.mod_upper_bound (length img_files + 4) 5) as Hmod.
  split; [apply batches_concat; lia|].
  apply batches_sizes. lia.
Qed.

(** ** manhwa_script_generator.py: the conversation of a chapter *)

Section Conversation.
Variable Payload : Type.
Variable client : Client Payload.
Variable chapter_path : str.
Variable base_messages : list (Message Payload).

(** A request starts with the seed messages and holds at most 21 more. *)
Let bounded (request : list (Message Payload)) : Prop :=
  firstn (length base_messages) request = base_messages
  /\ length request <= length base_messages + 21.

Lemma batch_loop_requests (todo : list (list str)) :
  forall (responses : list str) (messages : list (Message Payload))
         (requests : list (list (Message Payload)))
         (recent : list (Message Payload)),
    messages = base_messages ++ recent ->
    length recent <= 20 ->
    Forall bounded requests ->
    Forall bounded
           (fst (batch_loop client chapter_path base_messages todo
                            responses messages requests)).
Proof.
  induction todo as [|batch rest IH];
    intros responses messages requests recent Hmessages Hrecent Hrequests;
    cbn [batch_loop]; [exact Hrequests|].
  destruct (encode_batch client chapter_path batch) as [e|batch_payload];
    [exact Hrequests|].
  assert (Hsent : Forall bounded
                    (requests ++ [messages ++ [UserImages batch_payload]])).
  { apply Forall_app. split; [exact Hrequests|].
    constructor; [|constructor]. subst messages. split.
    - rewrite <- app_assoc, firstn_app, Nat.sub_diag, firstn_all.
      simpl. apply app_nil_r.
    - rewrite !length_app. simpl. lia. }
  destruct (create client (messages ++ [UserImages batch_payload]))
    as [e|content_text]; [exact Hsent|].
  destruct (validate_response content_text 5) as [e|accepted];
    [exact Hsent|].
  set (longer := (messages ++ [UserImages batch_payload])
                 ++ [AssistantText Payload content_text]).
  assert (Hlonger : length longer = length base_messages + length recent + 2).
  { unfold longer. subst messages. rewrite !length_app. simpl. lia. }
  destruct (length base_messages + 20 <? length longer) eqn:Htrim.
  - apply Nat.ltb_lt in Htrim.
    apply (IH _ _ _ (skipn (length longer - 20) longer));
      [reflexivity | rewrite length_skipn; lia | exact Hsent].
  - apply Nat.ltb_ge in Htrim.
    apply (IH _ _ _ (recent ++ [UserImages batch_payload;
                                AssistantText Payload content_text]));
      [| rewrite length_app; simpl; lia | exact Hsent].
    unfold longer. subst messages. now rewrite <- !app_assoc.
Qed.

Lemma batch_loop_responses (todo : list (list str)) :
  forall (responses : list str) (messages : list (Message Payload))
         (requests sent : list (list (Message Payload)))
         (out : list str),
    batch_loop client chapter_path base_messages todo
               responses messages requests = (sent, inr out) ->
    exists replies,
      out = responses ++ replies
      /\ length replies = length todo
      /\ Forall (fun reply => validate_response reply 5 = inr reply) replies
      /\ length sent = length requests + length todo.
Proof.
  induction todo as [|batch rest IH];
    intros responses messages requests sent out; cbn [batch_loop].
  - intros [= <- <-]. exists []. rewrite app_nil_r. simpl.
    repeat split; [constructor | lia].
  - destruct (encode_batch client chapter_path batch) as [e|batch_payload];
      [discriminate|].
    destruct (create client (messages ++ [UserImages batch_payload]))
      as [e|content_text]; [discriminate|].
    destruct (validate_response content_text 5) as [e|accepted] eqn:Hvalid;
      [discriminate|].
    intros Hloop. apply IH in Hloop.
    destruct Hloop as (replies & -> & Hlen & Hall & Hsent).
    exists (content_text :: replies). rewrite <- app_assoc. simpl.
    split; [reflexivity|]. split; [now rewrite Hlen|]. split.
    + constructor; [|exact Hall].
      unfold validate_response in *.
      destruct (negb _); [discriminate | reflexivity].
    + rewrite Hsent, length_app. simpl. lia.
Qed.

End Conversation.

(** X18.  Whatever the service replies, every request that the generator sends
    for a chapter starts with the four seed messages and holds at most 21
    messages after them: the context is cut back to the seed messages and the
    20 latest messages before it can grow further. *)
Theorem chapter_script_context :
  forall (Payload : Type) (client : Client Payload)
         (manhwa_name chapter_path : str) (img_files : list str),
    Forall (fun request =>
              firstn 4 request = initial_messages Payload manhwa_name
              /\ length request <= 25)
           (fst (chapter_script client manhwa_name chapter_path img_files)).
Proof.
  intros Payload client manhwa_name chapter_path img_files.
  unfold chapter_script.
  pose proof (batch_loop_requests Payload client chapter_path
                (initial_messages Payload manhwa_name) (batches img_files)
                [] (initial_messages Payload manhwa_name) [] []) as Hbound.
  destruct (batch_loop client chapter_path
              (initial_messages Payload manhwa_name) (batches img_files)
              [] (initial_messages Payload manhwa_name) [])
    as [requests [e|responses]]; cbn [fst] in *;
    (apply Hbound; [now rewrite app_nil_r | simpl; lia | constructor]).
Qed.

(** X19.  When the generator writes the script of a chapter, the script is
    made of one reply for each batch of five images, joined by blank lines,
    and every one of these replies passed [validate_response] for five lines;
    one request was sent for each batch. A chapter without images gets an
    empty script and no request. *)
Theorem chapter_script_replies :
  forall (Payload : Type) (client : Client Payload)
         (manhwa_name chapter_path : str) (img_files : list str)
         (requests : list (list (Message Payload))) (script : str),
    chapter_script client manhwa_name chapter_path img_files
    = (requests, inr script) ->
    exists replies,
      script = join [newline; newline] replies
      /\ length replies = (length img_files + 4) / 5
      /\ length requests = length replies
      /\ Forall (fun reply => validate_response reply 5 = inr reply) replies.
Proof.
  intros Payload client manhwa_name chapter_path img_files requests script.
  unfold chapter_script.
  destruct (batch_loop client chapter_path
              (initial_messages Payload manhwa_name) (batches img_files)
              [] (initial_messages Payload manhwa_name) [])
    as [sent [e|responses]] eqn:Hloop; [discriminate|].
  intros [= <- <-].
  destruct (batch_loop_responses Payload client chapter_path _ _ _ _ _ _ _
              Hloop) as (replies & -> & Hlen & Hall & Hsent).
  exists replies. simpl app. split; [reflexivity|].
  unfold batches in Hlen. rewrite length_map, length_seq in Hlen.
  split; [exact Hlen|]. split; [|exact Hall].
  rewrite Hsent, Hlen. unfold batches. now rewrite length_map, length_seq.
Qed.

Lemma chapter_script_replies_witness :
  exists replies,
    five_lines ++ [newline; newline] ++ five_lines
    = join [newline; newline] replies
    /\ length replies = (length six_images + 4) / 5
    /\ length (fst (chapter_script steady_client (lit "Title")
                      (lit "chapter1/") six_images))
       = length replies
    /\ Forall (fun reply => validate_response reply 5 = inr reply) replies.
Proof.
  apply (chapter_script_replies str steady_client (lit "Title")
           (lit "chapter1/") six_images).
  vm_compute. reflexivity.
Defined.

(** ** Integers read from names *)

Lemma int_lstrip_nospace (s : str) :
  forallb (fun c => negb (int_space c)) s = true -> int_lstrip s = s.
Proof.
  destruct s as [|c s]; [reflexivity|]. simpl. intros Hall.
  apply andb_prop in Hall. destruct Hall as [Hc _].
  apply negb_true_iff in Hc. now rewrite Hc.
Qed.

Lemma int_strip_nospace (s : str) :
  forallb (fun c => negb (int_space c)) s = true -> int_strip s = s.
Proof.
  intros Hall. unfold int_strip. rewrite (int_lstrip_nospace _ Hall).
  rewrite int_lstrip_nospace; [apply rev_involutive|].
  apply forallb_forall. intros c Hc. apply in_rev in Hc.
  rewrite forallb_forall in Hall. now apply Hall.
Qed.

Lemma numeral_char_nospace (c : ascii) :
  numeral_char c = true -> negb (int_space c) = true.
Proof.
  destruct c as [[] [] [] [] [] [] [] []]; try discriminate; reflexivity.
Qed.

Lemma isdigit_unsigned (c : ascii) :
  isdigit c = true ->
  Ascii.eqb c "-" = false /\ Ascii.eqb c "+" = false
  /\ Ascii.eqb c "." = false.
Proof.
  destruct c as [[] [] [] [] [] [] [] []]; try discriminate; auto.
Qed.

Lemma forallb_impl {A} (p q : A -> bool) (l : list A) :
  (forall a, p a = true -> q a = true) ->
  forallb p l = true -> forallb q l = true.
Proof.
  intros Hpq Hp. apply forallb_forall. intros a Ha.
  rewrite forallb_forall in Hp. auto.
Qed.

Lemma int_digits_all (s : str) :
  forallb isdigit s = true ->
  forall acc : Z,
    int_digits s acc
    = Some (fold_left
              (fun n c => (10 * n + (Z.of_nat (nat_of_ascii c) - 48))%Z)
              s acc).
Proof.
  induction s as [|c s IH]; intros Hall acc; [reflexivity|].
  simpl in Hall. apply andb_prop in Hall. destruct Hall as [Hc Hs].
  cbn [int_digits fold_left]. rewrite Hc. now apply IH.
Qed.

Lemma int_unsigned_digits (s : str) :
  s <> [] -> forallb isdigit s = true ->
  int_unsigned s = Some (int_of_digits s).
Proof.
  destruct s as [|d s]; [congruence|]. intros _ Hall.
  simpl in Hall. apply andb_prop in Hall. destruct Hall as [Hd Hs].
  unfold int_unsigned, int_of_digits. rewrite Hd, (int_digits_all _ Hs).
  reflexivity.
Qed.

Lemma py_int_digits (s : str) :
  s <> [] -> forallb isdigit s = true -> py_int s = Some (int_of_digits s).
Proof.
  intros Hne Hall. unfold py_int. rewrite int_strip_nospace.
  - destruct s as [|c s]; [congruence|].
    pose proof Hall as Hc. simpl in Hc. apply andb_prop in Hc.
    destruct Hc as [Hc _].
    destruct (isdigit_unsigned c Hc) as (-> & -> & _).
    now apply int_unsigned_digits.
  - eapply forallb_impl; [|exact Hall]. intros c Hc.
    apply numeral_char_nospace. unfold numeral_char. now rewrite Hc.
Qed.

Lemma str_of_int_neg (p : BinNums.positive) :
  str_of_int (Zneg p)
  = "-"%char :: lit (DecimalString.NilEmpty.string_of_uint (Pos.to_uint p)).
Proof.
  unfold str_of_int. cbn [Z.to_int DecimalString.NilZero.string_of_int].
  unfold DecimalString.NilZero.string_of_uint.
  destruct (Pos.to_uint p) eqn:Hp; try reflexivity.
  now apply DecimalPos.Unsigned.to_uint_nonnil in Hp.
Qed.

(** [int] reads back the numeral that [str] writes. *)
Lemma py_int_str_of_int (n : Z) : py_int (str_of_int n) = Some n.
Proof.
  destruct n as [|p|p].
  - reflexivity.
  - destruct (str_of_int_digits (Zpos p)) as [Hall Hne]; [lia|].
    rewrite (py_int_digits _ Hne Hall).
    now rewrite int_of_digits_str_of_int by lia.
  - unfold py_int. rewrite int_strip_nospace.
    2:{ eapply forallb_impl; [apply numeral_char_nospace|].
        apply str_of_int_numeral. }
    rewrite str_of_int_neg. rewrite Ascii.eqb_refl.
    rewrite int_unsigned_digits.
    + rewrite int_of_digits_uint, DecimalPos.Unsigned.of_to. reflexivity.
    + apply string_of_uint_nonempty, DecimalPos.Unsigned.to_uint_nonnil.
    + apply string_of_uint_digits.
Qed.

Lemma rfind_dot_last (a b : str) :
  forallb (fun c => negb (Ascii.eqb c ".")) b = true ->
  forall (start : nat) (found : option nat),
    rfind_dot (a ++ "."%char :: b) start found = Some (start + length a).
Proof.
  intros Hb. induction a as [|c a IH]; intros start found.
  - cbn [app rfind_dot]. rewrite Ascii.eqb_refl, Nat.add_0_r.
    clear found. generalize (S start) as i.
    induction b as [|c b IHb]; intros i; [reflexivity|].
    simpl in Hb. apply andb_prop in Hb. destruct Hb as [Hc Hb].
    apply negb_true_iff in Hc. cbn [rfind_dot]. rewrite Hc.
    now apply IHb.
  - cbn [app rfind_dot]. rewrite IH. f_equal. simpl. lia.
Qed.

Lemma stem_suffix (a b : str) :
  a <> [] -> b <> [] ->
  forallb (fun c => negb (Ascii.eqb c ".")) b = true ->
  stem (a ++ "."%char :: b) = a.
Proof.
  intros Ha Hb Hplain. unfold stem.
  rewrite (rfind_dot_last a b Hplain 0 None). cbn [Nat.add].
  assert (Hcond : (0 <? length a)
                  && (length a <? length (a ++ "."%char :: b) - 1) = true).
  { apply andb_true_iff. split; apply Nat.ltb_lt.
    - destruct a; [congruence | simpl; lia].
    - rewrite length_app. destruct b; [congruence | simpl; lia]. }
  rewrite Hcond, firstn_app, Nat.sub_diag, firstn_all. simpl.
  apply app_nil_r.
Qed.

Lemma stem_audio_name (n : Z) :
  stem (audio_name n) = lit "chapter" ++ str_of_int n.
Proof.
  unfold audio_name. rewrite app_assoc.
  apply (stem_suffix (lit "chapter" ++ str_of_int n) (lit "mp3"));
    [discriminate | discriminate | reflexivity].
Qed.

(** X20.  The audio files that [process_chapter] writes are listed by
    [process_all_chapters] under the chapter numbers they were written for:
    reading the number back from the name [chapter<n>.mp3] gives [n], so that
    [create_chapter_video] is called for these chapters and looks for the
    files of these names again. *)
Theorem chapters_of_audio_names :
  forall chapter_numbers : list Z,
    chapters (map audio_name chapter_numbers) = Some chapter_numbers.
Proof.
  induction chapter_numbers as [|n ns IH]; [reflexivity|].
  cbn [map chapters]. rewrite stem_audio_name.
  change (skipn 7 (lit "chapter" ++ str_of_int n)) with (str_of_int n).
  now rewrite py_int_str_of_int, IH.
Qed.

(** ** Sorting by a key *)

Section SortedByKeyFacts.
Variable A : Type.

Lemma insert_by_key_perm (x : Z * A) (sorted : list (Z * A)) :
  Permutation (insert_by_key x sorted) (x :: sorted).
Proof.
  induction sorted as [|y sorted IH]; simpl; [apply Permutation_refl|].
  destruct (fst y <? fst x)%Z; [|apply Permutation_refl].
  eapply Permutation_trans; [apply perm_skip, IH | apply perm_swap].
Qed.

Lemma sort_by_key_perm (items : list (Z * A)) :
  Permutation (sort_by_key items) items.
Proof.
  induction items as [|x items IH]; simpl; [apply Permutation_refl|].
  eapply Permutation_trans; [apply insert_by_key_perm|].
  now apply perm_skip.
Qed.

Lemma insert_by_key_sorted (x : Z * A) (sorted : list (Z * A)) :
  StronglySorted (fun a b => (fst a <= fst b)%Z) sorted ->
  StronglySorted (fun a b => (fst a <= fst b)%Z) (insert_by_key x sorted).
Proof.
  induction 1 as [|y sorted Hsorted IH Hy]; simpl.
  - constructor; constructor.
  - destruct (fst y <? fst x)%Z eqn:Hlt.
    + apply Z.ltb_lt in Hlt. constructor; [exact IH|].
      apply (Permutation_Forall
               (Permutation_sym (insert_by_key_perm x sorted))).
      constructor; [lia | exact Hy].
    + apply Z.ltb_ge in Hlt. constructor; [now constructor|].
      constructor; [exact Hlt|].
      eapply Forall_impl; [|exact Hy]. simpl. intros z Hz. lia.
Qed.

Lemma sort_by_key_sorted (items : list (Z * A)) :
  StronglySorted (fun a b => (fst a <= fst b)%Z) (sort_by_key items).
Proof.
  induction items as [|x items IH]; simpl; [constructor|].
  now apply insert_by_key_sorted.
Qed.

Lemma keyed_Some (key : A -> option Z) (items : list A) :
  forall pairs : list (Z * A),
    keyed key items = Some pairs ->
    map snd pairs = items
    /\ Forall (fun p => key (snd p) = Some (fst p)) pairs.
Proof.
  induction items as [|item rest IH]; intros pairs; simpl.
  - intros [= <-]. split; [reflexivity | constructor].
  - destruct (key item) as [k|] eqn:Hk; [|discriminate].
    destruct (keyed key rest) as [pairs'|]; [|discriminate].
    intros [= <-]. destruct (IH _ eq_refl) as [Hsnd Hall].
    split; [simpl; now rewrite Hsnd | now constructor].
Qed.

Lemma keyed_None (key : A -> option Z) (items : list A) :
  keyed key items = None
  <-> exists item, In item items /\ key item = None.
Proof.
  induction items as [|item rest IH]; simpl.
  - split; [discriminate | now intros (item & [] & _)].
  - destruct (key item) as [k|] eqn:Hk.
    + destruct (keyed key rest) as [pairs|].
      * split; [discriminate|]. intros (bad & [<-|Hin] & Hbad);
          [congruence|].
        assert (Hnone : Some pairs = None)
          by (apply IH; now exists bad).
        discriminate.
      * split; [|reflexivity]. intros _.
        destruct (proj1 IH eq_refl) as (bad & Hin & Hbad).
        exists bad. auto.
    + split; [|reflexivity]. intros _. exists item. auto.
Qed.

Lemma strongly_sorted_map_fst (pairs : list (Z * A)) :
  StronglySorted (fun a b => (fst a <= fst b)%Z) pairs ->
  StronglySorted Z.le (map fst pairs).
Proof.
  induction 1 as [|p pairs _ IH Hp]; simpl; constructor; [exact IH|].
  apply Forall_map. exact Hp.
Qed.

(** What [sorted] returns holds the items it was given, in a non-decreasing
    order of their keys. *)
Lemma sorted_by_Some (key : A -> option Z) (items out : list A) :
  sorted_by key items = Some out ->
  Permutation out items
  /\ exists keys,
       map key out = map Some keys /\ StronglySorted Z.le keys.
Proof.
  unfold sorted_by. destruct (keyed key items) as [pairs|] eqn:Hkeyed;
    [|discriminate].
  intros [= <-]. destruct (keyed_Some _ _ _ Hkeyed) as [Hsnd Hkeys]. split.
  - rewrite <- Hsnd. apply Permutation_map, sort_by_key_perm.
  - exists (map fst (sort_by_key pairs)). split.
    + rewrite !map_map. apply map_ext_Forall.
      apply (Permutation_Forall (Permutation_sym (sort_by_key_perm pairs))).
      exact Hkeys.
    + apply strongly_sorted_map_fst, sort_by_key_sorted.
Qed.

Lemma sorted_by_None (key : A -> option Z) (items : list A) :
  sorted_by key items = None
  <-> exists item, In item items /\ key item = None.
Proof.
  unfold sorted_by. rewrite <- keyed_None.
  destruct (keyed key items); split; congruence.
Qed.

End SortedByKeyFacts.

(** ** The image files of a chapter *)

(** X21.  The images that [create_chapter_video] shows are the entries of the
    chapter's folder whose names start with a digit, ordered by the number
    before the first hyphen of their stems, as numbers and not as text; when
    one of these names has no such number, the call raises [ValueError]. *)
Theorem video_images_sorted :
  forall names : list str,
    (forall images : list str,
        video_images names = Some images ->
        Permutation images (filter digit_first names)
        /\ exists keys,
             map video_image_key images = map Some keys
             /\ StronglySorted Z.le keys)
    /\ (video_images names = None
        <-> exists name,
              In name names /\ digit_first name = true
              /\ video_image_key name = None).
Proof.
  intros names. unfold video_images. split.
  - intros images. apply sorted_by_Some.
  - rewrite sorted_by_None. split.
    + intros (name & Hin & Hkey). apply filter_In in Hin.
      exists name. tauto.
    + intros (name & Hin & Hfirst & Hkey). exists name.
      split; [apply filter_In; auto | exact Hkey].
Qed.

Lemma before_hyphen_app (digits rest : str) :
  forallb isdigit digits = true ->
  before_hyphen (digits ++ "-"%char :: rest) = digits.
Proof.
  induction digits as [|c digits IH]; [reflexivity|]. simpl.
  intros Hall. apply andb_prop in Hall. destruct Hall as [Hc Hrest].
  destruct (isdigit_unsigned c Hc) as (-> & _). now rewrite (IH Hrest).
Qed.

Lemma rfind_dot_spec (s : str) :
  forall (start : nat) (found : option nat) (i : nat),
    rfind_dot s start found = Some i ->
    found = Some i
    \/ (start <= i /\ nth_error s (i - start) = Some "."%char).
Proof.
  induction s as [|c s IH]; intros start found i; simpl.
  - now left.
  - intros Hfind. destruct (IH _ _ _ Hfind) as [Hfound|[Hle Hnth]].
    + destruct (Ascii.eqb c ".") eqn:Hc; [|now left].
      injection Hfound as <-. right. split; [lia|].
      rewrite Nat.sub_diag. simpl. apply Ascii.eqb_eq in Hc. now subst.
    + right. split; [lia|].
      replace (i - start) with (S (i - S start)) by lia. exact Hnth.
Qed.

Lemma stem_numbered (digits rest : str) :
  forallb isdigit digits = true ->
  exists rest',
    stem (digits ++ "-"%char :: rest) = digits ++ "-"%char :: rest'.
Proof.
  intros Hall. unfold stem.
  destruct (rfind_dot (digits ++ "-"%char :: rest) 0 None) as [i|] eqn:Hfind;
    [|now exists rest].
  destruct (_ && _); [|now exists rest].
  destruct (rfind_dot_spec _ _ _ _ Hfind) as [|[_ Hnth]]; [discriminate|].
  rewrite Nat.sub_0_r in Hnth.
  assert (Hi : length digits < i).
  { destruct (Nat.lt_ge_cases (length digits) i) as [|Hle]; [assumption|].
    exfalso. destruct (Nat.eq_dec i (length digits)) as [->|Hne].
    - rewrite nth_error_app2, Nat.sub_diag in Hnth by lia. discriminate.
    - rewrite nth_error_app1 in Hnth by lia.
      apply nth_error_In in Hnth. rewrite forallb_forall in Hall.
      destruct (isdigit_unsigned _ (Hall _ Hnth)) as (_ & _ & Hdot).
      discriminate. }
  destruct (i - length digits) as [|k] eqn:Hk; [lia|].
  exists (firstn k rest).
  rewrite firstn_app, (firstn_all2 (n := i)), Hk by lia.
  reflexivity.
Qed.

(** X22.  An image file named by a number, a hyphen and any rest has that
    number as its key both where the generator orders the images of a chapter
    and where [create_chapter_video] does: the two orders agree on such
    names. *)
Theorem image_keys_agree :
  forall (n : Z) (rest : str),
    (0 <= n)%Z ->
    script_image_key (str_of_int n ++ "-"%char :: rest) = Some n
    /\ video_image_key (str_of_int n ++ "-"%char :: rest) = Some n.
Proof.
  intros n rest Hn. destruct (str_of_int_digits n Hn) as [Hall Hne].
  unfold script_image_key, video_image_key.
  destruct (stem_numbered _ rest Hall) as [rest' ->].
  rewrite !(before_hyphen_app _ _ Hall).
  split; apply py_int_str_of_int.
Qed.

Lemma image_keys_agree_witness :
  script_image_key (lit "12-page.v2.jpg") = Some 12%Z
  /\ video_image_key (lit "12-page.v2.jpg") = Some 12%Z.
Proof.
  apply (image_keys_agree 12 (lit "page.v2.jpg")). lia.
Defined.

(** ** The chapter folders of the image clean-up *)

(** X24.  A chapter folder whose name holds no digit makes the clean-up raise
    [ValueError] before any folder is processed: the key of the sort calls
    [int] on an empty string, and the default [or 0] is never reached. *)
Theorem chapter_folders_digitless :
  forall (entries : list (str * bool)) (name : str),
    In (name, true) entries ->
    startswith (str_lower name) (lit "chapter") = true ->
    filter str_isdigit name = [] ->
    chapter_folders entries = None.
Proof.
  intros entries name Hin Hchapter Hdigits. unfold chapter_folders.
  apply sorted_by_None. exists name. split.
  - apply (in_map fst _ (name, true)). apply filter_In.
    split; [exact Hin|]. simpl. exact Hchapter.
  - unfold chapter_key. now rewrite Hdigits.
Qed.

Lemma chapter_folders_digitless_witness :
  In (lit "Chapter-extra", true)
     [(lit "chapter1", true); (lit "Chapter-extra", true)]
  /\ chapter_folders [(lit "chapter1", true); (lit "Chapter-extra", true)]
     = None.
Proof.
  assert (Hin : In (lit "Chapter-extra", true)
                   [(lit "chapter1", true); (lit "Chapter-extra", true)])
    by (right; left; reflexivity).
  split; [exact Hin|].
  apply (chapter_folders_digitless _ (lit "Chapter-extra") Hin);
    reflexivity.
Defined.

(** ** Image files without a hyphen *)

Lemma in_int_lstrip (c : ascii) (s : str) :
  In c s -> int_space c = false -> In c (int_lstrip s).
Proof.
  intros Hin Hc. induction s as [|a s IH]; [contradiction|]. simpl.
  destruct (int_space a) eqn:Ha; [|exact Hin].
  destruct Hin as [->|Hin]; [congruence | now apply IH].
Qed.

Lemma in_int_strip (c : ascii) (s : str) :
  In c s -> int_space c = false -> In c (int_strip s).
Proof.
  intros Hin Hc. unfold int_strip. apply in_rev.
  rewrite rev_involutive. apply in_int_lstrip; [|exact Hc].
  apply in_rev. rewrite rev_involutive. now apply in_int_lstrip.
Qed.

Lemma int_digits_dot (s : str) :
  In "."%char s -> forall acc : Z, int_digits s acc = None.
Proof.
  induction s as [|c s IH]; intros Hin acc; [contradiction|].
  cbn [int_digits]. destruct Hin as [->|Hin]; [reflexivity|].
  destruct (isdigit c); [now apply IH|].
  destruct (Ascii.eqb c "_"); [|reflexivity].
  destruct s as [|d s]; [reflexivity|].
  destruct (isdigit d) eqn:Hd; [|reflexivity].
  specialize (IH Hin acc). cbn [int_digits] in IH. rewrite Hd in IH.
  exact IH.
Qed.

Lemma int_unsigned_dot (s : str) : In "."%char s -> int_unsigned s = None.
Proof.
  destruct s as [|d s]; [contradiction|]. intros [->|Hin]; [reflexivity|].
  unfold int_unsigned. destruct (isdigit d); [|reflexivity].
  now apply int_digits_dot.
Qed.

(** [int] refuses a string that holds a dot. *)
Lemma py_int_dot (s : str) : In "."%char s -> py_int s = None.
Proof.
  intros Hin. apply in_int_strip in Hin; [|reflexivity]. unfold py_int.
  destruct (int_strip s) as [|c s']; [reflexivity|].
  destruct (Ascii.eqb c "-") eqn:Hminus.
  - apply Ascii.eqb_eq in Hminus. subst c.
    destruct Hin as [|Hin]; [discriminate|].
    now rewrite int_unsigned_dot.
  - destruct (Ascii.eqb c "+") eqn:Hplus.
    + apply Ascii.eqb_eq in Hplus. subst c.
      destruct Hin as [|Hin]; [discriminate|]. now apply int_unsigned_dot.
    + now apply int_unsigned_dot.
Qed.

Lemma lower_char_dot (c : ascii) : lower_char c = "."%char -> c = "."%char.
Proof.
  destruct c as [[] [] [] [] [] [] [] []]; vm_compute; congruence.
Qed.

Lemma endswith_dot (name ext : str) :
  endswith (str_lower name) ("."%char :: ext) = true -> In "."%char name.
Proof.
  unfold endswith, startswith.
  destruct (strip_prefix (rev ("."%char :: ext)) (rev (str_lower name)))
    as [r|] eqn:Hr; [|discriminate].
  intros _. apply strip_prefix_Some in Hr.
  assert (Hin : In "."%char (str_lower name)).
  { apply in_rev. rewrite Hr. apply in_or_app. left.
    apply in_rev. rewrite rev_involutive. now left. }
  unfold str_lower in Hin. apply in_map_iff in Hin.
  destruct Hin as (c & Hc & Hin). now rewrite <- (lower_char_dot _ Hc).
Qed.

(** X23.  The generator needs a hyphen after the number of every image file: a
    file with one of its image extensions and no hyphen in its name makes the
    sort of the chapter's images raise [ValueError], since its key is [int] of
    the whole name. *)
Theorem script_images_need_hyphen :
  forall (names : list str) (name : str),
    In name names ->
    image_file name = true ->
    before_hyphen name = name ->
    script_images names = None.
Proof.
  intros names name Hin Himage Hplain. unfold script_images.
  apply sorted_by_None. exists name.
  split; [apply filter_In; auto|].
  unfold script_image_key. rewrite Hplain. apply py_int_dot.
  unfold image_file in Himage.
  apply orb_prop in Himage. destruct Himage as [Himage|Himage];
    [apply orb_prop in Himage; destruct Himage as [Himage|Himage]|];
    exact (endswith_dot _ _ Himage).
Qed.

Lemma script_images_need_hyphen_witness :
  In (lit "10.jpg") [lit "1-a.jpg"; lit "10.jpg"]
  /\ script_images [lit "1-a.jpg"; lit "10.jpg"] = None
  /\ video_images [lit "1-a.jpg"; lit "10.jpg"]
     = Some [lit "1-a.jpg"; lit "10.jpg"].
Proof.
  assert (Hin : In (lit "10.jpg") [lit "1-a.jpg"; lit "10.jpg"])
    by (right; left; reflexivity).
  split; [exact Hin|]. split; [|reflexivity].
  apply (script_images_need_hyphen _ (lit "10.jpg") Hin); reflexivity.
Defined.

(** ** Images of low variation *)

Lemma contains_app (needle haystack rest : str) :
  contains needle haystack = true ->
  contains needle (haystack ++ rest) = true.
Proof.
  induction haystack as [|c haystack IH]; simpl.
  - rewrite orb_false_r. unfold startswith.
    destruct needle as [|a needle]; [|discriminate].
    intros _. destruct rest; reflexivity.
  - intros Hfound. apply orb_prop in Hfound.
    destruct Hfound as [Hhere|Hlater].
    + apply orb_true_iff. left. unfold startswith in *.
      destruct (strip_prefix needle (c :: haystack)) as [r|] eqn:Hr;
        [|discriminate].
      apply strip_prefix_Some in Hr.
      change (c :: haystack ++ rest) with ((c :: haystack) ++ rest).
      rewrite Hr, <- app_assoc. now rewrite strip_prefix_app.
    + apply orb_true_iff. right. now apply IH.
Qed.

Section LowVariationFacts.
Variable grey_std : str -> option Float.float.

Lemma low_variation_loop_app (folder_path : str)
    (std_threshold : Float.float) (image_files : list str) :
  forall low_variation : list (str * Float.float),
    low_variation_loop grey_std folder_path std_threshold image_files
                       low_variation
    = low_variation
      ++ low_variation_loop grey_std folder_path std_threshold image_files
                            [].
Proof.
  induction image_files as [|filename rest IH]; intros low_variation;
    cbn [low_variation_loop].
  - now rewrite app_nil_r.
  - destruct (contains (lit "bad_images") (path_join folder_path filename));
      [apply IH|].
    destruct (_has_low_variation grey_std (path_join folder_path filename)
                                 std_threshold) as [[|] std_dev];
      [|apply IH].
    rewrite IH, (IH ([] ++ _)), <- app_assoc. reflexivity.
Qed.

Lemma low_variation_loop_In (folder_path : str)
    (std_threshold : Float.float) (image_files : list str)
    (filename : str) (std_dev : Float.float) :
  In (filename, std_dev)
     (low_variation_loop grey_std folder_path std_threshold image_files [])
  <-> In filename image_files
      /\ contains (lit "bad_images") (path_join folder_path filename) = false
      /\ ((grey_std (path_join folder_path filename) = None
           /\ std_dev = Float.of_Z 0)
          \/ (grey_std (path_join folder_path filename) = Some std_dev
              /\ SFltb std_dev std_threshold = true)).
Proof.
  induction image_files as [|file rest IH]; cbn [low_variation_loop].
  - split; [contradiction | now intros [[] _]].
  - destruct (contains (lit "bad_images") (path_join folder_path file))
      eqn:Hbad.
    + rewrite IH. split.
      * intros (Hin & Hrest). split; [now right | exact Hrest].
      * intros ([<-|Hin] & Hgood & Hlow); [congruence|]. auto.
    + unfold _has_low_variation.
      destruct (grey_std (path_join folder_path file)) as [std|] eqn:Hstd.
      * destruct (SFltb std std_threshold) eqn:Hlt.
        -- rewrite low_variation_loop_app. cbn [app In]. rewrite IH. split.
           ++ intros [[= <- <-]|(Hin & Hrest)].
              ** split; [now left|]. split; [exact Hbad|]. right. auto.
              ** split; [now right | exact Hrest].
           ++ intros ([<-|Hin] & Hgood & Hlow).
              ** left. destruct Hlow as [[Hnone _]|[Hsome _]]; congruence.
              ** right. auto.
        -- rewrite IH. split.
           ++ intros (Hin & Hrest). split; [now right | exact Hrest].
           ++ intros ([<-|Hin] & Hgood & Hlow); [|auto].
              destruct Hlow as [[Hnone _]|[Hsome Hlt']]; congruence.
      * rewrite low_variation_loop_app. cbn [app In]. rewrite IH. split.
        -- intros [[= <- <-]|(Hin & Hrest)].
           ++ split; [now left|]. split; [exact Hbad|]. left. auto.
           ++ split; [now right | exact Hrest].
        -- intros ([<-|Hin] & Hgood & Hlow).
           ++ left. destruct Hlow as [[_ ->]|[Hsome _]]; congruence.
           ++ right. auto.
Qed.

End LowVariationFacts.

(** X25.  [check_low_variation_images] lists, and moves, exactly the entries
    of the folder that have an image extension, whose path does not hold
    [bad_images], and that either cannot be read, which is reported with a
    deviation of 0.0 whatever the threshold, or have a deviation below the
    threshold. *)
Theorem check_low_variation_images_lists :
  forall (grey_std : str -> option Float.float) (folder_path : str)
         (std_threshold : Float.float) (entries : list str)
         (filename : str) (std_dev : Float.float),
    In (filename, std_dev)
       (check_low_variation_images grey_std folder_path std_threshold
                                   entries)
    <-> In filename entries
        /\ existsb (endswith (str_lower filename)) image_exts = true
        /\ contains (lit "bad_images") (path_join folder_path filename)
           = false
        /\ ((grey_std (path_join folder_path filename) = None
             /\ std_dev = Float.of_Z 0)
            \/ (grey_std (path_join folder_path filename) = Some std_dev
                /\ SFltb std_dev std_threshold = true)).
Proof.
  intros grey_std folder_path std_threshold entries filename std_dev.
  unfold check_low_variation_images.
  rewrite low_variation_loop_In, filter_In. tauto.
Qed.

(** X26.  When the path of the folder itself holds [bad_images], no image of
    the folder is checked or moved. *)
Theorem check_low_variation_images_skips_folder :
  forall (grey_std : str -> option Float.float) (folder_path : str)
         (std_threshold : Float.float) (entries : list str),
    contains (lit "bad_images") folder_path = true ->
    Forall (fun filename => startswith filename (lit "/") = false) entries ->
    check_low_variation_images grey_std folder_path std_threshold entries
    = [].
Proof.
  intros grey_std folder_path std_threshold entries Hfolder Hnames.
  destruct (check_low_variation_images grey_std folder_path std_threshold
                                       entries)
    as [|[filename std_dev] rest] eqn:Hlist; [reflexivity|].
  assert (Hin : In (filename, std_dev)
                   (check_low_variation_images grey_std folder_path
                                               std_threshold entries))
    by (rewrite Hlist; now left).
  unfold check_low_variation_images in Hin.
  apply low_variation_loop_In in Hin.
  destruct Hin as (Hentry & Hgood & _). apply filter_In in Hentry.
  destruct Hentry as [Hentry _].
  rewrite Forall_forall in Hnames. specialize (Hnames _ Hentry).
  unfold path_join in Hgood. rewrite Hnames in Hgood.
  destruct folder_path as [|c folder_path]; [discriminate|].
  destruct (endswith (c :: folder_path) (lit "/"));
    rewrite (contains_app _ _ _ Hfolder) in Hgood; discriminate.
Qed.

Lemma check_low_variation_images_skips_folder_witness :
  contains (lit "bad_images") (lit "old/bad_images_2/chapter1") = true
  /\ check_low_variation_images (fun _ => None)
       (lit "old/bad_images_2/chapter1") (Float.of_Z 5)
       [lit "1-a.jpg"; lit "2-b.png"]
     = [].
Proof.
  split; [reflexivity|].
  apply (check_low_variation_images_skips_folder (fun _ => None)
           (lit "old/bad_images_2/chapter1") (Float.of_Z 5)
           [lit "1-a.jpg"; lit "2-b.png"]);
    [reflexivity | repeat constructor].
Defined.
